(** * pl0/lexer.c: the PL/0 scanner and its driver loop

    A shallow embedding of [src/pl0/lexer.c].  The process state (the
    globals [source_buf] and [line], the buffer they point into and the
    standard output) is threaded through a small state-and-exit monad;
    [die] ends a computation with the state it was called in.  The scanner
    is given twice: first with every [malloc] returning a block, then, in
    the module [Alloc], with the answers of [malloc] as a parameter; the
    second is shown to refine the first. *)

From Stdlib Require Import List String Ascii Bool Arith ZArith NArith Lia.
From Stdlib Require Import Sorting.Sorted.
Import ListNotations.

Local Open Scope nat_scope.

(** ** Characters and <ctype.h> *)

Definition NUL : ascii := Ascii.zero.
Definition LF : ascii := ascii_of_nat 10.

Definition between (lo hi : nat) (c : ascii) : bool :=
  (lo <=? nat_of_ascii c) && (nat_of_ascii c <=? hi).

(** The program never calls [setlocale], so the classification is that of
    the "C" locale; bytes above 127 belong to no class. *)
Definition isdigit (c : ascii) : bool := between 48 57 c.
Definition isalpha (c : ascii) : bool := between 65 90 c || between 97 122 c.
Definition isalnum (c : ascii) : bool := isalpha c || isdigit c.
Definition isspace (c : ascii) : bool :=
  (nat_of_ascii c =? 32) || between 9 13 c.

(** A [char *] read as a C string: the bytes before the first NUL. *)
Fixpoint cstr (l : list ascii) : string :=
  match l with
  | [] => EmptyString
  | c :: l' => if Ascii.eqb c NUL then EmptyString else String c (cstr l')
  end.

(** ** Tokens *)

Inductive token_type : Set :=
| IDENT | NUMBER
| CONST | VAR
| PROCEDURE | CALL
| BEGIN | END
| IF | THEN
| WHILE | DO
| ODD
| ASSIGN
| EQUAL | HASH | LT | GT
| PLUS | MINUS | MULTIPLY | DIVIDE
| LPAREN | RPAREN
| DOT | COMMA | SEMICOLON.

Definition token_type_eq_dec (a b : token_type) : {a = b} + {a <> b}.
Proof. decide equality. Defined.

Definition is_DOT (t : token_type) : bool :=
  if token_type_eq_dec t DOT then true else false.

Record token : Set := make_token { value : string; type : token_type }.

Definition stringify (t : token_type) : string :=
  match t with
  | IDENT => "IDENT" | NUMBER => "NUMBER" | CONST => "CONST" | VAR => "VAR"
  | PROCEDURE => "PROCEDURE" | CALL => "CALL" | BEGIN => "BEGIN"
  | END => "END" | IF => "IF" | THEN => "THEN" | WHILE => "WHILE"
  | DO => "DO" | ODD => "ODD" | ASSIGN => "ASSIGN" | EQUAL => "EQUAL"
  | HASH => "HASH" | LT => "LESS-THAN" | GT => "GREATER-THAN"
  | PLUS => "PLUS" | MINUS => "MINUS" | MULTIPLY => "MULTIPLY"
  | DIVIDE => "DIVIDE" | LPAREN => "LEFT-PAREN" | RPAREN => "RIGHT-PAREN"
  | DOT => "DOT" | COMMA => "COMMA" | SEMICOLON => "SEMICOLON"
  end%string.

(** ** Process state *)

(** What [parse] writes to the standard output: one line per token, holding
    the value of [line] at that moment, and the closing [done]. *)
Inductive printed : Set :=
| PToken (ln : N) (t : token)
| PDone.

(** [mem] is the file's content; the buffer [readfile] allocates holds one
    more byte, the terminating NUL at offset [List.length mem].  [source_buf] is
    the moving pointer, kept as its offset from [anchor]; [line] is a
    [size_t]. *)
Record state : Type := mkState {
  mem : list ascii;
  source_buf : nat;
  line : N;
  stdout : list printed
}.

Definition size_max : N := 2 ^ 64.
Definition incr (l : N) : N := ((l + 1) mod size_max)%N.

(** Reading the byte at offset [i] of the buffer; [None] outside it. *)
Definition load (m : list ascii) (i : nat) : option ascii :=
  match nth_error m i with
  | Some c => Some c
  | None => if i =? List.length m then Some NUL else None
  end.

Inductive outcome (A : Type) : Type :=
| Ret (a : A) (s : state)        (* the call returns *)
| Exit (s : state) (msg : string) (* die: diagnostic with [line s], exit(1) *)
| Fault (s : state)              (* an access outside the buffer *)
| Timeout (s : state).           (* the model ran out of fuel *)
Arguments Ret {A} a s.
Arguments Exit {A} s msg.
Arguments Fault {A} s.
Arguments Timeout {A} s.

Definition M (A : Type) : Type := state -> outcome A.

Definition ret {A} (a : A) : M A := fun s => Ret a s.
Definition bind {A B} (m : M A) (f : A -> M B) : M B :=
  fun s =>
    match m s with
    | Ret a s' => f a s'
    | Exit s' msg => Exit s' msg
    | Fault s' => Fault s'
    | Timeout s' => Timeout s'
    end.

Declare Scope lex_scope.
Delimit Scope lex_scope with lex.
Notation "x <- m ;; k" := (bind m (fun x => k))
  (at level 61, m at next level, right associativity) : lex_scope.
Notation "m ;; k" := (bind m (fun _ => k))
  (at level 61, right associativity) : lex_scope.
Local Open Scope lex_scope.

(** [*source_buf] *)
Definition deref : M ascii :=
  fun s => match load (mem s) (source_buf s) with
           | Some c => Ret c s
           | None => Fault s
           end.
(** [source_buf++] *)
Definition advance : M unit :=
  fun s => Ret tt (mkState (mem s) (S (source_buf s)) (line s) (stdout s)).
(** [line++] *)
Definition incr_line : M unit :=
  fun s => Ret tt (mkState (mem s) (source_buf s) (incr (line s)) (stdout s)).
Definition get_source_buf : M nat := fun s => Ret (source_buf s) s.
Definition get_line : M N := fun s => Ret (line s) s.
Definition print (p : printed) : M unit :=
  fun s => Ret tt (mkState (mem s) (source_buf s) (line s) (stdout s ++ [p])).
Definition die {A} (msg : string) : M A := fun s => Exit s msg.
Definition timeout {A} : M A := fun s => Timeout s.
Definition when (b : bool) (m : M unit) : M unit := if b then m else ret tt.

(** Loops take their fuel from the size of the buffer: every iteration but
    the last moves [source_buf] forward. *)
Definition fuel (s : state) : nat := 2 + List.length (mem s).

(** ** The scanner *)

Fixpoint comment_loop (n : nat) : M unit :=
  match n with
  | 0 => timeout
  | S n =>
      c <- deref ;; advance ;;
      if Ascii.eqb c "}" then ret tt
      else
        (if Ascii.eqb c NUL then die "Unterminated comment" else ret tt) ;;
        when (Ascii.eqb c LF) incr_line ;;
        comment_loop n
  end.

Definition comment : M unit := fun s => comment_loop (fuel s) s.

Definition span (m : list ascii) (i j : nat) : list ascii :=
  firstn (j - i) (skipn i m).

(** [get_token] copies the bytes [startp .. endp - 1], which have to lie
    in the buffer, into a fresh NUL-terminated string.  Here [malloc] is
    taken to succeed; [Alloc.get_token] below has the test on its
    result. *)
Definition get_token (startp endp : nat) : M string :=
  fun s =>
    if (startp <=? endp) && (endp <=? S (List.length (mem s)))
    then Ret (cstr (span (mem s) startp endp)) s
    else Fault s.

(** [strcmp] of the C library, as the sign of the comparison, and the
    [!] of C on its result. *)
Definition strcmp (a b : string) : Z :=
  match String.compare a b with
  | Eq => 0%Z
  | Lt => (-1)%Z
  | Gt => 1%Z
  end.
Definition lnot (x : Z) : bool := (x =? 0)%Z.

Fixpoint ident_loop (n : nat) : M unit :=
  match n with
  | 0 => timeout
  | S n =>
      c <- deref ;;
      if isalnum c || Ascii.eqb c "_" then advance ;; ident_loop n
      else ret tt
  end.

Definition ident_type (ident : string) : token_type :=
  if lnot (strcmp ident "const") then CONST
  else if lnot (strcmp ident "var") then VAR
  else if lnot (strcmp ident "procedure") then PROCEDURE
  else if lnot (strcmp ident "call") then CALL
  else if lnot (strcmp ident "begin") then BEGIN
  else if lnot (strcmp ident "end") then END
  else if lnot (strcmp ident "if") then IF
  else if lnot (strcmp ident "then") then THEN
  else if lnot (strcmp ident "while") then WHILE
  else if lnot (strcmp ident "do") then DO
  else if lnot (strcmp ident "odd") then ODD
  else IDENT.

Definition ident : M token :=
  startp <- get_source_buf ;;
  (fun s => ident_loop (fuel s) s) ;;
  endp <- get_source_buf ;;
  ident <- get_token startp endp ;;
  ret (make_token ident (ident_type ident)).

(** [strtol] belongs to the C library.  Modelled from the C standard
    (7.22.1.4) for base 10 and a [long] of 64 bits: leading white space, an
    optional sign, the longest run of digits; a value outside the range of
    [long] is clamped and reported through [errno]. *)
Definition LONG_MAX : Z := 2 ^ 63 - 1.
Definition LONG_MIN : Z := - 2 ^ 63.
Definition ERANGE : Z := 34.

Definition digit_val (c : ascii) : Z := Z.of_nat (nat_of_ascii c) - 48.

Fixpoint digits_val (acc : Z) (s : string) : Z :=
  match s with
  | String c s' =>
      if isdigit c then digits_val (10 * acc + digit_val c) s' else acc
  | EmptyString => acc
  end.

Fixpoint skip_white (s : string) : string :=
  match s with
  | String c s' => if isspace c then skip_white s' else s
  | EmptyString => s
  end.

(** The converted value and the value [errno] has afterwards, given that it
    was 0 before the call. *)
Definition strtol (s : string) : Z * Z :=
  let s1 := skip_white s in
  let '(neg, s2) :=
    match s1 with
    | String c r =>
        if Ascii.eqb c "-" then (true, r)
        else if Ascii.eqb c "+" then (false, r)
        else (false, s1)
    | EmptyString => (false, s1)
    end in
  let v := digits_val 0 s2 in
  let r := if neg : bool then (- v)%Z else v in
  if (LONG_MAX <? r)%Z then (LONG_MAX, ERANGE)
  else if (r <? LONG_MIN)%Z then (LONG_MIN, ERANGE)
  else (r, 0%Z).

Fixpoint number_loop (n : nat) : M unit :=
  match n with
  | 0 => timeout
  | S n =>
      c <- deref ;;
      if isdigit c then advance ;; number_loop n else ret tt
  end.

Definition number : M token :=
  startp <- get_source_buf ;;
  (fun s => number_loop (fuel s) s) ;;
  endp <- get_source_buf ;;
  token <- get_token startp endp ;;
  let errno := snd (strtol token) in
  (if negb (errno =? 0)%Z then die "Invalid number" else ret tt) ;;
  ret (make_token token NUMBER).

Fixpoint space_loop (n : nat) : M unit :=
  match n with
  | 0 => timeout
  | S n =>
      c <- deref ;;
      if isspace c then
        advance ;; when (Ascii.eqb c LF) incr_line ;; space_loop n
      else ret tt
  end.

Definition skip_space : M unit := fun s => space_loop (fuel s) s.

(** The ways control leaves the [switch] of [lex]. *)
Inductive switch_exit : Set :=
| Break (type : token_type)
| Return (t : token)
| Goto_start.

Definition unknown_token (colon : bool) (c : ascii) : string :=
  ((if colon then "Unkown token: '" else "Unkown token '")
     ++ String c "'")%string.

Definition lex_switch (c : ascii) : M switch_exit :=
  if Ascii.eqb c "=" then advance ;; ret (Break ASSIGN)
  else if Ascii.eqb c "#" then advance ;; ret (Break HASH)
  else if Ascii.eqb c "<" then advance ;; ret (Break LT)
  else if Ascii.eqb c ">" then advance ;; ret (Break GT)
  else if Ascii.eqb c "+" then advance ;; ret (Break PLUS)
  else if Ascii.eqb c "-" then advance ;; ret (Break MINUS)
  else if Ascii.eqb c "*" then advance ;; ret (Break MULTIPLY)
  else if Ascii.eqb c "/" then advance ;; ret (Break DIVIDE)
  else if Ascii.eqb c "(" then advance ;; ret (Break LPAREN)
  else if Ascii.eqb c ")" then advance ;; ret (Break RPAREN)
  else if Ascii.eqb c "." then advance ;; ret (Break DOT)
  else if Ascii.eqb c "," then advance ;; ret (Break COMMA)
  else if Ascii.eqb c ";" then advance ;; ret (Break SEMICOLON)
  else if Ascii.eqb c ":" then
    advance ;;
    c' <- deref ;;
    (if negb (Ascii.eqb c' "=") then die (unknown_token true c')
     else ret tt) ;;
    advance ;;
    ret (Return (make_token ":=" ASSIGN))
  else if Ascii.eqb c "{" then comment ;; ret Goto_start
  else if Ascii.eqb c NUL then ret (Break DOT)
  else die (unknown_token false c).

(** One pass from the label [start] to a [return] or to [goto start];
    [again] is the scanner restarted at [start].  The three bytes for
    [value] are taken to be there ([malloc] succeeds; [Alloc.lex_body] below
    has the test on its result); the text of a token that leaves the
    [switch] by [break] is read under the cursor as the case left it. *)
Definition lex_body (again : M token) : M token :=
  skip_space ;;
  c <- deref ;;
  if isalpha c || Ascii.eqb c "_" then ident
  else if isdigit c then number
  else
    e <- lex_switch c ;;
    match e with
    | Break type =>
        v <- deref ;;
        ret (make_token (cstr [v]) type)
    | Return t => ret t
    | Goto_start => again
    end.

Fixpoint lex_loop (n : nat) : M token :=
  match n with
  | 0 => timeout
  | S n => lex_body (lex_loop n)
  end.

Definition lex : M token := fun s => lex_loop (fuel s) s.

(** ** The driver *)

Fixpoint parse_loop (n : nat) (t : token) : M unit :=
  match n with
  | 0 => timeout
  | S n =>
      if is_DOT (type t) then print PDone
      else
        t <- lex ;;
        ln <- get_line ;;
        print (PToken ln t) ;;
        parse_loop n t
  end.

Definition parse : M unit :=
  fun s => parse_loop (fuel s) (make_token "" IDENT) s.

(** The state [readfile] leaves for a file with content [file]. *)
Definition init (file : list ascii) : state := mkState file 0 1%N [].

Definition source (s : string) : list ascii := list_ascii_of_string s.

(** [main] on a readable file: the tokens are printed and the process ends
    with status 0, or [die] ended it with status 1. *)
Definition main (file : list ascii) : outcome unit := parse (init file).

Definition exit_status {A} (o : outcome A) : option Z :=
  match o with
  | Ret _ _ => Some 0%Z
  | Exit _ _ => Some 1%Z
  | Fault _ | Timeout _ => None
  end.

Definition tokens_of (out : list printed) : list (N * token) :=
  flat_map (fun p => match p with PToken ln t => [(ln, t)] | PDone => [] end)
           out.

(** ** Vocabulary of the proofs *)

(** [wp m s Q E]: run from [s], [m] either returns with [Q] or dies with
    [E]; it neither leaves the buffer nor runs out of fuel. *)
Definition wp {A} (m : M A) (s : state)
    (Q : A -> state -> Prop) (E : state -> string -> Prop) : Prop :=
  match m s with
  | Ret a s' => Q a s'
  | Exit s' msg => E s' msg
  | Fault _ | Timeout _ => False
  end.

Definition wf (s : state) : Prop := source_buf s <= List.length (mem s).

(** The byte under the cursor. *)
Definition cur (s : state) : ascii := nth (source_buf s) (mem s) NUL.

Definition newlines (l : list ascii) : nat := count_occ ascii_dec l LF.

(** [adv s s']: from [s] to [s'] the cursor moved forward over a stretch of
    the buffer, [line] was incremented once for each newline of the stretch,
    and nothing else changed. *)
Record adv (s s' : state) : Prop := mkAdv {
  adv_mem : mem s' = mem s;
  adv_stdout : stdout s' = stdout s;
  adv_le : source_buf s <= source_buf s';
  adv_line :
    line s' =
    Nat.iter (newlines (span (mem s) (source_buf s) (source_buf s')))
             incr (line s)
}.

(** One byte consumed: [source_buf++], and [line++] if it was a newline. *)
Definition eat (s : state) : state :=
  mkState (mem s) (S (source_buf s))
          (if Ascii.eqb (cur s) LF then incr (line s) else line s) (stdout s).

Definition identchar (c : ascii) : bool := isalnum c || Ascii.eqb c "_".

(** Inside a comment: neither the closing brace nor the end of the text. *)
Definition in_comment (c : ascii) : Prop := c <> "}"%char /\ c <> NUL.

Definition comment_ok (s s' : state) : Prop :=
  adv s s' /\ wf s' /\ source_buf s < source_buf s'
  /\ Forall in_comment (span (mem s) (source_buf s) (pred (source_buf s')))
  /\ nth (pred (source_buf s')) (mem s) NUL = "}"%char.

Definition comment_died (s s' : state) (msg : string) : Prop :=
  adv s s' /\ source_buf s' <= S (List.length (mem s))
  /\ source_buf s < source_buf s'
  /\ Forall in_comment (span (mem s) (source_buf s) (pred (source_buf s')))
  /\ nth (pred (source_buf s')) (mem s) NUL = NUL
  /\ msg = "Unterminated comment"%string.

(** *** Token text *)

Definition text (l : list ascii) : string := string_of_list_ascii l.

(** The value of a run of digits read in base 10. *)
Definition decimal (l : list ascii) : Z :=
  fold_left (fun a c => (10 * a + digit_val c)%Z) l 0%Z.

(** *** One call of [lex] *)

Definition lex_ok (s : state) (t : token) (s' : state) : Prop :=
  adv s s' /\ wf s' /\ (type t <> DOT -> source_buf s < source_buf s').

Definition lex_died (s s' : state) (msg : string) : Prop :=
  adv s s' /\ source_buf s' <= S (List.length (mem s)).

Definition switch_ok (s : state) (e : switch_exit) (s' : state) : Prop :=
  adv s s' /\ wf s' /\
  match e with
  | Break type => type <> DOT -> source_buf s < source_buf s'
  | Return t => source_buf s < source_buf s'
  | Goto_start => source_buf s < source_buf s'
  end.

(** *** The driver loop *)

(** The state after [printf] of one more line. *)
Definition put (s : state) (p : printed) : state :=
  mkState (mem s) (source_buf s) (line s) (stdout s ++ [p]).

(** [progress] is [adv] without the clause on the output. *)
Record progress (s s' : state) : Prop := mkProgress {
  pr_mem : mem s' = mem s;
  pr_le : source_buf s <= source_buf s';
  pr_line :
    line s' =
    Nat.iter (newlines (span (mem s) (source_buf s) (source_buf s')))
             incr (line s)
}.

(** [drive s toks s']: starting in [s] the loop of [parse] went round once
    for each entry of [toks], none of kind DOT, printed them, and is in
    [s'] at the head of the loop. *)
Inductive drive : state -> list (N * token) -> state -> Prop :=
| drive_nil s : drive s [] s
| drive_cons s t s1 toks s' :
    lex s = Ret t s1 ->
    type t <> DOT ->
    drive (put s1 (PToken (line s1) t)) toks s' ->
    drive s ((line s1, t) :: toks) s'.

Definition print_all (toks : list (N * token)) : list printed :=
  map (fun x => PToken (fst x) (snd x)) toks.

Definition parse_done (t : token) (s s' : state) : Prop :=
  if is_DOT (type t) then s' = put s PDone
  else exists toks s1 tl s2,
      drive s toks s1 /\ lex s1 = Ret tl s2 /\ type tl = DOT
      /\ s' = put (put s2 (PToken (line s2) tl)) PDone.

Definition parse_died (t : token) (s s' : state) (msg : string) : Prop :=
  is_DOT (type t) = false /\
  exists toks s1, drive s toks s1 /\ lex s1 = Exit s' msg.

(** *** What a call consumes *)

Fixpoint take_while (p : ascii -> bool) (l : list ascii) : list ascii :=
  match l with
  | [] => []
  | c :: l' => if p c then c :: take_while p l' else []
  end.

(** The text from the cursor on, and the state [k] bytes further. *)
Definition rest (s : state) : list ascii := skipn (source_buf s) (mem s).
Definition moved (s : state) (k : nat) : state :=
  mkState (mem s) (k + source_buf s) (line s) (stdout s).

Definition ident_run (s : state) : list ascii := take_while identchar (rest s).
Definition digit_run (s : state) : list ascii := take_while isdigit (rest s).

(** *** Observations on runs *)

Definition next (s : state) : ascii := nth (S (source_buf s)) (mem s) NUL.

(** What was printed, whichever way the run ended. *)
Definition output {A} (o : outcome A) : list printed :=
  match o with
  | Ret _ s | Exit s _ | Fault s | Timeout s => stdout s
  end.

(** The keyword table of the language. *)
Definition keywords : list (string * token_type) :=
  [("const", CONST); ("var", VAR); ("procedure", PROCEDURE); ("call", CALL);
   ("begin", BEGIN); ("end", END); ("if", IF); ("then", THEN);
   ("while", WHILE); ("do", DO); ("odd", ODD)]%string.

(** The kind [lex] gives to a text of the single byte [c] and the number
    of bytes it consumes. *)
Definition scan_one (c : ascii) : option (token_type * nat) :=
  match lex (init [c]) with
  | Ret t s => Some (type t, source_buf s)
  | _ => None
  end.

(** *** Line numbers *)

(** [line] cannot wrap around before the end of the buffer. *)
Definition nowrap (s : state) : Prop :=
  (line s + N.of_nat (List.length (mem s) - source_buf s) < size_max)%N.

(** The state a run ends in, whichever way. *)
Definition final {A} (o : outcome A) : state :=
  match o with
  | Ret _ s | Exit s _ | Fault s | Timeout s => s
  end.

(** *** The first dot outside the comments *)

(** The offset of the first [.] of a text that lies outside every comment;
    [inside] tells whether the text starts inside one. *)
Fixpoint first_dot (inside : bool) (l : list ascii) : option nat :=
  match l with
  | [] => None
  | c :: l' =>
      if inside then option_map S (first_dot (negb (Ascii.eqb c "}")) l')
      else if Ascii.eqb c "." then Some 0
      else option_map S (first_dot (Ascii.eqb c "{") l')
  end.

(** The first such dot from the cursor on is at offset [p] of the buffer. *)
Definition dot_ahead (s : state) (p : nat) : Prop :=
  source_buf s <= p /\ first_dot false (rest s) = Some (p - source_buf s).

(** [keeps]: that dot is still ahead; [within]: the cursor is no further
    than the byte after it. *)
Definition keeps (s s' : state) : Prop :=
  forall p, dot_ahead s p -> dot_ahead s' p.
Definition within (s s' : state) : Prop :=
  forall p, dot_ahead s p -> source_buf s' <= p + 1.

(** A stretch of text with no dot outside a comment and no comment left
    open. *)
Definition skips (l : list ascii) : Prop :=
  forall r, first_dot false (l ++ r)
            = option_map (Nat.add (List.length l)) (first_dot false r).

Definition plain (c : ascii) : Prop := c <> "."%char /\ c <> "{"%char.

(** [stops]: the cursor is just after that dot, or on a NUL before it. *)
Definition stops (s s' : state) : Prop :=
  forall p, dot_ahead s p ->
            source_buf s' = p + 1 \/ (source_buf s' <= p /\ cur s' = NUL).

Definition switch_dots (s : state) (e : switch_exit) (s' : state) : Prop :=
  match e with
  | Break type => if is_DOT type then stops s s' else keeps s s'
  | Return t => is_DOT (type t) = false /\ keeps s s'
  | Goto_start => keeps s s'
  end.

Definition lex_dots_ok (s : state) (t : token) (s' : state) : Prop :=
  if is_DOT (type t) then stops s s' else keeps s s'.

(** ** Lexemes *)

(** The kind the [switch] of [lex] gives to a byte that is a token by
    itself, read off its thirteen one-byte cases. *)
Definition op_kind (c : ascii) : option token_type :=
  if Ascii.eqb c "=" then Some ASSIGN
  else if Ascii.eqb c "#" then Some HASH
  else if Ascii.eqb c "<" then Some LT
  else if Ascii.eqb c ">" then Some GT
  else if Ascii.eqb c "+" then Some PLUS
  else if Ascii.eqb c "-" then Some MINUS
  else if Ascii.eqb c "*" then Some MULTIPLY
  else if Ascii.eqb c "/" then Some DIVIDE
  else if Ascii.eqb c "(" then Some LPAREN
  else if Ascii.eqb c ")" then Some RPAREN
  else if Ascii.eqb c "." then Some DOT
  else if Ascii.eqb c "," then Some COMMA
  else if Ascii.eqb c ";" then Some SEMICOLON
  else None.

(** The bytes no path of [lex] accepts where a token starts. *)
Definition unknown_byte (c : ascii) : bool :=
  negb (isspace c || isalpha c || Ascii.eqb c "_" || isdigit c
        || (match op_kind c with Some _ => true | None => false end)
        || Ascii.eqb c ":" || Ascii.eqb c "{" || Ascii.eqb c NUL).

(** The kinds of the tokens that [ident] and [number] make. *)
Definition is_word (k : token_type) : bool :=
  match k with
  | IDENT | NUMBER | CONST | VAR | PROCEDURE | CALL | BEGIN | END | IF
  | THEN | WHILE | DO | ODD => true
  | _ => false
  end.

(** What the scanner passes over before a token: white space and closed
    comments. *)
Inductive blank : list ascii -> Prop :=
| blank_nil : blank []
| blank_space c l : isspace c = true -> blank l -> blank (c :: l)
| blank_comment body l :
    Forall in_comment body -> blank l ->
    blank ("{"%char :: body ++ "}"%char :: l).

(** [lexeme nxt l t]: the bytes [l], followed in the buffer by the byte
    [nxt], are what the token [t] is made of. *)
Inductive lexeme (nxt : ascii) : list ascii -> token -> Prop :=
| lexeme_ident c l :
    isalpha c || Ascii.eqb c "_" = true ->
    Forall (fun x => identchar x = true) l ->
    identchar nxt = false ->
    lexeme nxt (c :: l)
           (make_token (text (c :: l)) (ident_type (text (c :: l))))
| lexeme_number c l :
    Forall (fun x => isdigit x = true) (c :: l) ->
    isdigit nxt = false ->
    (decimal (c :: l) <= LONG_MAX)%Z ->
    lexeme nxt (c :: l) (make_token (text (c :: l)) NUMBER)
| lexeme_assign :
    lexeme nxt [":"%char; "="%char] (make_token ":=" ASSIGN)
| lexeme_op c k :
    op_kind c = Some k -> lexeme nxt [c] (make_token (cstr [nxt]) k)
| lexeme_end :
    nxt = NUL -> lexeme nxt [] (make_token "" DOT).

(** [fatal m start pos msg]: how a call that found a token starting at
    offset [start] of the buffer [m] died with the cursor at [pos] and the
    diagnostic [msg]. *)
Inductive fatal (m : list ascii) (start pos : nat) : string -> Prop :=
| fatal_unknown :
    pos = start -> unknown_byte (nth start m NUL) = true ->
    fatal m start pos (unknown_token false (nth start m NUL))
| fatal_colon :
    pos = S start -> nth start m NUL = ":"%char ->
    nth pos m NUL <> "="%char ->
    fatal m start pos (unknown_token true (nth pos m NUL))
| fatal_number :
    start < pos -> pos <= List.length m ->
    Forall (fun x => isdigit x = true) (span m start pos) ->
    isdigit (nth pos m NUL) = false ->
    (LONG_MAX < decimal (span m start pos))%Z ->
    fatal m start pos "Invalid number"
| fatal_comment :
    start < pred pos -> pred pos <= List.length m ->
    nth start m NUL = "{"%char ->
    Forall in_comment (span m start (pred pos)) ->
    nth (pred pos) m NUL = NUL ->
    fatal m start pos "Unterminated comment".

Definition part_ok (s : state) (t : token) (s' : state) : Prop :=
  exists start,
    source_buf s <= start /\ start <= source_buf s'
    /\ blank (span (mem s) (source_buf s) start)
    /\ lexeme (cur s') (span (mem s) start (source_buf s')) t.

Definition part_died (s s' : state) (msg : string) : Prop :=
  exists start,
    source_buf s <= start /\ start <= source_buf s'
    /\ blank (span (mem s) (source_buf s) start)
    /\ fatal (mem s) start (source_buf s') msg.

Definition switch_part (s : state) (e : switch_exit) (s' : state) : Prop :=
  match e with
  | Break k =>
      (span (mem s) (source_buf s) (source_buf s') = [cur s]
       /\ op_kind (cur s) = Some k)
      \/ (s' = s /\ cur s = NUL /\ k = DOT)
  | Return t =>
      span (mem s) (source_buf s) (source_buf s') = [":"%char; "="%char]
      /\ t = make_token ":=" ASSIGN
  | Goto_start => blank (span (mem s) (source_buf s) (source_buf s'))
  end.

(** ** Allocation *)

(** The scanner above takes every call of [malloc] to return a block.  In
    this part the calls can fail.  A [heap] holds the answers [malloc]
    gives to the calls still to come, in their order: [true] for a block,
    [false] for NULL. *)
Definition heap : Type := nat -> bool.

Module Alloc.

(** Computations that call [malloc]: they take the answers and hand on
    those they did not use. *)
Definition A (T : Type) : Type := heap -> M (T * heap).

Definition ret {T} (a : T) : A T := fun h s => Ret (a, h) s.
Definition bind {T U} (m : A T) (f : T -> A U) : A U :=
  fun h s =>
    match m h s with
    | Ret (a, h') s' => f a h' s'
    | Exit s' msg => Exit s' msg
    | Fault s' => Fault s'
    | Timeout s' => Timeout s'
    end.

(** A computation that does not allocate. *)
Definition lift {T} (m : M T) : A T :=
  fun h s =>
    match m s with
    | Ret a s' => Ret (a, h) s'
    | Exit s' msg => Exit s' msg
    | Fault s' => Fault s'
    | Timeout s' => Timeout s'
    end.

(** [malloc(n) != NULL]: the next answer is used up. *)
Definition malloc : A bool := fun h s => Ret (h 0, fun k => h (S k)) s.

Definition die {T} (msg : string) : A T := lift (die msg).

Declare Scope alloc_scope.
Delimit Scope alloc_scope with alloc.
Notation "x <- m ;; k" := (bind m (fun x => k))
  (at level 61, m at next level, right associativity) : alloc_scope.
Notation "m ;; k" := (bind m (fun _ => k))
  (at level 61, right associativity) : alloc_scope.
Local Open Scope alloc_scope.

(** [get_token] with its allocation: the copy is that of [get_token]
    above. *)
Definition get_token (startp endp : nat) : A string :=
  token <- malloc ;;
  (if negb token then die "Malloc failed" else ret tt) ;;
  lift (get_token startp endp).

Definition ident : A token :=
  startp <- lift get_source_buf ;;
  lift (fun s => ident_loop (fuel s) s) ;;
  endp <- lift get_source_buf ;;
  ident <- get_token startp endp ;;
  ret (make_token ident (ident_type ident)).

Definition number : A token :=
  startp <- lift get_source_buf ;;
  lift (fun s => number_loop (fuel s) s) ;;
  endp <- lift get_source_buf ;;
  token <- get_token startp endp ;;
  let errno := snd (strtol token) in
  (if negb (errno =? 0)%Z then die "Invalid number" else ret tt) ;;
  ret (make_token token NUMBER).

(** One pass from the label [start]: the three bytes for [value] are
    asked for once the cursor is on a byte that starts neither an
    identifier nor a number, before the [switch], on every pass. *)
Definition lex_body (again : A token) : A token :=
  lift skip_space ;;
  c <- lift deref ;;
  if isalpha c || Ascii.eqb c "_" then ident
  else if isdigit c then number
  else
    value <- malloc ;;
    (if negb value then die "Malloc failed" else ret tt) ;;
    e <- lift (lex_switch c) ;;
    match e with
    | Break type =>
        v <- lift deref ;;
        ret (make_token (cstr [v]) type)
    | Return t => ret t
    | Goto_start => again
    end.

Fixpoint lex_loop (n : nat) : A token :=
  match n with
  | 0 => lift timeout
  | S n => lex_body (lex_loop n)
  end.

Definition lex : A token := fun h s => lex_loop (fuel s) h s.

Fixpoint parse_loop (n : nat) (t : token) : A unit :=
  match n with
  | 0 => lift timeout
  | S n =>
      if is_DOT (type t) then lift (print PDone)
      else
        t <- lex ;;
        ln <- lift get_line ;;
        lift (print (PToken ln t)) ;;
        parse_loop n t
  end.

Definition parse : A unit :=
  fun h s => parse_loop (fuel s) (make_token "" IDENT) h s.

(** The computation run on the answers [h]; those left over are dropped. *)
Definition exec {T} (m : A T) (h : heap) : M T :=
  fun s =>
    match m h s with
    | Ret (a, _) s' => Ret a s'
    | Exit s' msg => Exit s' msg
    | Fault s' => Fault s'
    | Timeout s' => Timeout s'
    end.

(** [main] on a readable file whose buffer was allocated. *)
Definition main (h : heap) (file : list ascii) : outcome unit :=
  exec parse h (init file).

End Alloc.

(** *** The scanner with and without allocation failures *)

(** [later h h']: [h'] is what is left of [h] after some calls. *)
Definition later (h h' : heap) : Prop :=
  exists n, forall k, h' k = h (n + k).

(** Some call to come gets no block. *)
Definition fails (h : heap) : Prop := exists k, h k = false.

(** [no_memory m start pos]: where a call that passed to offset [start] of
    the buffer [m] can be refused a block, with the cursor at [pos]: on a
    byte that starts neither an identifier nor a number (the three bytes
    of [lex]), or after the run of an identifier or of a number (the copy
    of [get_token]). *)
Inductive no_memory (m : list ascii) (start pos : nat) : Prop :=
| no_memory_value :
    pos = start ->
    isspace (nth start m NUL) = false ->
    isalpha (nth start m NUL) || Ascii.eqb (nth start m NUL) "_" = false ->
    isdigit (nth start m NUL) = false ->
    no_memory m start pos
| no_memory_ident :
    start < pos -> pos <= List.length m ->
    isalpha (nth start m NUL) || Ascii.eqb (nth start m NUL) "_" = true ->
    Forall (fun x => identchar x = true) (span m start pos) ->
    identchar (nth pos m NUL) = false ->
    no_memory m start pos
| no_memory_number :
    start < pos -> pos <= List.length m ->
    Forall (fun x => isdigit x = true) (span m start pos) ->
    isdigit (nth pos m NUL) = false ->
    no_memory m start pos.

Definition malloc_failed : string := "Malloc failed".

(** A call of the scanner that died for want of memory. *)
Definition alloc_died (s s' : state) (msg : string) : Prop :=
  msg = malloc_failed /\ adv s s' /\ wf s'
  /\ exists start,
       source_buf s <= start /\ start <= source_buf s'
       /\ blank (span (mem s) (source_buf s) start)
       /\ no_memory (mem s) start (source_buf s').

(** A run of the driver loop that died for want of memory. *)
Definition alloc_stopped (s s' : state) (msg : string) : Prop :=
  exists toks s1, drive s toks s1 /\ alloc_died s1 s' msg.

(** [refines h D o o']: the outcome [o] of a computation run on the answers
    [h] is the outcome [o'] of the computation in which no allocation
    fails, unless an answer of [h] was NULL and it died as [D] says. *)
Definition refines {T} (h : heap) (D : state -> string -> Prop)
    (o : outcome (T * heap)) (o' : outcome T) : Prop :=
  match o with
  | Ret (a, h') s' => o' = Ret a s' /\ later h h'
  | Exit s' msg => o' = Exit s' msg \/ (fails h /\ D s' msg)
  | Fault s' => o' = Fault s'
  | Timeout s' => o' = Timeout s'
  end.

(** ** The program around the scanner *)

(** [strrchr] of the C library: the tail of [s] that starts at its last
    byte [c], if there is one (the terminating NUL counts as a byte of
    [s]). *)
Fixpoint strrchr (s : string) (c : ascii) : option string :=
  match s with
  | EmptyString => if Ascii.eqb c NUL then Some EmptyString else None
  | String a s' =>
      match strrchr s' c with
      | Some r => Some r
      | None => if Ascii.eqb a c then Some s else None
      end
  end.

(** What the system answers to the calls the program makes: the descriptor
    [open] returns (-1 when it fails), the [st_size] that [fstat] stores
    ([None] when it returns -1), the bytes [read] transfers when asked
    for a number of them ([None] when it returns -1; the value [read]
    returns is the number of those bytes), and the answers of [malloc] to
    the calls of the run, in their order. *)
Record system : Type := mkSystem {
  sys_open : string -> Z;
  sys_fstat : Z -> option N;
  sys_read : Z -> N -> option (list ascii);
  sys_malloc : heap
}.

Definition bad_suffix : string := "File must end in '.pl0'".
Definition cannot_open (file : string) : string :=
  ("Unable to open file '" ++ file ++ "'")%string.

(** [source_buf] and [anchor] set to a buffer that holds [bytes] and the
    terminating NUL. *)
Definition set_buffer (bytes : list ascii) : M unit :=
  fun s => Ret tt (mkState bytes 0 (line s) (stdout s)).

(** The buffer is the first block the program asks for. *)
Definition readfile (sys : system) (file : string) : M unit :=
  (match strrchr file "." with
   | None => die bad_suffix
   | Some dotp =>
       if negb (lnot (strcmp dotp ".pl0")) then die bad_suffix else ret tt
   end) ;;
  let fd := sys_open sys file in
  (if lnot fd then die (cannot_open file) else ret tt) ;;
  match sys_fstat sys fd with
  | None => die "Unable to get file size"
  | Some st_size =>
      (if negb (sys_malloc sys 0)
       then die "Unable to malloc buffer for file content" else ret tt) ;;
      match sys_read sys fd st_size with
      | Some bytes =>
          if (N.of_nat (List.length bytes) =? st_size)%N
          then set_buffer bytes
          else die "Unable to read file"
      | None => die "Unable to read file"
      end
  end.

(** The globals as the program starts: no buffer yet, [line] 1. *)
Definition start : state := mkState [] 0 1%N [].

(** How the program ends: with the usage message and status 1, or the way
    [readfile] and [parse] ended. *)
Inductive run : Type :=
| Usage
| Ran (o : outcome unit).

(** The answers of [malloc] that are left once [readfile] has its
    buffer. *)
Definition scanner_heap (sys : system) : heap := fun k => sys_malloc sys (S k).

Module Pl0c.
(** [argv] holds the [argc] arguments, the program's name first. *)
Definition main (sys : system) (argv : list string) : run :=
  if negb (List.length argv =? 2) then Usage
  else Ran ((readfile sys (nth 1 argv EmptyString) ;;
             Alloc.exec Alloc.parse (scanner_heap sys)) start).
End Pl0c.

Definition status (r : run) : option Z :=
  match r with
  | Usage => Some 1%Z
  | Ran o => exit_status o
  end.

Definition run_output (r : run) : list printed :=
  match r with
  | Usage => []
  | Ran o => output o
  end.

Definition ends_in_pl0 (file : string) : Prop :=
  exists base, file = (base ++ ".pl0")%string.

(** The test [readfile] makes on the name. *)
Definition suffix_ok (file : string) : bool :=
  match strrchr file "." with
  | None => false
  | Some dotp => lnot (strcmp dotp ".pl0")
  end.

(** ** Runs as tokenizations *)

(** [scanned m i toks k]: the bytes of [m] from offset [i] to offset [k]
    are, in this order, the lexemes of the tokens [toks], each after a
    stretch of white space and closed comments and each with the number of
    the line its first byte stands on. *)
Inductive scanned (m : list ascii) : nat -> list (N * token) -> nat -> Prop :=
| scanned_nil i : scanned m i [] i
| scanned_cons i start j ln t toks k :
    i <= start -> start <= j ->
    blank (span m i start) ->
    lexeme (nth j m NUL) (span m start j) t ->
    ln = (1 + N.of_nat (newlines (firstn start m)))%N ->
    scanned m j toks k ->
    scanned m i ((ln, t) :: toks) k.

(** [line] is 1 plus the number of newlines before the cursor. *)
Definition line_ok (s : state) : Prop :=
  line s = (1 + N.of_nat (newlines (firstn (source_buf s) (mem s))))%N.

(** ** Kinds and their printed names *)

Lemma stringify_inj a b : stringify a = stringify b -> a = b.
Proof. destruct a, b; simpl; intros H; try reflexivity; discriminate H. Qed.

(** ** Computations *)

Lemma wp_bind A B (m : M A) (f : A -> M B) s Q E :
  wp m s (fun a s' => wp (f a) s' Q E) E -> wp (bind m f) s Q E.
Proof. unfold wp, bind. destruct (m s); auto. Qed.

Lemma wp_mono A (m : M A) s (Q Q' : A -> state -> Prop)
    (E E' : state -> string -> Prop) :
  wp m s Q E ->
  (forall a s', Q a s' -> Q' a s') ->
  (forall s' msg, E s' msg -> E' s' msg) ->
  wp m s Q' E'.
Proof. unfold wp. destruct (m s); auto. Qed.

Lemma wp_and A (m : M A) s (Q Q' : A -> state -> Prop)
    (E E' : state -> string -> Prop) :
  wp m s Q E -> wp m s Q' E' ->
  wp m s (fun a s' => Q a s' /\ Q' a s') (fun s' msg => E s' msg /\ E' s' msg).
Proof. unfold wp. destruct (m s); auto. Qed.

Lemma wp_ret_eq A (m : M A) s a s' Q E :
  m s = Ret a s' -> wp m s Q E -> Q a s'.
Proof. unfold wp. intros ->. auto. Qed.

Lemma wp_exit_eq A (m : M A) s s' msg Q E :
  m s = Exit s' msg -> wp m s Q E -> E s' msg.
Proof. unfold wp. intros ->. auto. Qed.

(** *** The buffer *)

Lemma load_wf m i : i <= List.length m -> load m i = Some (nth i m NUL).
Proof.
  intros H. unfold load. destruct (nth_error m i) eqn:Hn.
  - f_equal. symmetry. now apply nth_error_nth.
  - apply nth_error_None in Hn.
    replace i with (List.length m) by lia.
    rewrite Nat.eqb_refl. f_equal. symmetry. apply nth_overflow. lia.
Qed.

Lemma deref_wf s : wf s -> deref s = Ret (cur s) s.
Proof. intros H. unfold deref. now rewrite load_wf. Qed.

Lemma cur_lt s : cur s <> NUL -> source_buf s < List.length (mem s).
Proof.
  unfold cur. intros H.
  destruct (Nat.lt_ge_cases (source_buf s) (List.length (mem s))); auto.
  now rewrite nth_overflow in H.
Qed.

Lemma firstn_add A (a b : nat) (l : list A) :
  firstn (a + b) l = firstn a l ++ firstn b (skipn a l).
Proof.
  revert l. induction a; intros [|x l]; simpl; auto.
  - now rewrite firstn_nil.
  - now rewrite IHa.
Qed.

Lemma span_split m i j k :
  i <= j -> j <= k -> span m i k = span m i j ++ span m j k.
Proof.
  intros Hij Hjk. unfold span.
  replace (k - i) with ((j - i) + (k - j)) by lia.
  rewrite firstn_add, skipn_skipn.
  now replace (j - i + i) with j by lia.
Qed.

Lemma span_nil m i : span m i i = [].
Proof. unfold span. now rewrite Nat.sub_diag. Qed.

Lemma span_one m i :
  i < List.length m -> span m i (S i) = [nth i m NUL].
Proof.
  intros H. unfold span. replace (S i - i) with 1 by lia.
  revert i H. induction m as [|x m IH]; intros [|i] H; simpl in *; try lia.
  - reflexivity.
  - apply IH. lia.
Qed.

Lemma span_one_end m i : List.length m <= i -> span m i (S i) = [].
Proof. intros H. unfold span. now rewrite skipn_all2, firstn_nil. Qed.

Lemma newlines_app l l' : newlines (l ++ l') = newlines l + newlines l'.
Proof. apply count_occ_app. Qed.

Lemma iter_incr_add a b x :
  Nat.iter (a + b) incr x = Nat.iter b incr (Nat.iter a incr x).
Proof. rewrite Nat.add_comm. apply Nat.iter_add. Qed.

Lemma adv_refl s : adv s s.
Proof. split; auto. now rewrite span_nil. Qed.

Lemma adv_trans s1 s2 s3 : adv s1 s2 -> adv s2 s3 -> adv s1 s3.
Proof.
  intros [Hm Ho Hl Hn] [Hm' Ho' Hl' Hn']. split; try congruence; try lia.
  rewrite (span_split _ _ (source_buf s2)) by assumption.
  rewrite newlines_app, iter_incr_add, <- Hn, <- Hm. exact Hn'.
Qed.

Lemma adv_eat s : adv s (eat s).
Proof.
  split; simpl; auto.
  destruct (Nat.lt_ge_cases (source_buf s) (List.length (mem s))) as [H|H].
  - rewrite span_one by assumption. fold (cur s). unfold newlines. simpl.
    destruct (Ascii.eqb_spec (cur s) LF) as [->|Hc].
    + now destruct (ascii_dec LF LF).
    + destruct (ascii_dec (cur s) LF); [contradiction | reflexivity].
  - rewrite span_one_end by assumption. simpl.
    unfold cur. rewrite nth_overflow by assumption. reflexivity.
Qed.

Lemma wf_eat s : cur s <> NUL -> wf (eat s).
Proof. intros H. apply cur_lt in H. unfold wf, eat. simpl. lia. Qed.

(** *** The loops *)

Lemma advance_eat (c : ascii) s :
  c = cur s -> c <> LF -> advance s = Ret tt (eat s).
Proof.
  intros -> H. unfold advance, eat.
  destruct (Ascii.eqb_spec (cur s) LF); [contradiction | reflexivity].
Qed.

Lemma advance_line_eat A (c : ascii) (k : M A) s :
  c = cur s ->
  (advance ;; when (Ascii.eqb c LF) incr_line ;; k) s = k (eat s).
Proof.
  intros ->. unfold bind, advance, eat, when.
  destruct (Ascii.eqb (cur s) LF); reflexivity.
Qed.

Lemma isspace_not_NUL c : isspace c = true -> c <> NUL.
Proof. intros H ->. discriminate. Qed.

Lemma space_loop_spec n s :
  wf s -> List.length (mem s) - source_buf s < n ->
  wp (space_loop n) s
     (fun _ s' => adv s s' /\ wf s' /\ isspace (cur s') = false
                  /\ Forall (fun c => isspace c = true)
                            (span (mem s) (source_buf s) (source_buf s')))
     (fun _ _ => False).
Proof.
  revert s. induction n as [|n IH]; intros s Hwf Hn; [lia|].
  unfold wp. simpl. unfold bind at 1. rewrite deref_wf by assumption.
  destruct (isspace (cur s)) eqn:Hsp.
  - rewrite advance_line_eat by reflexivity.
    pose proof (isspace_not_NUL _ Hsp) as Hnz.
    pose proof (cur_lt _ Hnz) as Hlt.
    assert (Hwf' : wf (eat s)) by now apply wf_eat.
    specialize (IH (eat s) Hwf'). unfold wp in IH.
    destruct (space_loop n (eat s)); try (apply IH; simpl; lia).
    destruct IH as (Ha & Hw & Hc & Hall); [simpl; lia|].
    split; [|split; [|split]]; auto.
    + eapply adv_trans; [apply adv_eat | exact Ha].
    + pose proof (adv_le _ _ Ha) as Hle. simpl in Hle.
      rewrite (span_split _ _ (S (source_buf s))) by lia.
      apply Forall_app. split; [|exact Hall].
      rewrite span_one by assumption. now constructor.
  - simpl. split; [|split; [|split]]; auto using adv_refl.
    rewrite span_nil. constructor.
Qed.

Section Runs.
(** Runs of a character class: the loops of [ident] and [number]. *)
Variable p : ascii -> bool.
Variable loop : nat -> M unit.
Hypothesis p_NUL : p NUL = false.
Hypothesis p_LF : p LF = false.
Hypothesis loop_0 : loop 0 = timeout.
Hypothesis loop_S :
  forall n, loop (S n) =
            (c <- deref ;; if p c then advance ;; loop n else ret tt).

Lemma run_loop_spec n s :
  wf s -> List.length (mem s) - source_buf s < n ->
  wp (loop n) s
     (fun _ s' => adv s s' /\ wf s' /\ p (cur s') = false
                  /\ line s' = line s
                  /\ Forall (fun c => p c = true)
                            (span (mem s) (source_buf s) (source_buf s')))
     (fun _ _ => False).
Proof.
  revert s. induction n as [|n IH]; intros s Hwf Hn; [lia|].
  unfold wp. rewrite loop_S. unfold bind at 1.
  rewrite deref_wf by assumption.
  destruct (p (cur s)) eqn:Hp.
  - assert (Hnz : cur s <> NUL) by (intros E; rewrite E in Hp; congruence).
    assert (Hnl : cur s <> LF) by (intros E; rewrite E in Hp; congruence).
    pose proof (cur_lt _ Hnz) as Hlt.
    unfold bind. rewrite (advance_eat (cur s)) by auto.
    assert (Hwf' : wf (eat s)) by now apply wf_eat.
    specialize (IH (eat s) Hwf'). unfold wp in IH.
    destruct (loop n (eat s)); try (apply IH; simpl; lia).
    destruct IH as (Ha & Hw & Hc & Hl & Hall); [simpl; lia|].
    split; [|split; [|split; [|split]]]; auto.
    + eapply adv_trans; [apply adv_eat | exact Ha].
    + rewrite Hl. simpl.
      destruct (Ascii.eqb_spec (cur s) LF); [contradiction | reflexivity].
    + pose proof (adv_le _ _ Ha) as Hle. simpl in Hle.
      rewrite (span_split _ _ (S (source_buf s))) by lia.
      apply Forall_app. split; [|exact Hall].
      rewrite span_one by assumption. now constructor.
  - simpl. split; [|split; [|split; [|split]]]; auto using adv_refl.
    rewrite span_nil. constructor.
Qed.
End Runs.

Lemma ident_loop_spec n s :
  wf s -> List.length (mem s) - source_buf s < n ->
  wp (ident_loop n) s
     (fun _ s' => adv s s' /\ wf s' /\ identchar (cur s') = false
                  /\ line s' = line s
                  /\ Forall (fun c => identchar c = true)
                            (span (mem s) (source_buf s) (source_buf s')))
     (fun _ _ => False).
Proof. apply run_loop_spec; reflexivity. Qed.

Lemma number_loop_spec n s :
  wf s -> List.length (mem s) - source_buf s < n ->
  wp (number_loop n) s
     (fun _ s' => adv s s' /\ wf s' /\ isdigit (cur s') = false
                  /\ line s' = line s
                  /\ Forall (fun c => isdigit c = true)
                            (span (mem s) (source_buf s) (source_buf s')))
     (fun _ _ => False).
Proof. apply run_loop_spec; reflexivity. Qed.

Lemma comment_loop_spec n s :
  wf s -> List.length (mem s) - source_buf s < n ->
  wp (comment_loop n) s (fun _ => comment_ok s) (comment_died s).
Proof.
  revert s. induction n as [|n IH]; intros s Hwf Hn; [lia|].
  unfold wp, comment_ok, comment_died.
  simpl. unfold bind at 1. rewrite deref_wf by assumption.
  destruct (Ascii.eqb_spec (cur s) "}") as [Hc|Hc].
  - assert (Hnl : cur s <> LF) by (rewrite Hc; discriminate).
    assert (Hnz : cur s <> NUL) by (rewrite Hc; discriminate).
    unfold bind. rewrite (advance_eat (cur s)) by auto. simpl.
    rewrite span_nil.
    split; [apply adv_eat | split; [now apply wf_eat | auto]].
  - destruct (Ascii.eqb_spec (cur s) NUL) as [Hz|Hz].
    + assert (Hnl : cur s <> LF) by (rewrite Hz; discriminate).
      unfold bind. rewrite (advance_eat (cur s)) by auto. simpl.
      rewrite span_nil. unfold wf in Hwf.
      split; [apply adv_eat | split; [lia | auto]].
    + assert (Hwf' : wf (eat s)) by now apply wf_eat.
      pose proof (cur_lt _ Hz) as Hlt.
      replace ((advance ;; ret tt ;; when (Ascii.eqb (cur s) LF) incr_line ;;
                comment_loop n) s) with (comment_loop n (eat s))
        by (unfold bind, advance, ret, when, eat;
            destruct (Ascii.eqb (cur s) LF); reflexivity).
      assert (Hshape : forall j, S (source_buf s) < j ->
                Forall in_comment (span (mem s) (S (source_buf s)) (pred j)) ->
                Forall in_comment (span (mem s) (source_buf s) (pred j))).
      { intros j Hj Hall.
        rewrite (span_split _ _ (S (source_buf s))) by lia.
        apply Forall_app. split; [|exact Hall].
        rewrite span_one by assumption. constructor; [now split | constructor]. }
      specialize (IH (eat s) Hwf'). unfold wp, comment_ok, comment_died in IH.
      destruct (comment_loop n (eat s)); try (apply IH; simpl; lia).
      * destruct IH as (Ha & Hw & Hl & Hall & Hlast); [simpl; lia|].
        simpl in Hl, Hall, Hlast.
        split; [eapply adv_trans; [apply adv_eat | exact Ha]|].
        split; [assumption|]. split; [lia|]. auto.
      * destruct IH as (Ha & Hl & Hlt' & Hall & Hlast & Hm); [simpl; lia|].
        simpl in Hl, Hlt', Hall, Hlast.
        split; [eapply adv_trans; [apply adv_eat | exact Ha]|].
        split; [assumption|]. split; [lia|]. auto.
Qed.

Lemma fuel_enough s : List.length (mem s) - source_buf s < fuel s.
Proof. unfold fuel. lia. Qed.

Lemma skip_space_spec s :
  wf s ->
  wp skip_space s
     (fun _ s' => adv s s' /\ wf s' /\ isspace (cur s') = false
                  /\ Forall (fun c => isspace c = true)
                            (span (mem s) (source_buf s) (source_buf s')))
     (fun _ _ => False).
Proof. intros H. apply space_loop_spec; auto using fuel_enough. Qed.

Lemma comment_spec s :
  wf s -> wp comment s (fun _ => comment_ok s) (comment_died s).
Proof. intros H. apply comment_loop_spec; auto using fuel_enough. Qed.

(** *** Token text *)

Lemma cstr_text l : Forall (fun c => c <> NUL) l -> cstr l = text l.
Proof.
  induction 1 as [|c l Hc _ IH]; simpl; auto.
  destruct (Ascii.eqb_spec c NUL); [contradiction | now rewrite IH].
Qed.

Lemma Forall_not_NUL (p : ascii -> bool) l :
  p NUL = false -> Forall (fun c => p c = true) l ->
  Forall (fun c => c <> NUL) l.
Proof.
  intros Hp H. eapply Forall_impl; [|exact H].
  intros c Hc ->. congruence.
Qed.

Lemma cur_same s s' :
  mem s' = mem s -> source_buf s' = source_buf s -> cur s' = cur s.
Proof. unfold cur. intros -> ->. reflexivity. Qed.

Lemma cur_adv s s' : mem s' = mem s -> cur s' = nth (source_buf s') (mem s) NUL.
Proof. unfold cur. now intros ->. Qed.

Lemma get_token_wf startp s :
  wf s -> startp <= source_buf s ->
  get_token startp (source_buf s) s =
  Ret (cstr (span (mem s) startp (source_buf s))) s.
Proof.
  intros H Hle. unfold get_token, wf in *.
  destruct (Nat.leb_spec (source_buf s) (S (List.length (mem s)))); [|lia].
  destruct (Nat.leb_spec startp (source_buf s)); [reflexivity | lia].
Qed.

Lemma ident_spec s :
  wf s -> identchar (cur s) = true ->
  wp ident s
     (fun t s' =>
        adv s s' /\ wf s' /\ line s' = line s
        /\ source_buf s < source_buf s'
        /\ Forall (fun c => identchar c = true)
                  (span (mem s) (source_buf s) (source_buf s'))
        /\ identchar (cur s') = false
        /\ value t = text (span (mem s) (source_buf s) (source_buf s'))
        /\ type t = ident_type (value t))
     (fun _ _ => False).
Proof.
  intros Hwf Hc.
  pose proof (ident_loop_spec (fuel s) s Hwf (fuel_enough s)) as H.
  unfold wp in *. unfold ident, bind, get_source_buf.
  destruct (ident_loop (fuel s) s) as [[] s'| | |]; try contradiction.
  destruct H as (Ha & Hw & Hn & Hl & Hall).
  rewrite get_token_wf by (auto using adv_le). simpl.
  rewrite (adv_mem _ _ Ha).
  rewrite (cstr_text _ (Forall_not_NUL identchar _ eq_refl Hall)).
  repeat (split; [assumption|]).
  split; [|auto].
  pose proof (adv_le _ _ Ha).
  destruct (Nat.eq_dec (source_buf s) (source_buf s')) as [E|E]; [|lia].
  rewrite (cur_same s s') in Hn by (auto using adv_mem). congruence.
Qed.

Lemma digits_val_text l acc :
  Forall (fun c => isdigit c = true) l ->
  digits_val acc (text l) =
  fold_left (fun a c => (10 * a + digit_val c)%Z) l acc.
Proof.
  intros H. revert acc. induction H as [|c l Hc _ IH]; intros acc; simpl; auto.
  now rewrite Hc, IH.
Qed.

Lemma digit_val_nonneg c : isdigit c = true -> (0 <= digit_val c)%Z.
Proof.
  unfold isdigit, between, digit_val. intros H.
  apply andb_true_iff in H. destruct H as [H _].
  apply Nat.leb_le in H. lia.
Qed.

Lemma decimal_nonneg_from l acc :
  Forall (fun c => isdigit c = true) l -> (0 <= acc)%Z ->
  (0 <= fold_left (fun a c => (10 * a + digit_val c)%Z) l acc)%Z.
Proof.
  intros H. revert acc.
  induction H as [|c l Hc _ IH]; intros acc Ha; cbn [fold_left]; auto.
  apply IH. pose proof (digit_val_nonneg c Hc). lia.
Qed.

Lemma isdigit_class c :
  isdigit c = true ->
  isspace c = false /\ Ascii.eqb c "-" = false /\ Ascii.eqb c "+" = false.
Proof.
  destruct c as [[] [] [] [] [] [] [] []]; try discriminate; auto.
Qed.

Lemma strtol_digits l :
  l <> [] -> Forall (fun c => isdigit c = true) l ->
  strtol (text l) =
  if (LONG_MAX <? decimal l)%Z then (LONG_MAX, ERANGE) else (decimal l, 0%Z).
Proof.
  intros Hne H. destruct l as [|c l]; [congruence|].
  pose proof (Forall_inv H) as Hc.
  destruct (isdigit_class c Hc) as (Hs & Hm & Hp).
  pose proof (decimal_nonneg_from _ 0%Z H (Z.le_refl 0)) as Hpos.
  unfold strtol. cbn [text string_of_list_ascii skip_white].
  rewrite Hs, Hm, Hp.
  change (String c (string_of_list_ascii l)) with (text (c :: l)).
  rewrite digits_val_text by assumption. fold (decimal (c :: l)).
  fold (decimal (c :: l)) in Hpos.
  destruct (LONG_MAX <? decimal (c :: l))%Z; auto.
  destruct (Z.ltb_spec (decimal (c :: l)) LONG_MIN); auto.
  unfold LONG_MIN in *. lia.
Qed.

Lemma number_spec s :
  wf s -> isdigit (cur s) = true ->
  wp number s
     (fun t s' =>
        (adv s s' /\ wf s' /\ line s' = line s
         /\ source_buf s < source_buf s'
         /\ Forall (fun c => isdigit c = true)
                   (span (mem s) (source_buf s) (source_buf s'))
         /\ isdigit (cur s') = false)
        /\ t = make_token
                 (text (span (mem s) (source_buf s) (source_buf s'))) NUMBER
        /\ (decimal (span (mem s) (source_buf s) (source_buf s'))
            <= LONG_MAX)%Z)
     (fun s' msg =>
        (adv s s' /\ wf s' /\ line s' = line s
         /\ source_buf s < source_buf s'
         /\ Forall (fun c => isdigit c = true)
                   (span (mem s) (source_buf s) (source_buf s'))
         /\ isdigit (cur s') = false)
        /\ msg = "Invalid number"%string
        /\ (LONG_MAX
            < decimal (span (mem s) (source_buf s) (source_buf s')))%Z).
Proof.
  intros Hwf Hc.
  pose proof (number_loop_spec (fuel s) s Hwf (fuel_enough s)) as H.
  unfold wp in *. unfold number, bind, get_source_buf.
  destruct (number_loop (fuel s) s) as [[] s'| | |]; try contradiction.
  destruct H as (Ha & Hw & Hn & Hl & Hall).
  rewrite get_token_wf by (auto using adv_le).
  rewrite (adv_mem _ _ Ha).
  rewrite (cstr_text _ (Forall_not_NUL isdigit _ eq_refl Hall)).
  assert (Hlt : source_buf s < source_buf s').
  { pose proof (adv_le _ _ Ha).
    destruct (Nat.eq_dec (source_buf s) (source_buf s')) as [E|E]; [|lia].
    rewrite (cur_same s s') in Hn by (auto using adv_mem). congruence. }
  assert (Hne : span (mem s) (source_buf s) (source_buf s') <> []).
  { rewrite (span_split _ _ (S (source_buf s))) by lia.
    rewrite span_one by (unfold wf in Hw; rewrite (adv_mem _ _ Ha) in Hw; lia).
    discriminate. }
  rewrite strtol_digits by assumption.
  destruct (Z.ltb_spec LONG_MAX
              (decimal (span (mem s) (source_buf s) (source_buf s'))));
    simpl; auto 10.
Qed.

(** *** One call of [lex] *)

Ltac one_char s :=
  match goal with
  | H : cur s = _ |- _ =>
      let Hl := fresh "Hl" in
      let Hz := fresh "Hz" in
      assert (Hl : cur s <> LF) by (rewrite H; discriminate);
      assert (Hz : cur s <> NUL) by (rewrite H; discriminate);
      unfold wp, bind; rewrite (advance_eat (cur s)) by auto;
      simpl; split; [apply adv_eat | split; [now apply wf_eat | lia]]
  end.

Lemma lex_switch_spec s :
  wf s -> wp (lex_switch (cur s)) s (switch_ok s) (lex_died s).
Proof.
  intros Hwf. unfold lex_switch, switch_ok.
  repeat match goal with
         | |- wp (if Ascii.eqb (cur s) ?c then _ else _) _ _ _ =>
             destruct (Ascii.eqb_spec (cur s) c) as [Hc|?]; [try one_char s|]
         end.
  - (* ':' *)
    assert (Hl : cur s <> LF) by (rewrite Hc; discriminate).
    assert (Hz : cur s <> NUL) by (rewrite Hc; discriminate).
    pose proof (wf_eat _ Hz) as Hw1.
    unfold wp, bind at 1. rewrite (advance_eat (cur s)) by auto.
    unfold bind at 1. rewrite deref_wf by assumption.
    destruct (Ascii.eqb_spec (cur (eat s)) "=") as [He|He].
    + assert (Hl' : cur (eat s) <> LF) by (rewrite He; discriminate).
      assert (Hz' : cur (eat s) <> NUL) by (rewrite He; discriminate).
      unfold bind. cbn [negb ret].
      rewrite (advance_eat (cur (eat s))) by auto.
      split; [eapply adv_trans; apply adv_eat|].
      split; [now apply wf_eat | simpl; lia].
    + unfold bind. cbn [negb die].
      split; [apply adv_eat | unfold wf in Hwf; simpl; lia].
  - (* '{' *)
    apply wp_bind. eapply wp_mono; [now apply comment_spec | |].
    + intros [] s' (Ha & Hw & Hl & _). unfold wp, ret. auto.
    + intros s' msg (Ha & Hl & _). split; assumption.
  - (* NUL *)
    unfold wp, ret. split; [apply adv_refl | split; [assumption|]].
    congruence.
  - unfold wp, die, lex_died. split; [apply adv_refl | unfold wf in Hwf; lia].
Qed.

Lemma isalpha_identchar c :
  isalpha c || Ascii.eqb c "_" = true -> identchar c = true.
Proof.
  unfold identchar, isalnum. intros H.
  apply orb_true_iff in H. destruct H as [-> | ->]; auto using orb_true_r.
Qed.

Lemma lex_died_trans s s1 s2 msg :
  adv s s1 -> lex_died s1 s2 msg -> lex_died s s2 msg.
Proof.
  intros Ha (Ha' & Hl). split; [eapply adv_trans; eassumption|].
  now rewrite <- (adv_mem _ _ Ha).
Qed.

Lemma lex_ok_trans s s1 s2 t :
  adv s s1 -> lex_ok s1 t s2 -> lex_ok s t s2.
Proof.
  intros Ha (Ha' & Hw & Hl). split; [eapply adv_trans; eassumption|].
  split; [assumption|]. intros H. specialize (Hl H).
  pose proof (adv_le _ _ Ha). lia.
Qed.

Lemma lex_body_spec (again : M token) s :
  wf s ->
  (forall s1, wf s1 -> adv s s1 -> source_buf s < source_buf s1 ->
              wp again s1 (lex_ok s1) (lex_died s1)) ->
  wp (lex_body again) s (lex_ok s) (lex_died s).
Proof.
  intros Hwf Hagain. unfold lex_body.
  apply wp_bind. eapply wp_mono; [now apply skip_space_spec | | intros ? ? []].
  intros [] s1 (Ha1 & Hw1 & _). cbv beta.
  apply wp_bind. unfold wp at 1. rewrite deref_wf by assumption.
  destruct (isalpha (cur s1) || Ascii.eqb (cur s1) "_") eqn:Hal.
  { eapply wp_mono; [apply ident_spec; auto using isalpha_identchar | | intros ? ? []].
    intros t s2 (Ha & Hw & _ & Hlt & _).
    eapply lex_ok_trans; [eassumption|]. repeat split; auto; apply Ha. }
  destruct (isdigit (cur s1)) eqn:Hd.
  { eapply wp_mono; [now apply number_spec | |].
    - intros t s2 ((Ha & Hw & _ & Hlt & _) & _).
      eapply lex_ok_trans; [eassumption|]. repeat split; auto; apply Ha.
    - intros s2 msg ((Ha & Hw & _) & _).
      eapply lex_died_trans; [eassumption|].
      split; [assumption|]. unfold wf in Hw.
      rewrite (adv_mem _ _ Ha) in Hw. lia. }
  apply wp_bind. eapply wp_mono; [now apply lex_switch_spec | |].
  - intros e s2 (Ha & Hw & He). destruct e as [ty | t |].
    + apply wp_bind. unfold wp at 1. rewrite deref_wf by assumption.
      unfold wp, ret. eapply lex_ok_trans; [eassumption|].
      split; [assumption | split; [assumption | exact He]].
    + unfold wp, ret. eapply lex_ok_trans; [eassumption|].
      split; [assumption | split; [assumption | intros _; exact He]].
    + pose proof (adv_le _ _ Ha1).
      eapply wp_mono;
        [apply Hagain; [assumption | eapply adv_trans; eassumption | lia] | |].
      * intros t s3 H3. eapply lex_ok_trans; [|exact H3].
        eapply adv_trans; eassumption.
      * intros s3 msg H3. eapply lex_died_trans; [|exact H3].
        eapply adv_trans; eassumption.
  - intros s2 msg H2. eapply lex_died_trans; eassumption.
Qed.

Lemma lex_loop_spec n s :
  wf s -> List.length (mem s) - source_buf s < n ->
  wp (lex_loop n) s (lex_ok s) (lex_died s).
Proof.
  revert s. induction n as [|n IH]; intros s Hwf Hn; [lia|].
  cbn [lex_loop]. apply lex_body_spec; [assumption|].
  intros s1 Hw1 Ha Hlt. apply IH; [assumption|].
  unfold wf in Hw1. rewrite (adv_mem _ _ Ha) in *. lia.
Qed.

Lemma lex_spec s : wf s -> wp lex s (lex_ok s) (lex_died s).
Proof. intros H. apply lex_loop_spec; auto using fuel_enough. Qed.

(** *** The driver loop *)

Lemma adv_progress s s' : adv s s' -> progress s s'.
Proof. intros [Hm _ Hl Hn]. now split. Qed.

Lemma progress_refl s : progress s s.
Proof. apply adv_progress, adv_refl. Qed.

Lemma progress_trans s1 s2 s3 :
  progress s1 s2 -> progress s2 s3 -> progress s1 s3.
Proof.
  intros [Hm Hl Hn] [Hm' Hl' Hn']. split; try congruence; try lia.
  rewrite (span_split _ _ (source_buf s2)) by assumption.
  rewrite newlines_app, iter_incr_add, <- Hn, <- Hm. exact Hn'.
Qed.

Lemma progress_put s s' p : progress s s' -> progress s (put s' p).
Proof. intros [Hm Hl Hn]. now split. Qed.

Lemma is_DOT_true t : is_DOT t = true <-> t = DOT.
Proof. unfold is_DOT. destruct (token_type_eq_dec t DOT); intuition congruence. Qed.

Lemma is_DOT_false t : is_DOT t = false <-> t <> DOT.
Proof. unfold is_DOT. destruct (token_type_eq_dec t DOT); intuition congruence. Qed.

Lemma parse_loop_spec n t s :
  wf s -> List.length (mem s) - source_buf s + 2 <= n ->
  wp (parse_loop n t) s (fun _ => parse_done t s) (parse_died t s).
Proof.
  revert t s. induction n as [|n IH]; intros t s Hwf Hn; [lia|].
  unfold wp, parse_done, parse_died. cbn [parse_loop].
  destruct (is_DOT (type t)) eqn:Ht; [reflexivity|].
  pose proof (lex_spec s Hwf) as Hlex. unfold wp in Hlex.
  unfold bind at 1. destruct (lex s) as [t1 s1|s1 msg| |] eqn:El;
    try contradiction.
  - unfold bind, get_line, print. fold (put s1 (PToken (line s1) t1)).
    destruct Hlex as (Ha & Hw & Hlt).
    assert (Hw' : wf (put s1 (PToken (line s1) t1))) by exact Hw.
    assert (Hn' : List.length (mem (put s1 (PToken (line s1) t1)))
                  - source_buf (put s1 (PToken (line s1) t1)) + 2 <= n
                  \/ type t1 = DOT).
    { destruct (token_type_eq_dec (type t1) DOT) as [|Hd]; auto. left.
      specialize (Hlt Hd). unfold wf in Hw. simpl.
      rewrite (adv_mem _ _ Ha) in *. lia. }
    destruct (is_DOT (type t1)) eqn:Ht1.
    + destruct n as [|n]; [lia|]. cbn [parse_loop]. rewrite Ht1. simpl.
      apply is_DOT_true in Ht1.
      exists [], s, t1, s1. repeat split; auto. constructor.
    + apply is_DOT_false in Ht1. destruct Hn' as [Hn'|]; [|contradiction].
      specialize (IH t1 _ Hw' Hn'). unfold wp, parse_done, parse_died in IH.
      destruct (parse_loop n t1 (put s1 (PToken (line s1) t1)));
        try contradiction.
      * apply is_DOT_false in Ht1. rewrite Ht1 in IH.
        destruct IH as (toks & s2 & tl & s3 & Hd & Hl & Htl & ->).
        apply is_DOT_false in Ht1.
        exists ((line s1, t1) :: toks), s2, tl, s3.
        repeat split; auto. econstructor; eassumption.
      * destruct IH as (_ & toks & s2 & Hd & Hl). split; [reflexivity|].
        exists ((line s1, t1) :: toks), s2. split; [|assumption].
        econstructor; eassumption.
  - split; [reflexivity|]. exists [], s. split; [constructor | assumption].
Qed.

Lemma parse_spec s :
  wf s -> source_buf s = 0 ->
  wp parse s (fun _ => parse_done (make_token "" IDENT) s)
     (parse_died (make_token "" IDENT) s).
Proof.
  intros Hwf H0. apply parse_loop_spec; [assumption|]. unfold fuel. lia.
Qed.

Lemma drive_inv s toks s' :
  drive s toks s' -> wf s ->
  wf s' /\ progress s s'
  /\ stdout s' = stdout s ++ print_all toks
  /\ Forall (fun x => type (snd x) <> DOT) toks.
Proof.
  induction 1 as [s | s t s1 toks s' Hl Ht Hd IH]; intros Hwf.
  - split; [assumption|]. split; [apply progress_refl|].
    split; [simpl; now rewrite app_nil_r | constructor].
  - pose proof (wp_ret_eq _ _ _ _ _ _ _ Hl (lex_spec s Hwf)) as (Ha & Hw & _).
    destruct (IH Hw) as (Hw' & Hp & Ho & Hall).
    split; [assumption|]. split; [|split].
    + eapply progress_trans; [|exact Hp].
      apply progress_put, adv_progress, Ha.
    + rewrite Ho. simpl. rewrite (adv_stdout _ _ Ha), <- app_assoc.
      reflexivity.
    + constructor; assumption.
Qed.

(** *** What a call consumes *)

Lemma hd_skipn (m : list ascii) j : hd NUL (skipn j m) = nth j m NUL.
Proof. revert m. induction j; intros [|x m]; simpl; auto. Qed.

Lemma skipn_span m i j : i <= j -> skipn i m = span m i j ++ skipn j m.
Proof.
  intros H. unfold span.
  rewrite <- (firstn_skipn (j - i) (skipn i m)) at 1.
  rewrite skipn_skipn. now replace (j - i + i) with j by lia.
Qed.

Lemma span_length m i j : j <= List.length m -> List.length (span m i j) = j - i.
Proof. intros H. unfold span. rewrite length_firstn, length_skipn. lia. Qed.

Lemma take_while_app p l1 l2 :
  Forall (fun c => p c = true) l1 -> l2 = [] \/ p (hd NUL l2) = false ->
  take_while p (l1 ++ l2) = l1.
Proof.
  induction 1 as [|c l1 Hc _ IH]; intros H2; simpl.
  - destruct l2 as [|c l2]; auto. simpl in H2.
    destruct H2 as [H2 | H2]; [discriminate | simpl; now rewrite H2].
  - now rewrite Hc, IH.
Qed.

Lemma span_take_while p m i j :
  i <= j -> j <= List.length m ->
  Forall (fun c => p c = true) (span m i j) -> p (nth j m NUL) = false ->
  span m i j = take_while p (skipn i m)
  /\ j = i + List.length (take_while p (skipn i m)).
Proof.
  intros Hij Hj Hall Hstop.
  assert (E : take_while p (skipn i m) = span m i j).
  { rewrite (skipn_span m i j Hij). apply take_while_app; auto.
    right. now rewrite hd_skipn. }
  rewrite E, span_length by assumption. split; [reflexivity | lia].
Qed.

Lemma state_eq s m p l o :
  mem s = m -> source_buf s = p -> line s = l -> stdout s = o ->
  s = mkState m p l o.
Proof. destruct s; simpl; congruence. Qed.

Lemma skip_space_none s :
  wf s -> isspace (cur s) = false -> skip_space s = Ret tt s.
Proof.
  intros Hwf H. unfold skip_space, fuel. cbn [plus space_loop].
  unfold bind. rewrite deref_wf by assumption. now rewrite H.
Qed.

Lemma lex_unfold s : lex s = lex_body (lex_loop (S (List.length (mem s)))) s.
Proof. reflexivity. Qed.

(** With nothing to skip, [lex] is the dispatch on the byte under the
    cursor. *)
Lemma lex_dispatch s :
  wf s -> isspace (cur s) = false ->
  lex s =
  (if isalpha (cur s) || Ascii.eqb (cur s) "_" then ident
   else if isdigit (cur s) then number
   else
     e <- lex_switch (cur s) ;;
     match e with
     | Break type => v <- deref ;; ret (make_token (cstr [v]) type)
     | Return t => ret t
     | Goto_start => lex_loop (S (List.length (mem s)))
     end) s.
Proof.
  intros Hwf Hsp. rewrite lex_unfold. unfold lex_body.
  unfold bind at 1. rewrite skip_space_none by assumption.
  unfold bind at 1. rewrite deref_wf by assumption. reflexivity.
Qed.

Lemma identchar_not_space c : identchar c = true -> isspace c = false.
Proof. destruct c as [[] [] [] [] [] [] [] []]; try discriminate; auto. Qed.

Lemma lex_ident s :
  wf s -> isalpha (cur s) || Ascii.eqb (cur s) "_" = true ->
  lex s = Ret (make_token (text (ident_run s))
                          (ident_type (text (ident_run s))))
              (moved s (List.length (ident_run s))).
Proof.
  intros Hwf Hc. pose proof (isalpha_identchar _ Hc) as Hi.
  rewrite lex_dispatch by auto using identchar_not_space. rewrite Hc.
  pose proof (ident_spec s Hwf Hi) as H. unfold wp in H.
  destruct (ident s) as [t s'| | |]; try contradiction.
  destruct H as (Ha & Hw & Hl & Hlt & Hall & Hstop & Hv & Ht).
  unfold wf in Hw. rewrite (adv_mem _ _ Ha) in Hw.
  unfold cur in Hstop. rewrite (adv_mem _ _ Ha) in Hstop.
  destruct (span_take_while identchar (mem s) (source_buf s) (source_buf s'))
    as (Hrun & Hpos); auto; try lia.
  fold (rest s) in Hrun, Hpos. fold (ident_run s) in Hrun, Hpos.
  rewrite Hrun in Hv. f_equal.
  - destruct t as [v ty]; simpl in *. now subst.
  - apply state_eq; auto using adv_mem, adv_stdout; lia.
Qed.

Lemma lex_number s :
  wf s -> isdigit (cur s) = true ->
  lex s =
  if (decimal (digit_run s) <=? LONG_MAX)%Z
  then Ret (make_token (text (digit_run s)) NUMBER)
           (moved s (List.length (digit_run s)))
  else Exit (moved s (List.length (digit_run s))) "Invalid number".
Proof.
  intros Hwf Hc. destruct (isdigit_class _ Hc) as (Hsp & _).
  assert (Hal : isalpha (cur s) || Ascii.eqb (cur s) "_" = false).
  { revert Hc. generalize (cur s).
    intros [[] [] [] [] [] [] [] []]; try discriminate; auto. }
  rewrite lex_dispatch by auto. rewrite Hal, Hc.
  pose proof (number_spec s Hwf Hc) as H. unfold wp in H.
  destruct (number s) as [t s'|s' msg| |]; try contradiction.
  - destruct H as ((Ha & Hw & Hl & Hlt & Hall & Hstop) & Ht & Hv).
    unfold wf in Hw. rewrite (adv_mem _ _ Ha) in Hw.
    unfold cur in Hstop. rewrite (adv_mem _ _ Ha) in Hstop.
    destruct (span_take_while isdigit (mem s) (source_buf s) (source_buf s'))
      as (Hrun & Hpos); auto; try lia.
    fold (rest s) in Hrun, Hpos. fold (digit_run s) in Hrun, Hpos.
    rewrite Hrun in *.
    destruct (Z.leb_spec (decimal (digit_run s)) LONG_MAX); [|lia].
    subst t. f_equal. apply state_eq; auto using adv_mem, adv_stdout; lia.
  - destruct H as ((Ha & Hw & Hl & Hlt & Hall & Hstop) & Hm & Hv).
    unfold wf in Hw. rewrite (adv_mem _ _ Ha) in Hw.
    unfold cur in Hstop. rewrite (adv_mem _ _ Ha) in Hstop.
    destruct (span_take_while isdigit (mem s) (source_buf s) (source_buf s'))
      as (Hrun & Hpos); auto; try lia.
    fold (rest s) in Hrun, Hpos. fold (digit_run s) in Hrun, Hpos.
    rewrite Hrun in *.
    destruct (Z.leb_spec (decimal (digit_run s)) LONG_MAX); [lia|].
    subst msg. f_equal. apply state_eq; auto using adv_mem, adv_stdout; lia.
Qed.

(** ** The claims on single calls *)

Lemma cur_moved_1 s : cur (moved s 1) = next s.
Proof. reflexivity. Qed.

Lemma eat_moved s : cur s <> LF -> eat s = moved s 1.
Proof.
  intros H. unfold eat, moved.
  destruct (Ascii.eqb_spec (cur s) LF); [contradiction | reflexivity].
Qed.

(** C5: on [:] the scanner returns the token [:=] of kind ASSIGN when the
    next byte is [=], two bytes further on; on any other next byte it dies
    with the "Unkown token" diagnostic at the current line and returns no
    token.  The text [:x] dies at line 1 with nothing printed. *)
Theorem colon_must_be_assign :
  (forall s, wf s -> cur s = ":"%char ->
     (next s = "="%char ->
      lex s = Ret (make_token ":=" ASSIGN) (moved s 2))
     /\ (next s <> "="%char ->
         lex s = Exit (moved s 1) (unknown_token true (next s))))
  /\ main (source ":x") =
     Exit (mkState (source ":x") 1 1 []) "Unkown token: 'x'".
Proof.
  split; [|reflexivity].
  intros s Hwf Hc.
  assert (Hsp : isspace (cur s) = false) by now rewrite Hc.
  assert (Hnl : cur s <> LF) by (rewrite Hc; discriminate).
  assert (Hnz : cur s <> NUL) by (rewrite Hc; discriminate).
  pose proof (wf_eat _ Hnz) as Hw1. rewrite eat_moved in Hw1 by assumption.
  assert (E : lex s =
              if Ascii.eqb (next s) "="
              then Ret (make_token ":=" ASSIGN) (moved s 2)
              else Exit (moved s 1) (unknown_token true (next s))).
  2: { rewrite E.
       split; intros Hn;
         destruct (Ascii.eqb_spec (next s) "="); congruence. }
  rewrite lex_dispatch by assumption. rewrite Hc.
  change (isalpha ":" || Ascii.eqb ":" "_") with false.
  change (isdigit ":") with false. cbv iota.
  change (lex_switch ":") with
    (advance ;;
     c' <- deref ;;
     (if negb (Ascii.eqb c' "=") then die (unknown_token true c')
      else ret tt) ;;
     advance ;;
     ret (Return (make_token ":=" ASSIGN))).
  unfold bind at 1. unfold bind at 1.
  rewrite (advance_eat (cur s)), eat_moved by auto.
  unfold bind at 1. rewrite deref_wf, cur_moved_1 by assumption.
  destruct (Ascii.eqb (next s) "="); reflexivity.
Qed.

Lemma colon_must_be_assign_witness :
  let s := init (source "a:=1") in
  let s1 := moved s 1 in
  wf s1 /\ cur s1 = ":"%char /\ next s1 = "="%char
  /\ lex s1 = Ret (make_token ":=" ASSIGN) (moved s1 2).
Proof.
  intros s s1.
  assert (Hwf : wf s1) by (unfold wf; simpl; lia).
  assert (Hc : cur s1 = ":"%char) by reflexivity.
  assert (Hn : next s1 = "="%char) by reflexivity.
  split; [exact Hwf|]. split; [exact Hc|]. split; [exact Hn|].
  exact (proj1 (proj1 colon_must_be_assign s1 Hwf Hc) Hn).
Defined.

Lemma take_while_all p l : Forall (fun c => p c = true) (take_while p l).
Proof.
  induction l as [|c l IH]; simpl; [constructor|].
  destruct (p c) eqn:E; constructor; assumption.
Qed.

Lemma take_while_stop p l :
  p NUL = false -> p (nth (List.length (take_while p l)) l NUL) = false.
Proof.
  intros H. induction l as [|c l IH]; simpl; auto.
  destruct (p c) eqn:E; simpl; auto.
Qed.

Lemma cur_moved s k : cur (moved s k) = nth k (rest s) NUL.
Proof.
  unfold cur, moved, rest. simpl. rewrite nth_skipn.
  f_equal. lia.
Qed.

(** C6: on a digit the scanner consumes the maximal run of digits; it dies
    with "Invalid number" exactly when the value of the run exceeds
    [LONG_MAX], and otherwise returns a NUMBER token whose text is the run.
    Twenty nines are a fatal error. *)
Theorem number_range_checked :
  (forall s, wf s -> isdigit (cur s) = true ->
     Forall (fun c => isdigit c = true) (digit_run s)
     /\ isdigit (cur (moved s (List.length (digit_run s)))) = false
     /\ lex s =
        if (decimal (digit_run s) <=? LONG_MAX)%Z
        then Ret (make_token (text (digit_run s)) NUMBER)
                 (moved s (List.length (digit_run s)))
        else Exit (moved s (List.length (digit_run s))) "Invalid number")
  /\ main (source "99999999999999999999") =
     Exit (mkState (source "99999999999999999999") 20 1 []) "Invalid number".
Proof.
  split; [|vm_compute; reflexivity].
  intros s Hwf Hc. split; [apply take_while_all|].
  split; [|now apply lex_number].
  rewrite cur_moved. now apply take_while_stop.
Qed.

Lemma number_range_checked_witness :
  let s := moved (init (source "x=9223372036854775807;")) 2 in
  wf s /\ isdigit (cur s) = true
  /\ lex s = Ret (make_token "9223372036854775807" NUMBER) (moved s 19).
Proof.
  intros s.
  assert (Hwf : wf s) by (unfold wf; simpl; lia).
  assert (Hc : isdigit (cur s) = true) by reflexivity.
  split; [exact Hwf|]. split; [exact Hc|].
  exact (proj2 (proj2 (proj1 number_range_checked s Hwf Hc))).
Defined.

Lemma ident_type_keyword k ty : In (k, ty) keywords -> ident_type k = ty.
Proof.
  unfold keywords. simpl.
  intros H. repeat (destruct H as [H|H]; [now inversion H|]). destruct H.
Qed.

Lemma strcmp_eqb a b : lnot (strcmp a b) = String.eqb a b.
Proof.
  unfold lnot, strcmp. destruct (String.eqb_spec a b) as [->|Hne].
  - assert (H : String.compare b b = Eq).
    { pose proof (String.compare_antisym b b) as H.
      destruct (String.compare b b); simpl in H; congruence. }
    now rewrite H.
  - destruct (String.compare a b) eqn:E; try reflexivity.
    apply String.compare_eq_iff in E. contradiction.
Qed.

Lemma ident_type_other w : ~ In w (map fst keywords) -> ident_type w = IDENT.
Proof.
  unfold keywords, ident_type. rewrite !strcmp_eqb. simpl. intros H.
  repeat match goal with
         | |- context [String.eqb w ?k] =>
             destruct (String.eqb_spec w k); [exfalso; apply H; auto 12|]
         end.
  reflexivity.
Qed.

(** C7: on a letter or an underscore the scanner consumes the maximal run
    of letters, digits and underscores; the token's kind is the keyword's
    kind when the run is one of the eleven keywords, compared exactly and
    with case, and IDENT otherwise.  So [if] is IF while [ifx] and [IF] are
    IDENT. *)
Theorem keyword_exact_match :
  (forall s, wf s -> isalpha (cur s) || Ascii.eqb (cur s) "_" = true ->
     Forall (fun c => identchar c = true) (ident_run s)
     /\ identchar (cur (moved s (List.length (ident_run s)))) = false
     /\ lex s = Ret (make_token (text (ident_run s))
                                (ident_type (text (ident_run s))))
                    (moved s (List.length (ident_run s))))
  /\ (forall k ty, In (k, ty) keywords -> ident_type k = ty)
  /\ (forall w, ~ In w (map fst keywords) -> ident_type w = IDENT)
  /\ lex (init (source "if")) = Ret (make_token "if" IF)
                                    (moved (init (source "if")) 2)
  /\ lex (init (source "ifx")) = Ret (make_token "ifx" IDENT)
                                     (moved (init (source "ifx")) 3)
  /\ lex (init (source "IF")) = Ret (make_token "IF" IDENT)
                                    (moved (init (source "IF")) 2).
Proof.
  split; [|split; [exact ident_type_keyword|split; [exact ident_type_other|]]].
  - intros s Hwf Hc. split; [apply take_while_all|].
    split; [|now apply lex_ident].
    rewrite cur_moved. now apply take_while_stop.
  - repeat split; reflexivity.
Qed.

Lemma keyword_exact_match_witness :
  let s := moved (init (source "; while_ do")) 2 in
  wf s /\ isalpha (cur s) || Ascii.eqb (cur s) "_" = true
  /\ lex s = Ret (make_token "while_" IDENT) (moved s 6).
Proof.
  intros s.
  assert (Hwf : wf s) by (unfold wf; simpl; lia).
  assert (Hc : isalpha (cur s) || Ascii.eqb (cur s) "_" = true)
    by reflexivity.
  split; [exact Hwf|]. split; [exact Hc|].
  exact (proj2 (proj2 (proj1 keyword_exact_match s Hwf Hc))).
Defined.

(** C1 (evaluated on [123.]): the NUMBER token has the text [123], but the
    text of the DOT token is the byte after the dot, here the terminating
    NUL, so it is empty and not [.]; both are printed with line 1. *)
Theorem dot_text_after_number :
  tokens_of (output (main (source "123."))) =
  [(1%N, make_token "123" NUMBER); (1%N, make_token "" DOT)]
  /\ value (make_token "" DOT) <> "."%string.
Proof. split; [reflexivity | discriminate]. Qed.

(** C2 (evaluated on [=]): the scanner gives [=] the kind ASSIGN, the kind
    it also gives [:=]; EQUAL is the kind of no byte.  The other twelve
    bytes get the kinds the claim lists, and each of the thirteen is
    consumed alone. *)
Theorem equal_scanned_as_assign :
  lex (init (source "=")) =
  Ret (make_token "" ASSIGN) (moved (init (source "=")) 1)
  /\ lex (init (source ":=")) =
     Ret (make_token ":=" ASSIGN) (moved (init (source ":=")) 2)
  /\ map scan_one (source "=#<>+-*/().,;") =
     map (fun k => Some (k, 1))
         [ASSIGN; HASH; LT; GT; PLUS; MINUS; MULTIPLY; DIVIDE;
          LPAREN; RPAREN; DOT; COMMA; SEMICOLON].
Proof. repeat split. Qed.

(** *** Where a loop stops *)

Lemma nth_rest (m : list ascii) i k : nth k (skipn i m) NUL = nth (i + k) m NUL.
Proof. apply nth_skipn. Qed.

Lemma Forall_span_nth (P : ascii -> Prop) m i j x :
  Forall P (span m i j) -> i <= x -> x < j -> x < List.length m ->
  P (nth x m NUL).
Proof.
  intros Hall Hi Hj Hx.
  replace x with (i + (x - i)) by lia. rewrite <- nth_rest.
  assert (E : nth (x - i) (span m i j) NUL = nth (x - i) (skipn i m) NUL).
  { unfold span. rewrite nth_firstn.
    destruct (Nat.ltb_spec (x - i) (j - i)); [reflexivity | lia]. }
  rewrite <- E. apply Forall_nth; [assumption|].
  unfold span. rewrite length_firstn, length_skipn. lia.
Qed.

(** A loop that went over bytes satisfying [P] and stopped at the first
    byte that does not, stopped where the text says. *)
Lemma stop_at (P : ascii -> Prop) m i j l tail :
  i <= j -> j <= List.length m ->
  Forall P (span m i j) -> ~ P (nth j m NUL) ->
  skipn i m = l ++ tail -> Forall P l -> ~ P (hd NUL tail) ->
  j = i + List.length l.
Proof.
  intros Hij Hj Hall Hstop Hdec Hl Htail.
  destruct (Nat.lt_trichotomy j (i + List.length l)) as [H|[H|H]]; auto.
  - exfalso. apply Hstop.
    replace j with (i + (j - i)) by lia.
    rewrite <- nth_rest, Hdec, app_nth1 by lia.
    apply Forall_nth; [assumption | lia].
  - exfalso. apply Htail.
    assert (E : hd NUL tail = nth (i + List.length l) m NUL).
    { rewrite <- nth_rest, Hdec, app_nth2, Nat.sub_diag by lia.
      now destruct tail. }
    rewrite E. eapply Forall_span_nth; eauto; lia.
Qed.

Lemma span_prefix m i l tail :
  skipn i m = l ++ tail -> span m i (i + List.length l) = l.
Proof.
  intros H. unfold span. replace (i + List.length l - i) with (List.length l) by lia.
  rewrite H, firstn_app, Nat.sub_diag, firstn_all. simpl. apply app_nil_r.
Qed.

Lemma cur_rest s : cur s = hd NUL (rest s).
Proof. unfold cur, rest. now rewrite hd_skipn. Qed.

Lemma not_in_comment c : c = "}"%char \/ c = NUL -> ~ in_comment c.
Proof. intros [->| ->] [H1 H2]; congruence. Qed.

(** [comment] on a text that opens with a brace: [body] is what lies
    between the brace and the first byte that ends the loop. *)
Lemma comment_exact s body tail :
  wf s -> rest s = "{"%char :: body ++ tail -> Forall in_comment body ->
  ~ in_comment (hd NUL tail) ->
  let s' := mkState (mem s) (List.length body + 2 + source_buf s)
                    (Nat.iter (newlines body) incr (line s)) (stdout s) in
  comment s = if Ascii.eqb (hd NUL tail) "}" then Ret tt s'
              else Exit s' "Unterminated comment".
Proof.
  intros Hwf Hrest Hbody Htail s'.
  assert (Hopen : Forall in_comment ("{"%char :: body))
    by (constructor; [split; discriminate | assumption]).
  assert (Hend : forall s2, adv s s2 -> source_buf s < source_buf s2 ->
            pred (source_buf s2) <= List.length (mem s) ->
            Forall in_comment
                   (span (mem s) (source_buf s) (pred (source_buf s2))) ->
            ~ in_comment (nth (pred (source_buf s2)) (mem s) NUL) ->
            s2 = s'
            /\ nth (pred (source_buf s2)) (mem s) NUL = hd NUL tail).
  { intros s2 Ha Hlt Hle Hall Hstop.
    assert (Hj : pred (source_buf s2)
                 = source_buf s + List.length ("{"%char :: body)).
    { eapply stop_at with (P := in_comment) (tail := tail); eauto; lia. }
    simpl in Hj.
    assert (Hpos : source_buf s2 = List.length body + 2 + source_buf s) by lia.
    split.
    - apply state_eq; auto using adv_mem, adv_stdout.
      rewrite (adv_line _ _ Ha). f_equal.
      rewrite (span_split _ _ (pred (source_buf s2))) by lia.
      rewrite Hj at 1.
      rewrite (span_prefix _ _ ("{"%char :: body) tail) by exact Hrest.
      replace (source_buf s2) with (S (pred (source_buf s2))) at 2 by lia.
      rewrite newlines_app.
      assert (E : newlines (span (mem s) (pred (source_buf s2))
                                 (S (pred (source_buf s2)))) = 0).
      { destruct (Nat.lt_ge_cases (pred (source_buf s2))
                                  (List.length (mem s))) as [Hin|Hout].
        - rewrite span_one by assumption. unfold newlines. simpl.
          destruct (ascii_dec _ LF) as [E|]; auto.
          exfalso. apply Hstop. rewrite E. split; discriminate.
        - now rewrite span_one_end. }
      rewrite E, Nat.add_0_r. unfold newlines. simpl.
      destruct (ascii_dec "{" LF); [discriminate | reflexivity].
    - rewrite Hj. rewrite <- nth_rest.
      unfold rest in Hrest. rewrite Hrest. cbn [List.length nth].
      rewrite app_nth2, Nat.sub_diag by lia.
      now destruct tail. }
  pose proof (comment_spec s Hwf) as H. unfold wp in H.
  destruct (comment s) as [[] s2|s2 msg| |]; try contradiction.
  - destruct H as (Ha & Hw & Hlt & Hall & Hlast).
    destruct (Hend s2) as (-> & E); auto.
    + unfold wf in Hw. rewrite (adv_mem _ _ Ha) in Hw. lia.
    + apply not_in_comment. auto.
    + rewrite <- E, Hlast. reflexivity.
  - destruct H as (Ha & Hle & Hlt & Hall & Hlast & ->).
    destruct (Hend s2) as (-> & E); auto.
    + lia.
    + apply not_in_comment. auto.
    + rewrite <- E, Hlast. reflexivity.
Qed.

(** *** Fuel *)

Lemma bind_ret_eq A B (m : M A) (f : A -> M B) s a s' :
  m s = Ret a s' -> bind m f s = f a s'.
Proof. intros H. unfold bind. now rewrite H. Qed.

Lemma bind_ext A B (m : M A) (f1 f2 : A -> M B) s :
  (forall a s', m s = Ret a s' -> f1 a s' = f2 a s') ->
  bind m f1 s = bind m f2 s.
Proof. intros H. unfold bind. destruct (m s); auto. Qed.

Lemma lex_body_ext (k1 k2 : M token) s :
  wf s ->
  (forall s1, wf s1 -> mem s1 = mem s -> source_buf s < source_buf s1 ->
              k1 s1 = k2 s1) ->
  lex_body k1 s = lex_body k2 s.
Proof.
  intros Hwf Hk. unfold lex_body.
  apply bind_ext. intros [] s1 Hs.
  pose proof (wp_ret_eq _ _ _ _ _ _ _ Hs (skip_space_spec s Hwf))
    as (Ha1 & Hw1 & _).
  apply bind_ext. intros c s1' Hd.
  rewrite deref_wf in Hd by assumption. inversion Hd; subst c s1'; clear Hd.
  destruct (isalpha (cur s1) || Ascii.eqb (cur s1) "_"); [reflexivity|].
  destruct (isdigit (cur s1)); [reflexivity|].
  apply bind_ext. intros e s2 He.
  pose proof (wp_ret_eq _ _ _ _ _ _ _ He (lex_switch_spec s1 Hw1))
    as (Ha2 & Hw2 & Hlt).
  destruct e as [ty|t|]; try reflexivity.
  apply Hk; [assumption | |].
  - rewrite (adv_mem _ _ Ha2). apply Ha1.
  - pose proof (adv_le _ _ Ha1). lia.
Qed.

Lemma lex_loop_fuel n m s :
  wf s ->
  List.length (mem s) - source_buf s < n ->
  List.length (mem s) - source_buf s < m ->
  lex_loop n s = lex_loop m s.
Proof.
  revert m s. induction n as [|n IH]; intros m s Hwf Hn Hm; [lia|].
  destruct m as [|m]; [lia|]. cbn [lex_loop].
  apply lex_body_ext; [assumption|].
  intros s1 Hw1 Hmem Hlt. unfold wf in Hw1.
  apply IH; [assumption | |]; rewrite Hmem in *; lia.
Qed.

Lemma lex_loop_lex n s :
  wf s -> List.length (mem s) - source_buf s < n -> lex_loop n s = lex s.
Proof. intros Hwf Hn. apply lex_loop_fuel; auto using fuel_enough. Qed.

(** The scanner restarted after a comment is the scanner called there. *)
Lemma lex_comment s :
  wf s -> cur s = "{"%char -> lex s = (comment ;; lex) s.
Proof.
  intros Hwf Hc.
  assert (Hsp : isspace (cur s) = false) by now rewrite Hc.
  rewrite lex_dispatch by assumption. rewrite Hc.
  change (isalpha "{" || Ascii.eqb "{" "_") with false.
  change (isdigit "{") with false. cbv iota.
  change (lex_switch "{") with (comment ;; ret Goto_start).
  pose proof (comment_spec s Hwf) as H. unfold wp in H.
  unfold bind. destruct (comment s) as [[] s2| | |]; try reflexivity.
  destruct H as (Ha & Hw & Hlt & _). unfold ret.
  apply lex_loop_lex; [assumption|]. rewrite (adv_mem _ _ Ha). lia.
Qed.

(** C4: a comment is skipped up to the first closing brace and no token
    is made of it; [line] is incremented for each newline inside; a comment
    that meets the end of the text first is fatal, with the diagnostic
    "Unterminated comment" and exit status 1.  Braces do not nest. *)
Theorem comment_transparent :
  (forall s body tail,
     wf s -> rest s = "{"%char :: body ++ "}"%char :: tail ->
     Forall in_comment body ->
     lex s = lex (mkState (mem s) (List.length body + 2 + source_buf s)
                          (Nat.iter (newlines body) incr (line s))
                          (stdout s)))
  /\ (forall s body tail,
        wf s -> rest s = "{"%char :: body ++ tail ->
        Forall in_comment body -> hd NUL tail = NUL ->
        lex s = Exit (mkState (mem s) (List.length body + 2 + source_buf s)
                              (Nat.iter (newlines body) incr (line s))
                              (stdout s))
                     "Unterminated comment"
        /\ exit_status (lex s) = Some 1%Z)
  /\ main (source "{unterminated") =
     Exit (mkState (source "{unterminated") 14 1 []) "Unterminated comment"
  /\ tokens_of (output (main (source "{ a { b } c"))) =
     [(1%N, make_token "c" IDENT); (1%N, make_token "" DOT)].
Proof.
  split; [|split; [|split; reflexivity]].
  - intros s body tail Hwf Hrest Hbody.
    assert (Hc : cur s = "{"%char) by now rewrite cur_rest, Hrest.
    rewrite lex_comment by assumption. unfold bind.
    rewrite (comment_exact s body ("}"%char :: tail)); auto.
    apply not_in_comment. auto.
  - intros s body tail Hwf Hrest Hbody Htail.
    assert (Hc : cur s = "{"%char) by now rewrite cur_rest, Hrest.
    assert (E : lex s =
                Exit (mkState (mem s) (List.length body + 2 + source_buf s)
                              (Nat.iter (newlines body) incr (line s))
                              (stdout s))
                     "Unterminated comment").
    { rewrite lex_comment by assumption. unfold bind.
      rewrite (comment_exact s body tail); auto.
      - now rewrite Htail.
      - apply not_in_comment. auto. }
    rewrite E. split; reflexivity.
Qed.

Lemma comment_transparent_witness :
  let s := init (source "{ one
two } x") in
  wf s
  /\ rest s = "{"%char :: source " one
two " ++ "}"%char :: source " x"
  /\ Forall in_comment (source " one
two ")
  /\ lex s = lex (mkState (mem s) 11 2 []).
Proof.
  intros s.
  assert (Hwf : wf s) by (unfold wf; simpl; lia).
  assert (Hrest : rest s = "{"%char :: source " one
two " ++ "}"%char :: source " x") by reflexivity.
  assert (Hbody : Forall in_comment (source " one
two ")) by (repeat constructor; discriminate).
  split; [exact Hwf|]. split; [exact Hrest|]. split; [exact Hbody|].
  exact (proj1 comment_transparent s _ _ Hwf Hrest Hbody).
Defined.

(** *** Line numbers *)

Lemma iter_incr_nowrap k l :
  (l + N.of_nat k < size_max)%N -> Nat.iter k incr l = (l + N.of_nat k)%N.
Proof.
  induction k as [|k IH]; intros H; simpl.
  - now rewrite N.add_0_r.
  - rewrite IH by lia. unfold incr. rewrite N.mod_small; lia.
Qed.

Lemma newlines_le l : newlines l <= List.length l.
Proof. apply count_occ_bound. Qed.

Lemma span_length_le m i j :
  List.length (span m i j) <= j - i
  /\ List.length (span m i j) <= List.length m - i.
Proof. unfold span. rewrite length_firstn, length_skipn. lia. Qed.

Lemma progress_nowrap s s' :
  progress s s' -> nowrap s ->
  line s' =
  (line s
   + N.of_nat (newlines (span (mem s) (source_buf s) (source_buf s'))))%N
  /\ nowrap s'.
Proof.
  intros [Hm Hl Hn] Hw. unfold nowrap in *.
  pose proof (newlines_le (span (mem s) (source_buf s) (source_buf s'))).
  pose proof (span_length_le (mem s) (source_buf s) (source_buf s')) as [? ?].
  rewrite iter_incr_nowrap in Hn by lia.
  split; [assumption|]. rewrite Hn, Hm. lia.
Qed.

Lemma progress_line_le s s' :
  progress s s' -> nowrap s -> (line s <= line s')%N.
Proof. intros Hp Hw. destruct (progress_nowrap _ _ Hp Hw) as [-> _]. lia. Qed.

Lemma drive_lines s toks s' :
  drive s toks s' -> wf s -> nowrap s ->
  nowrap s'
  /\ Forall (fun x => (line s <= fst x <= line s')%N) toks
  /\ StronglySorted N.le (map fst toks).
Proof.
  induction 1 as [s | s t s1 toks s' Hl Ht Hd IH]; intros Hwf Hnw.
  - split; [assumption|]. split; constructor.
  - pose proof (wp_ret_eq _ _ _ _ _ _ _ Hl (lex_spec s Hwf)) as (Ha & Hw & _).
    apply adv_progress in Ha.
    destruct (progress_nowrap _ _ Ha Hnw) as [_ Hnw1].
    pose proof (progress_line_le _ _ Ha Hnw) as Hle.
    destruct (IH Hw Hnw1) as (Hnw' & Hall & Hsort). simpl in Hall.
    destruct (drive_inv _ _ _ Hd Hw) as (_ & Hp & _).
    pose proof (progress_line_le _ _ Hp Hnw1) as Hle'. simpl in Hle'.
    split; [assumption|]. split.
    + constructor; [simpl; lia|].
      eapply Forall_impl; [|exact Hall]. simpl. intros x Hx. lia.
    + simpl. constructor; [assumption|].
      apply Forall_map. eapply Forall_impl; [|exact Hall].
      simpl. intros x Hx. lia.
Qed.

Lemma tokens_of_print_all toks : tokens_of (print_all toks) = toks.
Proof.
  induction toks as [|[ln t] toks IH]; [reflexivity|].
  change (tokens_of (print_all ((ln, t) :: toks)))
    with ((ln, t) :: tokens_of (print_all toks)).
  now rewrite IH.
Qed.

Lemma tokens_of_app o1 o2 :
  tokens_of (o1 ++ o2) = tokens_of o1 ++ tokens_of o2.
Proof. apply flat_map_app. Qed.

Lemma sorted_snoc l x :
  StronglySorted N.le l -> Forall (fun y => (y <= x)%N) l ->
  StronglySorted N.le (l ++ [x]).
Proof.
  induction 1 as [|y l Hs IH Hy]; intros Hall; simpl.
  - repeat constructor.
  - inversion Hall; subst. constructor; [now apply IH|].
    apply Forall_app. split; [assumption | now repeat constructor].
Qed.

(** What [main] leaves on the standard output. *)
Lemma main_output file :
  match main file with
  | Ret _ s' =>
      exists toks s1 tl s2,
        drive (init file) toks s1 /\ lex s1 = Ret tl s2 /\ type tl = DOT
        /\ stdout s' = print_all (toks ++ [(line s2, tl)]) ++ [PDone]
        /\ mem s' = mem s2 /\ source_buf s' = source_buf s2
        /\ line s' = line s2
  | Exit s' msg =>
      exists toks s1,
        drive (init file) toks s1 /\ lex s1 = Exit s' msg
        /\ stdout s' = print_all toks
  | Fault _ | Timeout _ => False
  end.
Proof.
  assert (Hwf : wf (init file)) by (unfold wf; simpl; lia).
  pose proof (parse_spec (init file) Hwf eq_refl) as H.
  unfold wp, parse_done, parse_died in H. unfold main.
  destruct (parse (init file)) as [[] s'|s' msg| |]; try contradiction.
  - simpl in H. destruct H as (toks & s1 & tl & s2 & Hd & Hl & Ht & ->).
    exists toks, s1, tl, s2. repeat split; auto.
    destruct (drive_inv _ _ _ Hd Hwf) as (Hw1 & _ & Ho & _).
    pose proof (wp_ret_eq _ _ _ _ _ _ _ Hl (lex_spec s1 Hw1)) as (Ha & _).
    simpl. rewrite (adv_stdout _ _ Ha), Ho. simpl.
    unfold print_all. rewrite map_app. reflexivity.
  - destruct H as (_ & toks & s1 & Hd & Hl).
    exists toks, s1. repeat split; auto.
    destruct (drive_inv _ _ _ Hd Hwf) as (Hw1 & _ & Ho & _).
    pose proof (wp_exit_eq _ _ _ _ _ _ _ Hl (lex_spec s1 Hw1)) as (Ha & _).
    now rewrite (adv_stdout _ _ Ha), Ho.
Qed.

(** ** The claims on whole runs *)

Lemma nowrap_init file :
  (N.of_nat (List.length file) + 1 < size_max)%N -> nowrap (init file).
Proof.
  unfold nowrap, init. cbn [line mem source_buf]. rewrite Nat.sub_0_r. lia.
Qed.

Lemma wf_init file : wf (init file).
Proof. unfold wf. simpl. lia. Qed.

Lemma span_from_0 (m : list ascii) j : span m 0 j = firstn j m.
Proof. unfold span. now rewrite Nat.sub_0_r. Qed.

(** The state [main] ends in, reached from the initial one. *)
Lemma main_progress file :
  match main file with
  | Ret _ s' | Exit s' _ =>
      progress (init file) s' /\ source_buf s' <= S (List.length file)
  | Fault _ | Timeout _ => False
  end.
Proof.
  pose proof (main_output file) as H. pose proof (wf_init file) as Hwf.
  destruct (main file) as [[] s'|s' msg| |]; try contradiction.
  - destruct H as (toks & s1 & tl & s2 & Hd & Hl & _ & _ & Hm & Hp & Hln).
    destruct (drive_inv _ _ _ Hd Hwf) as (Hw1 & Hpr & _).
    pose proof (wp_ret_eq _ _ _ _ _ _ _ Hl (lex_spec s1 Hw1)) as (Ha & Hw2 & _).
    pose proof (progress_trans _ _ _ Hpr (adv_progress _ _ Ha)) as [Hm2 Hl2 Hn2].
    unfold wf in Hw2. rewrite Hm2 in Hw2. simpl in Hw2.
    split; [|rewrite Hp; lia].
    split; [congruence | rewrite Hp; exact Hl2 | rewrite Hln, Hp; exact Hn2].
  - destruct H as (toks & s1 & Hd & Hl & _).
    destruct (drive_inv _ _ _ Hd Hwf) as (Hw1 & Hpr & _).
    pose proof (wp_exit_eq _ _ _ _ _ _ _ Hl (lex_spec s1 Hw1)) as (Ha & Hle).
    rewrite (pr_mem _ _ Hpr) in Hle. simpl in Hle.
    split; [|exact Hle].
    exact (progress_trans _ _ _ Hpr (adv_progress _ _ Ha)).
Qed.

(** C8: [line] starts at 1; a call of the scanner, returning or dying,
    increments it once for each newline among the bytes it consumed, in
    white space or in a comment, and (a [size_t] that cannot wrap within
    the buffer) never lowers it; at the end of a run it is 1 plus the
    number of newlines before the cursor, and the lines printed with
    successive tokens never decrease. *)
Theorem line_counts_newlines :
  (forall file, line (init file) = 1%N)
  /\ (forall s, wf s ->
        match lex s with
        | Ret _ s' | Exit s' _ =>
            line s' =
            Nat.iter (newlines (span (mem s) (source_buf s) (source_buf s')))
                     incr (line s)
            /\ (nowrap s ->
                line s' =
                (line s + N.of_nat (newlines (span (mem s) (source_buf s)
                                                   (source_buf s'))))%N
                /\ (line s <= line s')%N)
        | Fault _ | Timeout _ => False
        end)
  /\ (forall file,
        (N.of_nat (List.length file) + 1 < size_max)%N ->
        line (final (main file)) =
        (1 + N.of_nat (newlines (firstn (source_buf (final (main file)))
                                        file)))%N
        /\ StronglySorted N.le (map fst (tokens_of (output (main file))))).
Proof.
  split; [reflexivity|]. split.
  - intros s Hwf. pose proof (lex_spec s Hwf) as H. unfold wp in H.
    destruct (lex s) as [t s'|s' msg| |]; try contradiction;
      destruct H as (Ha & _); (split; [apply Ha|]); intros Hnw;
      apply adv_progress in Ha;
      (split; [now apply progress_nowrap | now apply progress_line_le]).
  - intros file Hsize. pose proof (nowrap_init file Hsize) as Hnw.
    split.
    { pose proof (main_progress file) as H.
      destruct (main file) as [[] s'|s' msg| |]; try contradiction;
        destruct H as (Hp & _);
        destruct (progress_nowrap _ _ Hp Hnw) as (Hl & _);
        simpl in *; now rewrite span_from_0 in Hl. }
    pose proof (main_output file) as H.
    destruct (main file) as [[] s'|s' msg| |]; try contradiction; simpl.
    + destruct H as (toks & s1 & tl & s2 & Hd & Hl & _ & Ho & _).
      rewrite Ho, tokens_of_app, tokens_of_print_all. simpl.
      rewrite app_nil_r, map_app. simpl.
      destruct (drive_lines _ _ _ Hd (wf_init file) Hnw) as (Hnw1 & Hall & Hs).
      destruct (drive_inv _ _ _ Hd (wf_init file)) as (Hw1 & _).
      pose proof (wp_ret_eq _ _ _ _ _ _ _ Hl (lex_spec s1 Hw1)) as (Ha & _).
      pose proof (progress_line_le _ _ (adv_progress _ _ Ha) Hnw1) as Hle.
      apply sorted_snoc; [assumption|].
      apply Forall_map. eapply Forall_impl; [|exact Hall].
      simpl. intros x Hx. lia.
    + destruct H as (toks & s1 & Hd & _ & Ho).
      rewrite Ho, tokens_of_print_all.
      now destruct (drive_lines _ _ _ Hd (wf_init file) Hnw) as (_ & _ & Hs).
Qed.

Lemma line_counts_newlines_witness :
  let file := source "a
{
} b
c." in
  (N.of_nat (List.length file) + 1 < size_max)%N
  /\ StronglySorted N.le (map fst (tokens_of (output (main file)))).
Proof.
  intros file.
  assert (H : (N.of_nat (List.length file) + 1 < size_max)%N) by reflexivity.
  split; [exact H|].
  exact (proj2 (proj2 (proj2 line_counts_newlines) file H)).
Defined.

(** C9, as amended: a call that returns leaves the cursor at or after the
    place where it was and at or before the terminating NUL; a call that
    dies leaves it at most one byte after the NUL; no call, alone or in a
    run of the driver, reads outside the buffer, and the buffer is never
    changed. *)
Theorem cursor_stays_in_buffer :
  (forall s, wf s ->
     match lex s with
     | Ret _ s' =>
         source_buf s <= source_buf s'
         /\ source_buf s' <= List.length (mem s) /\ mem s' = mem s
     | Exit s' _ =>
         source_buf s <= source_buf s'
         /\ source_buf s' <= S (List.length (mem s)) /\ mem s' = mem s
     | Fault _ | Timeout _ => False
     end)
  /\ (forall file,
        match main file with
        | Ret _ s' => source_buf s' <= List.length file /\ mem s' = file
        | Exit s' _ => source_buf s' <= S (List.length file) /\ mem s' = file
        | Fault _ | Timeout _ => False
        end).
Proof.
  split.
  - intros s Hwf. pose proof (lex_spec s Hwf) as H. unfold wp in H.
    destruct (lex s) as [t s'|s' msg| |]; try contradiction.
    + destruct H as (Ha & Hw & _). unfold wf in Hw.
      rewrite (adv_mem _ _ Ha) in Hw.
      split; [apply Ha | split; [assumption | apply Ha]].
    + destruct H as (Ha & Hl).
      split; [apply Ha | split; [assumption | apply Ha]].
  - intros file. pose proof (main_output file) as H.
    pose proof (main_progress file) as Hp. pose proof (wf_init file) as Hwf.
    destruct (main file) as [[] s'|s' msg| |]; try contradiction.
    + destruct H as (toks & s1 & tl & s2 & Hd & Hl & _ & _ & Hm & Hpos & _).
      destruct (drive_inv _ _ _ Hd Hwf) as (Hw1 & _).
      pose proof (wp_ret_eq _ _ _ _ _ _ _ Hl (lex_spec s1 Hw1)) as (_ & Hw2 & _).
      destruct Hp as ([Hmem _ _] & _). simpl in Hmem.
      unfold wf in Hw2. rewrite <- Hm, Hmem, <- Hpos in Hw2. auto.
    + destruct Hp as ([Hmem _ _] & Hle). auto.
Qed.

Lemma cursor_stays_in_buffer_witness :
  let s := moved (init (source "x := 5;")) 1 in
  wf s
  /\ match lex s with
     | Ret _ s' =>
         source_buf s <= source_buf s'
         /\ source_buf s' <= List.length (mem s) /\ mem s' = mem s
     | Exit s' _ =>
         source_buf s <= source_buf s'
         /\ source_buf s' <= S (List.length (mem s)) /\ mem s' = mem s
     | Fault _ | Timeout _ => False
     end.
Proof.
  intros s.
  assert (Hwf : wf s) by (unfold wf; simpl; lia).
  split; [exact Hwf|].
  exact (proj1 cursor_stays_in_buffer s Hwf).
Defined.

(** C9 as stated fails on an unterminated comment: the call dies with the
    cursor one byte past the terminating NUL. *)
Lemma cursor_past_nul_in_open_comment :
  wf (init (source "{unterminated"))
  /\ lex (init (source "{unterminated")) =
     Exit (mkState (source "{unterminated") 14 1 []) "Unterminated comment"
  /\ ~ source_buf (final (lex (init (source "{unterminated"))))
       <= List.length (source "{unterminated").
Proof.
  split; [apply wf_init|]. split; [reflexivity|].
  vm_compute. lia.
Qed.

Lemma lex_at_NUL s : wf s -> cur s = NUL -> lex s = Ret (make_token "" DOT) s.
Proof.
  intros Hwf Hc.
  assert (Hsp : isspace (cur s) = false) by now rewrite Hc.
  rewrite lex_dispatch by assumption. rewrite Hc.
  change (isalpha NUL || Ascii.eqb NUL "_") with false.
  change (isdigit NUL) with false. cbv iota.
  change (lex_switch NUL) with (@ret switch_exit (Break DOT)).
  unfold bind, ret. rewrite deref_wf by assumption. now rewrite Hc.
Qed.

Lemma take_while_id p l :
  Forall (fun c => p c = true) l -> take_while p l = l.
Proof.
  intros H. rewrite <- (app_nil_r l) at 1. apply take_while_app; auto.
Qed.

Lemma lex_after_space s s1 :
  wf s -> skip_space s = Ret tt s1 -> lex s = lex s1.
Proof.
  intros Hwf Hs.
  pose proof (wp_ret_eq _ _ _ _ _ _ _ Hs (skip_space_spec s Hwf))
    as (Ha & Hw1 & Hsp & _).
  rewrite (lex_unfold s), (lex_unfold s1), (adv_mem _ _ Ha).
  unfold lex_body. rewrite (bind_ret_eq _ _ _ _ _ _ _ Hs).
  now rewrite (bind_ret_eq _ _ _ _ _ _ _ (skip_space_none s1 Hw1 Hsp)).
Qed.

Lemma rest_cons s : cur s <> NUL -> rest s = cur s :: rest (eat s).
Proof.
  intros H. pose proof (cur_lt _ H) as Hlt. unfold rest. simpl.
  rewrite (skipn_span (mem s) (source_buf s) (S (source_buf s))) by lia.
  now rewrite span_one.
Qed.

Lemma adv_same_cursor s a b :
  adv s a -> adv s b -> source_buf a = source_buf b -> a = b.
Proof.
  intros [Hm Ho _ Hl] [Hm' Ho' _ Hl'] E.
  destruct a, b; simpl in *. subst. reflexivity.
Qed.

Lemma newlines_cons c l :
  newlines (c :: l) = (if Ascii.eqb c LF then 1 else 0) + newlines l.
Proof.
  unfold newlines. simpl.
  destruct (ascii_dec c LF) as [->|H].
  - reflexivity.
  - apply Ascii.eqb_neq in H. now rewrite H.
Qed.

Lemma rest_eat s c l : cur s <> NUL -> rest s = c :: l -> rest (eat s) = l.
Proof.
  intros Hz H. rewrite (rest_cons s Hz) in H. now injection H.
Qed.

(** One byte of white space less to pass over. *)
Lemma lex_one_space s :
  wf s -> isspace (cur s) = true -> lex s = lex (eat s).
Proof.
  intros Hwf Hsp.
  pose proof (isspace_not_NUL _ Hsp) as Hz.
  pose proof (wf_eat _ Hz) as Hwf'. pose proof (cur_lt _ Hz) as Hlt.
  pose proof (skip_space_spec s Hwf) as H1. unfold wp in H1.
  destruct (skip_space s) as [[] s1| | |] eqn:E1; try contradiction.
  pose proof (skip_space_spec (eat s) Hwf') as H2. unfold wp in H2.
  destruct (skip_space (eat s)) as [[] s2| | |] eqn:E2; try contradiction.
  rewrite (lex_after_space s s1 Hwf E1), (lex_after_space _ s2 Hwf' E2).
  f_equal.
  destruct H1 as (Ha1 & Hw1 & Hs1 & Hall1).
  destruct H2 as (Ha2 & Hw2 & Hs2 & Hall2).
  assert (Ha2' : adv s s2) by (eapply adv_trans; [apply adv_eat | exact Ha2]).
  apply (adv_same_cursor s); auto.
  unfold wf in Hw1, Hw2.
  rewrite (adv_mem _ _ Ha1) in Hw1. rewrite (adv_mem _ _ Ha2') in Hw2.
  rewrite (cur_adv _ _ (adv_mem _ _ Ha1)) in Hs1.
  rewrite (cur_adv _ _ (adv_mem _ _ Ha2')) in Hs2.
  destruct (span_take_while isspace (mem s) (source_buf s) (source_buf s1))
    as (_ & P1); auto using adv_le.
  destruct (span_take_while isspace (mem s) (S (source_buf s)) (source_buf s2))
    as (_ & P2); auto.
  { apply (adv_le _ _ Ha2). }
  fold (rest s) in P1. rewrite (rest_cons s Hz) in P1. simpl in P1.
  rewrite Hsp in P1. simpl in P1.
  change (skipn (S (source_buf s)) (mem s)) with (rest (eat s)) in P2.
  lia.
Qed.

(** The call made at an opening brace is the call made after the closing
    one. *)
Lemma lex_over_comment s body tail :
  wf s -> rest s = "{"%char :: body ++ "}"%char :: tail ->
  Forall in_comment body ->
  lex s = lex (mkState (mem s) (List.length body + 2 + source_buf s)
                       (Nat.iter (newlines body) incr (line s)) (stdout s)).
Proof.
  intros Hwf Hrest Hbody.
  assert (Hc : cur s = "{"%char) by now rewrite cur_rest, Hrest.
  rewrite lex_comment by assumption. unfold bind.
  rewrite (comment_exact s body ("}"%char :: tail)); auto.
  apply not_in_comment. auto.
Qed.

(** White space and closed comments before a token yield nothing: the call
    is the call made after them. *)
Lemma lex_over_blank b :
  blank b -> forall s tail, wf s -> rest s = b ++ tail ->
  lex s = lex (mkState (mem s) (List.length b + source_buf s)
                       (Nat.iter (newlines b) incr (line s)) (stdout s)).
Proof.
  induction 1 as [|c l Hc _ IH|body l Hb _ IH]; intros s tail Hwf Hrest.
  - now destruct s.
  - assert (Hcur : cur s = c) by now rewrite cur_rest, Hrest.
    assert (Hz : cur s <> NUL) by (rewrite Hcur; now apply isspace_not_NUL).
    rewrite lex_one_space by (rewrite ?Hcur; assumption).
    rewrite (IH (eat s) tail (wf_eat _ Hz) (rest_eat _ _ _ Hz Hrest)).
    f_equal. unfold eat; simpl. f_equal; [lia|].
    rewrite newlines_cons, Hcur, iter_incr_add.
    now destruct (Ascii.eqb c LF).
  - simpl in Hrest. rewrite <- app_assoc in Hrest. simpl in Hrest.
    rewrite (lex_over_comment s body (l ++ tail)) by assumption.
    set (s2 := mkState (mem s) (List.length body + 2 + source_buf s)
                       (Nat.iter (newlines body) incr (line s)) (stdout s)).
    assert (Hlen : List.length (rest s)
                   = List.length body + 2 + List.length (l ++ tail)).
    { rewrite Hrest. simpl. rewrite length_app. simpl. lia. }
    assert (Hw2 : wf s2).
    { unfold wf, rest in *. rewrite length_skipn in Hlen. simpl. lia. }
    assert (Hr2 : rest s2 = l ++ tail).
    { unfold rest. simpl. rewrite <- skipn_skipn. fold (rest s).
      rewrite Hrest. replace (List.length body + 2) with (S (List.length body + 1)) by lia.
      cbn [skipn]. rewrite skipn_app, skipn_all2 by lia.
      replace (List.length body + 1 - List.length body) with 1 by lia.
      reflexivity. }
    rewrite (IH s2 tail Hw2 Hr2). f_equal. simpl. f_equal; [rewrite length_app; simpl; lia|].
    rewrite newlines_cons, newlines_app, newlines_cons. simpl.
    symmetry. apply iter_incr_add.
Qed.

(** C3, as amended: a call that finds a NUL where a token would start, that
    is under the cursor or after white space and closed comments only,
    returns a DOT token with an empty text and leaves the cursor on that
    NUL, with [line] counting the newlines passed.  A run that does not die
    prints a token sequence whose last token is of kind DOT and is the only
    one of that kind, and prints no token after it; a run that dies has
    printed no DOT token. *)
Theorem dot_ends_the_tokens :
  (forall s b tail,
     wf s -> rest s = b ++ tail -> blank b -> hd NUL tail = NUL ->
     lex s = Ret (make_token "" DOT)
                 (mkState (mem s) (List.length b + source_buf s)
                          (Nat.iter (newlines b) incr (line s)) (stdout s)))
  /\ (forall file,
        match main file with
        | Ret _ s' =>
            exists toks ln t,
              stdout s' = print_all (toks ++ [(ln, t)]) ++ [PDone]
              /\ tokens_of (stdout s') = toks ++ [(ln, t)]
              /\ type t = DOT
              /\ Forall (fun x => type (snd x) <> DOT) toks
        | Exit s' _ =>
            Forall (fun x => type (snd x) <> DOT) (tokens_of (stdout s'))
        | Fault _ | Timeout _ => False
        end).
Proof.
  split.
  - intros s b tail Hwf Hrest Hb Hend.
    rewrite (lex_over_blank b Hb s tail Hwf Hrest).
    assert (Hlen : List.length (rest s) = List.length b + List.length tail)
      by (rewrite Hrest; apply length_app).
    unfold rest in Hlen. rewrite length_skipn in Hlen.
    apply lex_at_NUL.
    + unfold wf in *. simpl. lia.
    + unfold cur. simpl. rewrite Nat.add_comm, <- nth_rest.
      fold (rest s). rewrite Hrest, app_nth2, Nat.sub_diag by lia.
      now destruct tail.
  - intros file. pose proof (main_output file) as H.
    destruct (main file) as [[] s'|s' msg| |]; try contradiction.
    + destruct H as (toks & s1 & tl & s2 & Hd & Hl & Ht & Ho & _).
      exists toks, (line s2), tl.
      split; [assumption|]. split; [|split; [assumption|]].
      * rewrite Ho, tokens_of_app, tokens_of_print_all. apply app_nil_r.
      * now destruct (drive_inv _ _ _ Hd (wf_init file)) as (_ & _ & _ & Hall).
    + destruct H as (toks & s1 & Hd & _ & Ho).
      rewrite Ho, tokens_of_print_all.
      now destruct (drive_inv _ _ _ Hd (wf_init file)) as (_ & _ & _ & Hall).
Qed.

Lemma dot_ends_the_tokens_witness :
  let s := moved (init (source "x
 {c.}
")) 1 in
  wf s
  /\ rest s = source "
 {c.}
" ++ []
  /\ blank (source "
 {c.}
")
  /\ hd NUL [] = NUL
  /\ lex s = Ret (make_token "" DOT) (mkState (mem s) 8 3 []).
Proof.
  intros s.
  assert (Hwf : wf s) by (unfold wf; simpl; lia).
  assert (Hrest : rest s = source "
 {c.}
" ++ []) by reflexivity.
  assert (Hb : blank (source "
 {c.}
")).
  { apply blank_space; [reflexivity|]. apply blank_space; [reflexivity|].
    apply (blank_comment (source "c.")).
    - repeat constructor; discriminate.
    - apply blank_space; [reflexivity | apply blank_nil]. }
  split; [exact Hwf|]. split; [exact Hrest|]. split; [exact Hb|].
  split; [reflexivity|].
  exact (proj1 dot_ends_the_tokens s _ [] Hwf Hrest Hb eq_refl).
Defined.

(** C3 as stated fails on a text the scanner rejects: on [:] the cursor
    reaches the terminating NUL and the run dies there; it has printed no
    token at all, so its token sequence does not end with a DOT token. *)
Lemma no_dot_when_scan_dies :
  main (source ":") = Exit (moved (init (source ":")) 1)
                           (unknown_token true NUL)
  /\ cur (final (main (source ":"))) = NUL
  /\ ~ (exists toks ln t,
          tokens_of (output (main (source ":"))) = toks ++ [(ln, t)]
          /\ type t = DOT).
Proof.
  split; [reflexivity|]. split; [reflexivity|].
  intros (toks & ln & t & H & _). vm_compute in H.
  destruct toks; discriminate.
Qed.

(** *** The first dot outside the comments *)

Lemma option_map_add a b (x : option nat) :
  option_map (Nat.add a) (option_map (Nat.add b) x)
  = option_map (Nat.add (b + a)) x.
Proof. destruct x; simpl; f_equal; lia. Qed.

Lemma skips_nil : skips [].
Proof. intros r. simpl. now destruct (first_dot false r). Qed.

Lemma skips_app l1 l2 : skips l1 -> skips l2 -> skips (l1 ++ l2).
Proof.
  intros H1 H2 r. rewrite <- app_assoc, H1, H2, option_map_add, length_app.
  destruct (first_dot false r); simpl; f_equal; lia.
Qed.

Lemma skips_one c : plain c -> skips [c].
Proof.
  intros [Hd Hb] r. simpl.
  destruct (Ascii.eqb_spec c "."); [contradiction|].
  destruct (Ascii.eqb_spec c "{"); [contradiction|].
  now destruct (first_dot false r).
Qed.

Lemma skips_plain l : Forall plain l -> skips l.
Proof.
  induction 1 as [|c l Hc _ IH]; [apply skips_nil|].
  change (c :: l) with ([c] ++ l). apply skips_app; auto using skips_one.
Qed.

Lemma first_dot_inside l r :
  Forall (fun c => c <> "}"%char) l ->
  first_dot true (l ++ r)
  = option_map (Nat.add (List.length l)) (first_dot true r).
Proof.
  induction 1 as [|c l Hc _ IH]; simpl.
  - now destruct (first_dot true r).
  - destruct (Ascii.eqb_spec c "}"); [contradiction|]. simpl.
    rewrite IH. now destruct (first_dot true r).
Qed.

Lemma skips_comment body :
  Forall (fun c => c <> "}"%char) body ->
  skips ("{"%char :: body ++ ["}"%char]).
Proof.
  intros H r. cbn [app first_dot]. simpl (Ascii.eqb "{" ".").
  simpl (Ascii.eqb "{" "{"). cbv iota.
  rewrite <- app_assoc, first_dot_inside by assumption. simpl.
  rewrite length_app. simpl.
  destruct (first_dot false r); simpl; f_equal; lia.
Qed.

Lemma rest_span s s' :
  mem s' = mem s -> source_buf s <= source_buf s' ->
  rest s = span (mem s) (source_buf s) (source_buf s') ++ rest s'.
Proof. intros Hm Hl. unfold rest. rewrite Hm. now apply skipn_span. Qed.

Lemma keeps_skips s s' :
  mem s' = mem s -> source_buf s <= source_buf s' -> wf s' ->
  skips (span (mem s) (source_buf s) (source_buf s')) -> keeps s s'.
Proof.
  intros Hm Hl Hw Hsk p [Hle Hfd].
  rewrite (rest_span s s' Hm Hl), Hsk in Hfd.
  unfold wf in Hw. rewrite Hm in Hw. rewrite span_length in Hfd by assumption.
  unfold dot_ahead. destruct (first_dot false (rest s')) as [q|];
    simpl in Hfd; [|discriminate].
  injection Hfd as Hq. split; [lia | f_equal; lia].
Qed.

Lemma keeps_refl s : keeps s s.
Proof. intros p H. exact H. Qed.

Lemma keeps_trans s1 s2 s3 : keeps s1 s2 -> keeps s2 s3 -> keeps s1 s3.
Proof. intros H1 H2 p H. auto. Qed.

Lemma keeps_within s1 s2 s3 : keeps s1 s2 -> within s2 s3 -> within s1 s3.
Proof. intros H1 H2 p H. auto. Qed.

Lemma within_keeps s s' : keeps s s' -> within s s'.
Proof. intros H p Hp. destruct (H p Hp) as [Hle _]. lia. Qed.

Lemma isspace_plain c : isspace c = true -> plain c.
Proof. destruct c as [[] [] [] [] [] [] [] []]; try discriminate; split; discriminate. Qed.

Lemma identchar_plain c : identchar c = true -> plain c.
Proof. destruct c as [[] [] [] [] [] [] [] []]; try discriminate; split; discriminate. Qed.

Lemma isdigit_plain c : isdigit c = true -> plain c.
Proof. destruct c as [[] [] [] [] [] [] [] []]; try discriminate; split; discriminate. Qed.

Lemma keeps_run (p : ascii -> bool) s s' :
  (forall c, p c = true -> plain c) ->
  adv s s' -> wf s' ->
  Forall (fun c => p c = true) (span (mem s) (source_buf s) (source_buf s')) ->
  keeps s s'.
Proof.
  intros Hp Ha Hw Hall.
  apply keeps_skips; auto using adv_mem, adv_le.
  apply skips_plain. eapply Forall_impl; [|exact Hall]. exact Hp.
Qed.

Lemma keeps_eat s : plain (cur s) -> cur s <> NUL -> keeps s (eat s).
Proof.
  intros Hp Hz. pose proof (cur_lt _ Hz) as Hlt.
  apply keeps_skips; simpl; auto using wf_eat.
  rewrite span_one by assumption. now apply skips_one.
Qed.

Lemma span_cons m i j :
  i < j -> i < List.length m -> span m i j = nth i m NUL :: span m (S i) j.
Proof.
  intros Hij Hi. rewrite (span_split m i (S i) j) by lia.
  now rewrite span_one.
Qed.

Lemma span_snoc m i j :
  i <= j -> j < List.length m -> span m i (S j) = span m i j ++ [nth j m NUL].
Proof.
  intros Hij Hj. rewrite (span_split m i j (S j)) by lia.
  now rewrite span_one.
Qed.

Lemma in_comment_not_close l :
  Forall in_comment l -> Forall (fun c => c <> "}"%char) l.
Proof. apply Forall_impl. now intros c [H _]. Qed.

Lemma comment_dots s :
  wf s -> cur s = "{"%char ->
  wp comment s (fun _ s' => keeps s s') (fun s' _ => within s s').
Proof.
  intros Hwf Hc.
  assert (Hz : cur s <> NUL) by (rewrite Hc; discriminate).
  pose proof (cur_lt _ Hz) as Hin.
  assert (Hfirst : forall j, source_buf s < S j ->
            nth j (mem s) NUL = "}"%char \/ nth j (mem s) NUL = NUL ->
            source_buf s < j).
  { intros j Hj Hn. destruct (Nat.eq_dec j (source_buf s)) as [->|]; [|lia].
    fold (cur s) in Hn. rewrite Hc in Hn. destruct Hn; discriminate. }
  eapply wp_mono; [now apply comment_spec | |].
  - intros [] s' (Ha & Hw & Hlt & Hall & Hlast).
    assert (Hj : source_buf s < pred (source_buf s')) by (apply Hfirst; auto; lia).
    unfold wf in Hw. rewrite (adv_mem _ _ Ha) in Hw.
    apply keeps_skips; auto using adv_mem, adv_le.
    { unfold wf. rewrite (adv_mem _ _ Ha). exact Hw. }
    replace (source_buf s') with (S (pred (source_buf s'))) by lia.
    rewrite span_snoc, Hlast by lia.
    rewrite span_cons in * by lia. fold (cur s) in *. rewrite Hc in *.
    apply (skips_comment (span (mem s) (S (source_buf s))
                               (pred (source_buf s')))).
    apply in_comment_not_close. now inversion Hall.
  - intros s' msg (Ha & Hle & Hlt & Hall & Hlast & _) p [Hp Hfd].
    assert (Hj : source_buf s < pred (source_buf s')) by (apply Hfirst; auto; lia).
    assert (Hlen : List.length (span (mem s) (source_buf s)
                                     (pred (source_buf s')))
                   = pred (source_buf s') - source_buf s)
      by (apply span_length; lia).
    unfold rest in Hfd.
    rewrite (skipn_span _ _ (pred (source_buf s'))) in Hfd by lia.
    rewrite span_cons in Hfd, Hall, Hlen by lia.
    fold (cur s) in Hfd, Hall. rewrite Hc in Hfd, Hall.
    cbn [app first_dot] in Hfd. simpl (Ascii.eqb "{" ".") in Hfd.
    simpl (Ascii.eqb "{" "{") in Hfd. cbv iota in Hfd.
    rewrite first_dot_inside in Hfd
      by (apply in_comment_not_close; now inversion Hall).
    rewrite <- hd_skipn in Hlast. simpl in Hlen.
    destruct (skipn (pred (source_buf s')) (mem s)) as [|c tl];
      [discriminate|].
    simpl in Hlast. subst c. cbn [first_dot] in Hfd.
    simpl (negb _) in Hfd.
    destruct (first_dot true tl) as [q|]; [|discriminate].
    simpl in Hfd. injection Hfd as Hq. lia.
Qed.

Lemma within_refl s : within s s.
Proof. apply within_keeps, keeps_refl. Qed.

Lemma keeps_stops s1 s2 s3 : keeps s1 s2 -> stops s2 s3 -> stops s1 s3.
Proof. intros H1 H2 p H. auto. Qed.

Lemma ident_type_not_DOT w : is_DOT (ident_type w) = false.
Proof.
  unfold ident_type.
  repeat match goal with
         | |- context [if ?b then _ else _] => destruct b; [reflexivity|]
         end.
  reflexivity.
Qed.

Ltac one_plain_char s :=
  match goal with
  | H : cur s = _ |- _ =>
      let Hl := fresh "Hl" in
      let Hz := fresh "Hz" in
      let Hp := fresh "Hp" in
      assert (Hl : cur s <> LF) by (rewrite H; discriminate);
      assert (Hz : cur s <> NUL) by (rewrite H; discriminate);
      assert (Hp : plain (cur s)) by (rewrite H; split; discriminate);
      unfold wp, bind; rewrite (advance_eat (cur s)) by auto;
      simpl; now apply keeps_eat
  end.

Lemma lex_switch_dots s :
  wf s ->
  wp (lex_switch (cur s)) s (switch_dots s) (fun s' _ => within s s').
Proof.
  intros Hwf. unfold lex_switch, switch_dots.
  repeat match goal with
         | |- wp (if Ascii.eqb (cur s) ?c then _ else _) _ _ _ =>
             destruct (Ascii.eqb_spec (cur s) c) as [Hc|?];
             [try one_plain_char s|]
         end.
  - (* '.' *)
    assert (Hl : cur s <> LF) by (rewrite Hc; discriminate).
    unfold wp, bind. rewrite (advance_eat (cur s)) by auto. simpl.
    intros p [Hp Hfd]. left. simpl.
    rewrite cur_rest in Hc. destruct (rest s) as [|c r]; [discriminate|].
    simpl in Hc. subst c. simpl in Hfd. injection Hfd as Hq. lia.
  - (* ':' *)
    assert (Hl : cur s <> LF) by (rewrite Hc; discriminate).
    assert (Hz : cur s <> NUL) by (rewrite Hc; discriminate).
    assert (Hp : plain (cur s)) by (rewrite Hc; split; discriminate).
    pose proof (wf_eat _ Hz) as Hw1.
    pose proof (keeps_eat _ Hp Hz) as Hk1.
    unfold wp, bind at 1. rewrite (advance_eat (cur s)) by auto.
    unfold bind at 1. rewrite deref_wf by assumption.
    destruct (Ascii.eqb_spec (cur (eat s)) "=") as [He|He].
    + assert (Hl' : cur (eat s) <> LF) by (rewrite He; discriminate).
      assert (Hz' : cur (eat s) <> NUL) by (rewrite He; discriminate).
      assert (Hp' : plain (cur (eat s))) by (rewrite He; split; discriminate).
      unfold bind. cbn [negb ret].
      rewrite (advance_eat (cur (eat s))) by auto.
      split; [reflexivity|].
      eapply keeps_trans; [exact Hk1 | now apply keeps_eat].
    + unfold bind. cbn [negb die]. now apply within_keeps.
  - (* '{' *)
    apply wp_bind. eapply wp_mono; [now apply comment_dots | |]; auto.
  - (* NUL *)
    unfold wp, ret. simpl. intros p [Hp _]. right. auto.
  - unfold wp, die. apply within_refl.
Qed.

Lemma dots_ok_trans s s1 s2 t :
  keeps s s1 -> lex_dots_ok s1 t s2 -> lex_dots_ok s t s2.
Proof.
  unfold lex_dots_ok. intros Hk H.
  destruct (is_DOT (type t)); eauto using keeps_stops, keeps_trans.
Qed.

Lemma lex_body_dots (again : M token) s :
  wf s ->
  (forall s1, wf s1 -> adv s s1 -> source_buf s < source_buf s1 ->
              wp again s1 (lex_dots_ok s1) (fun s' _ => within s1 s')) ->
  wp (lex_body again) s (lex_dots_ok s) (fun s' _ => within s s').
Proof.
  intros Hwf Hagain. unfold lex_body.
  apply wp_bind. eapply wp_mono; [now apply skip_space_spec | | intros ? ? []].
  intros [] s1 (Ha1 & Hw1 & _ & Hall1). cbv beta.
  pose proof (keeps_run isspace _ _ isspace_plain Ha1 Hw1 Hall1) as Hk1.
  apply wp_bind. unfold wp at 1. rewrite deref_wf by assumption.
  destruct (isalpha (cur s1) || Ascii.eqb (cur s1) "_") eqn:Hal.
  { eapply wp_mono; [apply ident_spec; auto using isalpha_identchar | |
                     intros ? ? []].
    intros t s2 (Ha & Hw & _ & _ & Hall & _ & _ & Ht).
    eapply dots_ok_trans; [exact Hk1|].
    unfold lex_dots_ok. rewrite Ht, ident_type_not_DOT.
    exact (keeps_run identchar _ _ identchar_plain Ha Hw Hall). }
  destruct (isdigit (cur s1)) eqn:Hd.
  { eapply wp_mono; [now apply number_spec | |].
    - intros t s2 ((Ha & Hw & _ & _ & Hall & _) & -> & _).
      eapply dots_ok_trans; [exact Hk1|].
      exact (keeps_run isdigit _ _ isdigit_plain Ha Hw Hall).
    - intros s2 msg ((Ha & Hw & _ & _ & Hall & _) & _).
      eapply keeps_within; [exact Hk1|]. apply within_keeps.
      exact (keeps_run isdigit _ _ isdigit_plain Ha Hw Hall). }
  apply wp_bind.
  eapply wp_mono;
    [apply wp_and; [now apply lex_switch_spec | now apply lex_switch_dots] | |].
  - intros e s2 ((Ha & Hw & He) & Hd2). destruct e as [ty | t |].
    + apply wp_bind. unfold wp at 1. rewrite deref_wf by assumption.
      unfold wp, ret. eapply dots_ok_trans; [exact Hk1 | exact Hd2].
    + unfold wp, ret. eapply dots_ok_trans; [exact Hk1|].
      unfold lex_dots_ok. destruct Hd2 as [-> Hd2]. exact Hd2.
    + pose proof (adv_le _ _ Ha1). simpl in Hd2.
      eapply wp_mono;
        [apply Hagain; [assumption | eapply adv_trans; eassumption | lia] | |].
      * intros t s3 H3. eapply dots_ok_trans; [|exact H3].
        eapply keeps_trans; eassumption.
      * intros s3 msg H3. eapply keeps_within; [|exact H3].
        eapply keeps_trans; eassumption.
  - intros s2 msg (_ & H2). eapply keeps_within; eassumption.
Qed.

Lemma lex_loop_dots n s :
  wf s -> List.length (mem s) - source_buf s < n ->
  wp (lex_loop n) s (lex_dots_ok s) (fun s' _ => within s s').
Proof.
  revert s. induction n as [|n IH]; intros s Hwf Hn; [lia|].
  cbn [lex_loop]. apply lex_body_dots; [assumption|].
  intros s1 Hw1 Ha Hlt. apply IH; [assumption|].
  unfold wf in Hw1. rewrite (adv_mem _ _ Ha) in *. lia.
Qed.

Lemma lex_dots s :
  wf s -> wp lex s (lex_dots_ok s) (fun s' _ => within s s').
Proof. intros H. apply lex_loop_dots; auto using fuel_enough. Qed.

Lemma drive_keeps s toks s' : drive s toks s' -> wf s -> keeps s s'.
Proof.
  induction 1 as [s | s t s1 toks s' Hl Ht Hd IH]; intros Hwf.
  - apply keeps_refl.
  - pose proof (wp_ret_eq _ _ _ _ _ _ _ Hl (lex_spec s Hwf)) as (_ & Hw & _).
    pose proof (wp_ret_eq _ _ _ _ _ _ _ Hl (lex_dots s Hwf)) as Hk.
    unfold lex_dots_ok in Hk. apply is_DOT_false in Ht. rewrite Ht in Hk.
    eapply keeps_trans; [exact Hk|]. now apply IH.
Qed.

Lemma first_dot_nth b l p : first_dot b l = Some p -> nth p l NUL = "."%char.
Proof.
  revert b p. induction l as [|c l IH]; intros b p H; [discriminate|].
  simpl in H. destruct b.
  - destruct (first_dot _ l) as [q|] eqn:E; [|discriminate].
    injection H as <-. simpl. eauto.
  - destruct (Ascii.eqb_spec c ".") as [->|_].
    + injection H as <-. reflexivity.
    + destruct (first_dot _ l) as [q|] eqn:E; [|discriminate].
      injection H as <-. simpl. eauto.
Qed.

Lemma dot_ahead_init file p :
  first_dot false file = Some p -> dot_ahead (init file) p.
Proof.
  intros H. split; simpl; [lia|].
  unfold rest. simpl. now rewrite Nat.sub_0_r.
Qed.

Lemma drive_mem s toks s' : drive s toks s' -> wf s -> mem s' = mem s.
Proof.
  intros Hd Hwf. now destruct (drive_inv _ _ _ Hd Hwf) as (_ & [Hm _ _] & _).
Qed.

(** C10, as amended: when the text has a [.] outside every comment, at
    offset [p] the first of them, the scanner never moves the cursor
    further than the byte after it, whether the run ends normally or dies;
    a run that does not die prints as its last token the first token of
    kind DOT and stops, with the cursor right after that dot unless a NUL
    byte before it ended the text earlier. *)
Theorem driver_stops_at_first_dot :
  forall file p, first_dot false file = Some p ->
    nth p file NUL = "."%char
    /\ source_buf (final (main file)) <= p + 1
    /\ match main file with
       | Ret _ s' =>
           (exists toks ln t,
              stdout s' = print_all (toks ++ [(ln, t)]) ++ [PDone]
              /\ type t = DOT
              /\ Forall (fun x => type (snd x) <> DOT) toks)
           /\ (~ In NUL (firstn p file) -> source_buf s' = p + 1)
       | Exit _ _ => True
       | Fault _ | Timeout _ => False
       end.
Proof.
  intros file p Hfd.
  pose proof (first_dot_nth _ _ _ Hfd) as Hnth.
  pose proof (dot_ahead_init _ _ Hfd) as Hda.
  pose proof (wf_init file) as Hwf.
  split; [assumption|].
  pose proof (main_output file) as H.
  destruct (main file) as [[] s'|s' msg| |]; try contradiction; simpl.
  - destruct H as (toks & s1 & tl & s2 & Hd & Hl & Ht & Ho & Hm & Hp & _).
    destruct (drive_inv _ _ _ Hd Hwf) as (Hw1 & _ & _ & Hall).
    pose proof (drive_keeps _ _ _ Hd Hwf p Hda) as Hda1.
    pose proof (wp_ret_eq _ _ _ _ _ _ _ Hl (lex_dots s1 Hw1)) as Hk.
    pose proof (wp_ret_eq _ _ _ _ _ _ _ Hl (lex_spec s1 Hw1)) as (Ha & _).
    unfold lex_dots_ok in Hk. apply is_DOT_true in Ht. rewrite Ht in Hk.
    apply is_DOT_true in Ht. specialize (Hk p Hda1). rewrite Hp.
    split; [destruct Hk as [?|[? _]]; lia|].
    split; [exists toks, (line s2), tl; auto|].
    intros Hnul. destruct Hk as [?|[Hle Hc]]; [assumption|].
    exfalso. apply Hnul.
    assert (Hfile : mem s2 = file).
    { rewrite (adv_mem _ _ Ha). apply (drive_mem _ _ _ Hd Hwf). }
    unfold cur in Hc. rewrite Hfile in Hc.
    assert (Hlt : source_buf s2 < p).
    { destruct (Nat.eq_dec (source_buf s2) p) as [E|]; [|lia].
      rewrite E, Hnth in Hc. discriminate. }
    assert (Hin : p < List.length file).
    { destruct (Nat.lt_ge_cases p (List.length file)); auto.
      rewrite nth_overflow in Hnth by assumption. discriminate. }
    rewrite <- Hc.
    replace (nth (source_buf s2) file NUL)
      with (nth (source_buf s2) (firstn p file) NUL).
    + apply nth_In. rewrite length_firstn. lia.
    + rewrite nth_firstn.
      destruct (Nat.ltb_spec (source_buf s2) p); [reflexivity | lia].
  - destruct H as (toks & s1 & Hd & Hl & _).
    destruct (drive_inv _ _ _ Hd Hwf) as (Hw1 & _).
    pose proof (drive_keeps _ _ _ Hd Hwf p Hda) as Hda1.
    pose proof (wp_exit_eq _ _ _ _ _ _ _ Hl (lex_dots s1 Hw1)) as Hk.
    split; [exact (Hk p Hda1) | exact I].
Qed.

Lemma driver_stops_at_first_dot_witness :
  let file := source "x {.} . y" in
  first_dot false file = Some 6
  /\ source_buf (final (main file)) <= 6 + 1.
Proof.
  intros file.
  assert (H : first_dot false file = Some 6) by reflexivity.
  split; [exact H|].
  exact (proj1 (proj2 (driver_stops_at_first_dot file 6 H))).
Defined.

(** C10 as stated fails on a text the scanner rejects before the dot:
    the run on [?.x] dies at once, so no token of kind DOT is produced and
    the loop does not come to stop after one.  And on [a.b] the byte after
    the dot is read: it is the text printed for the DOT token. *)
Lemma no_dot_token_when_scan_dies_first :
  first_dot false (source "?.x") = Some 1
  /\ main (source "?.x") = Exit (init (source "?.x")) "Unkown token '?'"
  /\ tokens_of (output (main (source "?.x"))) = []
  /\ first_dot false (source "a.b") = Some 1
  /\ tokens_of (output (main (source "a.b"))) =
     [(1%N, make_token "a" IDENT); (1%N, make_token "b" DOT)].
Proof. repeat split. Qed.

(** ** Beyond the claims: what a call is made of *)

Lemma lex_switch_op_kind c :
  lex_switch c =
  match op_kind c with
  | Some k => advance ;; ret (Break k)
  | None =>
      if Ascii.eqb c ":" then
        advance ;;
        c' <- deref ;;
        (if negb (Ascii.eqb c' "=") then die (unknown_token true c')
         else ret tt) ;;
        advance ;;
        ret (Return (make_token ":=" ASSIGN))
      else if Ascii.eqb c "{" then comment ;; ret Goto_start
      else if Ascii.eqb c NUL then ret (Break DOT)
      else die (unknown_token false c)
  end.
Proof.
  unfold lex_switch, op_kind.
  repeat match goal with
         | |- context [if Ascii.eqb c ?x then _ else _] =>
             destruct (Ascii.eqb c x); [reflexivity|]
         end.
  reflexivity.
Qed.

Lemma op_kind_class c k :
  op_kind c = Some k ->
  c <> LF /\ c <> NUL /\ isspace c = false
  /\ isalpha c || Ascii.eqb c "_" = false /\ isdigit c = false.
Proof.
  destruct c as [[] [] [] [] [] [] [] []]; try discriminate;
    intros _; repeat split; discriminate.
Qed.

Lemma blank_app l1 l2 : blank l1 -> blank l2 -> blank (l1 ++ l2).
Proof.
  induction 1 as [|c l Hc _ IH|body l Hb _ IH]; intros H2; simpl; auto.
  - apply blank_space; auto.
  - rewrite <- app_assoc. simpl. apply blank_comment; auto.
Qed.

Lemma blank_spaces l : Forall (fun c => isspace c = true) l -> blank l.
Proof. induction 1; [apply blank_nil | apply blank_space; auto]. Qed.

Lemma blank_one_comment body :
  Forall in_comment body -> blank ("{"%char :: body ++ ["}"%char]).
Proof. intros H. apply blank_comment; [assumption | constructor]. Qed.

Lemma comment_part s :
  wf s -> cur s = "{"%char ->
  wp comment s
     (fun _ s' => blank (span (mem s) (source_buf s) (source_buf s')))
     (fun s' msg => fatal (mem s) (source_buf s) (source_buf s') msg).
Proof.
  intros Hwf Hc.
  assert (Hz : cur s <> NUL) by (rewrite Hc; discriminate).
  pose proof (cur_lt _ Hz) as Hin.
  assert (Hfirst : forall j, source_buf s < S j ->
            nth j (mem s) NUL = "}"%char \/ nth j (mem s) NUL = NUL ->
            source_buf s < j).
  { intros j Hj Hn. destruct (Nat.eq_dec j (source_buf s)) as [->|]; [|lia].
    fold (cur s) in Hn. rewrite Hc in Hn. destruct Hn; discriminate. }
  eapply wp_mono; [now apply comment_spec | |].
  - intros [] s' (Ha & Hw & Hlt & Hall & Hlast).
    assert (Hj : source_buf s < pred (source_buf s'))
      by (apply Hfirst; auto; lia).
    unfold wf in Hw. rewrite (adv_mem _ _ Ha) in Hw.
    replace (source_buf s') with (S (pred (source_buf s'))) by lia.
    rewrite span_snoc, Hlast by lia.
    rewrite span_cons in * by lia. fold (cur s) in *. rewrite Hc in *.
    apply blank_one_comment. now inversion Hall.
  - intros s' msg (Ha & Hle & Hlt & Hall & Hlast & ->).
    assert (Hj : source_buf s < pred (source_buf s'))
      by (apply Hfirst; auto; lia).
    apply fatal_comment; auto; lia.
Qed.

Lemma unknown_byte_intro c :
  isspace c = false -> isalpha c || Ascii.eqb c "_" = false ->
  isdigit c = false -> op_kind c = None ->
  c <> ":"%char -> c <> "{"%char -> c <> NUL ->
  unknown_byte c = true.
Proof.
  intros Hs Ha Hd Ho H1 H2 H3. unfold unknown_byte.
  apply orb_false_iff in Ha. destruct Ha as [Ha Hu].
  rewrite Hs, Ha, Hu, Hd, Ho.
  destruct (Ascii.eqb_spec c ":"); [contradiction|].
  destruct (Ascii.eqb_spec c "{"); [contradiction|].
  destruct (Ascii.eqb_spec c NUL); [contradiction|]. reflexivity.
Qed.

Lemma lex_switch_part s :
  wf s -> isspace (cur s) = false ->
  isalpha (cur s) || Ascii.eqb (cur s) "_" = false ->
  isdigit (cur s) = false ->
  wp (lex_switch (cur s)) s (switch_part s)
     (fun s' msg => fatal (mem s) (source_buf s) (source_buf s') msg).
Proof.
  intros Hwf Hsp Hal Hdg. rewrite lex_switch_op_kind. unfold switch_part.
  destruct (op_kind (cur s)) as [k|] eqn:Hop.
  - destruct (op_kind_class _ _ Hop) as (Hl & Hz & _).
    pose proof (cur_lt _ Hz) as Hlt.
    unfold wp, bind. rewrite (advance_eat (cur s)) by auto. simpl.
    left. split; [now apply span_one | reflexivity].
  - destruct (Ascii.eqb_spec (cur s) ":") as [Hc|Hn1].
    + assert (Hl : cur s <> LF) by (rewrite Hc; discriminate).
      assert (Hz : cur s <> NUL) by (rewrite Hc; discriminate).
      pose proof (cur_lt _ Hz) as Hlt.
      pose proof (wf_eat _ Hz) as Hw1.
      unfold wp, bind at 1. rewrite (advance_eat (cur s)) by auto.
      unfold bind at 1. rewrite deref_wf by assumption.
      destruct (Ascii.eqb_spec (cur (eat s)) "=") as [He|He].
      * assert (Hl' : cur (eat s) <> LF) by (rewrite He; discriminate).
        assert (Hz' : cur (eat s) <> NUL) by (rewrite He; discriminate).
        pose proof (cur_lt _ Hz') as Hlt'. simpl in Hlt'.
        unfold bind. cbn [negb ret].
        rewrite (advance_eat (cur (eat s))) by auto. simpl.
        split; [|reflexivity].
        rewrite span_cons by lia. fold (cur s). rewrite Hc. f_equal.
        rewrite span_one by assumption.
        change (nth (S (source_buf s)) (mem s) NUL) with (cur (eat s)).
        now rewrite He.
      * unfold bind. cbn [negb die].
        change (cur (eat s)) with (nth (source_buf (eat s)) (mem s) NUL).
        apply fatal_colon; auto.
    + destruct (Ascii.eqb_spec (cur s) "{") as [Hc|Hn2].
      * apply wp_bind. eapply wp_mono; [now apply comment_part | |]; auto.
      * destruct (Ascii.eqb_spec (cur s) NUL) as [Hc|Hn3].
        -- unfold wp, ret. right. auto.
        -- unfold wp, die. unfold cur in *.
           apply fatal_unknown; auto using unknown_byte_intro.
Qed.

Lemma part_ok_trans s s1 s2 t :
  adv s s1 -> blank (span (mem s) (source_buf s) (source_buf s1)) ->
  part_ok s1 t s2 -> part_ok s t s2.
Proof.
  intros Ha Hb (start & Hle1 & Hle2 & Hb' & Hlx).
  rewrite (adv_mem _ _ Ha) in Hb', Hlx. pose proof (adv_le _ _ Ha).
  exists start. split; [lia|]. split; [assumption|]. split; [|assumption].
  rewrite (span_split _ _ (source_buf s1)) by lia. now apply blank_app.
Qed.

Lemma part_died_trans s s1 s2 msg :
  adv s s1 -> blank (span (mem s) (source_buf s) (source_buf s1)) ->
  part_died s1 s2 msg -> part_died s s2 msg.
Proof.
  intros Ha Hb (start & Hle1 & Hle2 & Hb' & Hf).
  rewrite (adv_mem _ _ Ha) in Hb', Hf. pose proof (adv_le _ _ Ha).
  exists start. split; [lia|]. split; [assumption|]. split; [|assumption].
  rewrite (span_split _ _ (source_buf s1)) by lia. now apply blank_app.
Qed.

Lemma part_ok_here s t s' :
  source_buf s <= source_buf s' ->
  lexeme (cur s') (span (mem s) (source_buf s) (source_buf s')) t ->
  part_ok s t s'.
Proof.
  intros Hle H. exists (source_buf s).
  split; [lia|]. split; [assumption|]. split; [|assumption].
  rewrite span_nil. constructor.
Qed.

Lemma part_died_here s s' msg :
  source_buf s <= source_buf s' ->
  fatal (mem s) (source_buf s) (source_buf s') msg -> part_died s s' msg.
Proof.
  intros Hle H. exists (source_buf s).
  split; [lia|]. split; [assumption|]. split; [|assumption].
  rewrite span_nil. constructor.
Qed.

Lemma token_eta t v k : value t = v -> type t = k -> t = make_token v k.
Proof. destruct t; simpl; congruence. Qed.

Lemma lex_body_part (again : M token) s :
  wf s ->
  (forall s1, wf s1 -> adv s s1 -> source_buf s < source_buf s1 ->
              wp again s1 (part_ok s1) (part_died s1)) ->
  wp (lex_body again) s (part_ok s) (part_died s).
Proof.
  intros Hwf Hagain. unfold lex_body.
  apply wp_bind. eapply wp_mono; [now apply skip_space_spec | | intros ? ? []].
  intros [] s1 (Ha1 & Hw1 & Hsp1 & Hall1). cbv beta.
  pose proof (blank_spaces _ Hall1) as Hb1.
  apply wp_bind. unfold wp at 1. rewrite deref_wf by assumption.
  destruct (isalpha (cur s1) || Ascii.eqb (cur s1) "_") eqn:Hal.
  { pose proof (isalpha_identchar _ Hal) as Hid.
    assert (Hin : source_buf s1 < List.length (mem s1)).
    { apply cur_lt. intros E. rewrite E in Hid. discriminate. }
    eapply wp_mono; [now apply ident_spec | | intros ? ? []].
    intros t s2 (Ha & Hw & _ & Hlt & Hall & Hstop & Hv & Ht).
    eapply part_ok_trans; [exact Ha1 | exact Hb1 |].
    apply part_ok_here; [lia|].
    rewrite Hv in Ht. rewrite (token_eta _ _ _ Hv Ht).
    rewrite span_cons in * by assumption. fold (cur s1) in *.
    apply lexeme_ident; auto. now inversion Hall. }
  destruct (isdigit (cur s1)) eqn:Hd.
  { assert (Hin : source_buf s1 < List.length (mem s1)).
    { apply cur_lt. intros E. rewrite E in Hd. discriminate. }
    eapply wp_mono; [now apply number_spec | |].
    - intros t s2 ((Ha & Hw & _ & Hlt & Hall & Hstop) & -> & Hv).
      eapply part_ok_trans; [exact Ha1 | exact Hb1 |].
      apply part_ok_here; [lia|].
      rewrite span_cons in * by assumption.
      now apply lexeme_number.
    - intros s2 msg ((Ha & Hw & _ & Hlt & Hall & Hstop) & -> & Hv).
      eapply part_died_trans; [exact Ha1 | exact Hb1 |].
      apply part_died_here; [lia|].
      unfold wf in Hw. rewrite (adv_mem _ _ Ha) in Hw.
      rewrite (cur_adv _ _ (adv_mem _ _ Ha)) in Hstop.
      now apply fatal_number. }
  apply wp_bind.
  eapply wp_mono;
    [apply wp_and; [now apply lex_switch_spec | now apply lex_switch_part] | |].
  - intros e s2 ((Ha & Hw & He) & Hp). destruct e as [k | t |].
    + apply wp_bind. unfold wp at 1. rewrite deref_wf by assumption.
      unfold wp, ret. eapply part_ok_trans; [exact Ha1 | exact Hb1 |].
      apply part_ok_here; [apply Ha|].
      destruct Hp as [(Hs & Hk) | (-> & Hc & ->)].
      * rewrite Hs. now apply lexeme_op.
      * rewrite span_nil, Hc. now apply lexeme_end.
    + unfold wp, ret. eapply part_ok_trans; [exact Ha1 | exact Hb1 |].
      apply part_ok_here; [apply Ha|].
      destruct Hp as (-> & ->). apply lexeme_assign.
    + pose proof (adv_le _ _ Ha1). simpl in Hp.
      assert (Ha2 : adv s s2) by (eapply adv_trans; eassumption).
      assert (Hb2 : blank (span (mem s) (source_buf s) (source_buf s2))).
      { pose proof (adv_le _ _ Ha).
        rewrite (span_split _ _ (source_buf s1)) by lia.
        apply blank_app; [assumption|]. now rewrite <- (adv_mem _ _ Ha1). }
      eapply wp_mono; [apply Hagain; [assumption | assumption | lia] | |].
      * intros t s3 H3. eapply part_ok_trans; eassumption.
      * intros s3 msg H3. eapply part_died_trans; eassumption.
  - intros s2 msg ((Ha & _) & Hf).
    eapply part_died_trans; [exact Ha1 | exact Hb1 |].
    apply part_died_here; [apply Ha | exact Hf].
Qed.

Lemma lex_loop_part n s :
  wf s -> List.length (mem s) - source_buf s < n ->
  wp (lex_loop n) s (part_ok s) (part_died s).
Proof.
  revert s. induction n as [|n IH]; intros s Hwf Hn; [lia|].
  cbn [lex_loop]. apply lex_body_part; [assumption|].
  intros s1 Hw1 Ha Hlt. apply IH; [assumption|].
  unfold wf in Hw1. rewrite (adv_mem _ _ Ha) in *. lia.
Qed.

Lemma lex_part s : wf s -> wp lex s (part_ok s) (part_died s).
Proof. intros H. apply lex_loop_part; auto using fuel_enough. Qed.

Lemma newlines_none (p : ascii -> bool) l :
  p LF = false -> Forall (fun c => p c = true) l -> newlines l = 0.
Proof.
  intros Hp H. induction H as [|c l Hc _ IH]; [reflexivity|].
  unfold newlines in *. simpl. destruct (ascii_dec c LF) as [->|]; [|exact IH].
  congruence.
Qed.

Lemma lexeme_no_newline nxt l t : lexeme nxt l t -> newlines l = 0.
Proof.
  destruct 1 as [c l Hc Hl _|c l Hl _ _| |c k Hk|_]; try reflexivity.
  - apply (newlines_none identchar); [reflexivity|].
    constructor; auto using isalpha_identchar.
  - now apply (newlines_none isdigit).
  - destruct (op_kind_class _ _ Hk) as (Hlf & _).
    unfold newlines. simpl. now destruct (ascii_dec c LF).
Qed.

(** X1: a call that returns has passed over white space and closed
    comments only, and then consumed exactly the bytes of the token it
    returns: an identifier or keyword run, a digit run within range, [:=],
    one operator byte, or nothing at a NUL. *)
Theorem lex_blank_then_lexeme :
  forall s t s', wf s -> lex s = Ret t s' ->
    exists start,
      source_buf s <= start /\ start <= source_buf s'
      /\ blank (span (mem s) (source_buf s) start)
      /\ lexeme (cur s') (span (mem s) start (source_buf s')) t.
Proof.
  intros s t s' Hwf Hl. exact (wp_ret_eq _ _ _ _ _ _ _ Hl (lex_part s Hwf)).
Qed.

Lemma lex_blank_then_lexeme_witness :
  let s := init (source " {c} ab;") in
  let t := make_token "ab" IDENT in
  let s' := moved s 7 in
  wf s /\ lex s = Ret t s'
  /\ exists start,
       source_buf s <= start /\ start <= source_buf s'
       /\ blank (span (mem s) (source_buf s) start)
       /\ lexeme (cur s') (span (mem s) start (source_buf s')) t.
Proof.
  intros s t s'.
  assert (Hwf : wf s) by apply wf_init.
  assert (Hl : lex s = Ret t s') by reflexivity.
  split; [exact Hwf|]. split; [exact Hl|].
  exact (lex_blank_then_lexeme s t s' Hwf Hl).
Defined.

(** X2: the value of [line] after a call that returns (the one [parse]
    prints with the token) counts the newlines before the first byte of the
    token: the token itself holds none. *)
Theorem token_line_is_start_line :
  forall s t s', wf s -> lex s = Ret t s' ->
    exists start,
      source_buf s <= start /\ start <= source_buf s'
      /\ lexeme (cur s') (span (mem s) start (source_buf s')) t
      /\ newlines (span (mem s) start (source_buf s')) = 0
      /\ line s' =
         Nat.iter (newlines (span (mem s) (source_buf s) start))
                  incr (line s).
Proof.
  intros s t s' Hwf Hl.
  destruct (wp_ret_eq _ _ _ _ _ _ _ Hl (lex_part s Hwf))
    as (start & H1 & H2 & _ & Hlx).
  pose proof (wp_ret_eq _ _ _ _ _ _ _ Hl (lex_spec s Hwf)) as (Ha & _).
  pose proof (lexeme_no_newline _ _ _ Hlx) as Hn.
  exists start. repeat (split; [assumption|]).
  rewrite (adv_line _ _ Ha), (span_split _ _ start) by assumption.
  now rewrite newlines_app, Hn, Nat.add_0_r.
Qed.

Lemma token_line_is_start_line_witness :
  let s := init (source "
{
} x
") in
  let t := make_token "x" IDENT in
  let s' := mkState (mem s) 6 3 [] in
  wf s /\ lex s = Ret t s'
  /\ exists start,
       source_buf s <= start /\ start <= source_buf s'
       /\ lexeme (cur s') (span (mem s) start (source_buf s')) t
       /\ newlines (span (mem s) start (source_buf s')) = 0
       /\ line s' =
          Nat.iter (newlines (span (mem s) (source_buf s) start))
                   incr (line s).
Proof.
  intros s t s'.
  assert (Hwf : wf s) by apply wf_init.
  assert (Hl : lex s = Ret t s') by reflexivity.
  split; [exact Hwf|]. split; [exact Hl|].
  exact (token_line_is_start_line s t s' Hwf Hl).
Defined.

Lemma ident_type_not_EQUAL w : ident_type w <> EQUAL.
Proof.
  unfold ident_type.
  repeat match goal with
         | |- context [if ?b then _ else _] => destruct b; [discriminate|]
         end.
  discriminate.
Qed.

Lemma op_kind_not_EQUAL c k : op_kind c = Some k -> k <> EQUAL.
Proof.
  unfold op_kind.
  repeat match goal with
         | |- context [if ?b then _ else _] =>
             destruct b; [intros H; injection H as <-; discriminate|]
         end.
  discriminate.
Qed.

(** X4: no call of the scanner, on any text, returns a token of kind
    EQUAL. *)
Theorem lex_never_EQUAL :
  forall s t s', wf s -> lex s = Ret t s' -> type t <> EQUAL.
Proof.
  intros s t s' Hwf Hl.
  destruct (wp_ret_eq _ _ _ _ _ _ _ Hl (lex_part s Hwf))
    as (start & _ & _ & _ & Hlx).
  destruct Hlx; simpl; try discriminate.
  - apply ident_type_not_EQUAL.
  - eapply op_kind_not_EQUAL; eassumption.
Qed.

Lemma lex_never_EQUAL_witness :
  let s := init (source "a = b") in
  let s1 := moved s 1 in
  wf s1 /\ lex s1 = Ret (make_token " " ASSIGN) (moved s 3)
  /\ ASSIGN <> EQUAL.
Proof.
  intros s s1.
  assert (Hwf : wf s1) by (unfold wf; simpl; lia).
  assert (Hl : lex s1 = Ret (make_token " " ASSIGN) (moved s 3))
    by reflexivity.
  split; [exact Hwf|]. split; [exact Hl|].
  exact (lex_never_EQUAL s1 _ _ Hwf Hl).
Defined.

(** ** Beyond the claims: single bytes *)

(** X5: on each of the thirteen operator bytes the scanner consumes that
    byte alone, leaves [line] as it is, and returns the kind of the byte's
    case with, as text, the C string of the byte that follows it. *)
Theorem lex_operator_byte :
  forall s k, wf s -> op_kind (cur s) = Some k ->
    lex s = Ret (make_token (cstr [next s]) k) (moved s 1).
Proof.
  intros s k Hwf Hop.
  destruct (op_kind_class _ _ Hop) as (Hl & Hz & Hsp & Hal & Hd).
  rewrite lex_dispatch by assumption. rewrite Hal, Hd.
  rewrite lex_switch_op_kind, Hop.
  unfold bind. rewrite (advance_eat (cur s)), eat_moved by auto.
  unfold ret. rewrite deref_wf.
  - now rewrite cur_moved_1.
  - rewrite <- eat_moved by assumption. now apply wf_eat.
Qed.

Lemma lex_operator_byte_witness :
  let s := moved (init (source "a<=b")) 1 in
  wf s /\ op_kind (cur s) = Some LT
  /\ lex s = Ret (make_token "=" LT) (moved s 1).
Proof.
  intros s.
  assert (Hwf : wf s) by (unfold wf; simpl; lia).
  assert (Hop : op_kind (cur s) = Some LT) by reflexivity.
  split; [exact Hwf|]. split; [exact Hop|].
  exact (lex_operator_byte s LT Hwf Hop).
Defined.

Lemma unknown_byte_elim c :
  unknown_byte c = true ->
  isspace c = false /\ isalpha c || Ascii.eqb c "_" = false
  /\ isdigit c = false /\ op_kind c = None
  /\ Ascii.eqb c ":" = false /\ Ascii.eqb c "{" = false
  /\ Ascii.eqb c NUL = false.
Proof.
  unfold unknown_byte. intros H. apply negb_true_iff in H.
  apply orb_false_iff in H. destruct H as [H Hnul].
  apply orb_false_iff in H. destruct H as [H Hbr].
  apply orb_false_iff in H. destruct H as [H Hco].
  apply orb_false_iff in H. destruct H as [H Hop].
  apply orb_false_iff in H. destruct H as [H Hdg].
  apply orb_false_iff in H. destruct H as [H Hus].
  apply orb_false_iff in H. destruct H as [Hsp Hal].
  repeat split; auto.
  - now rewrite Hal, Hus.
  - destruct (op_kind c); [discriminate | reflexivity].
Qed.

(** X6: a byte that is not white space, a letter, an underscore, a digit,
    an operator byte, [:], an opening brace or NUL is fatal where a token
    would start: the call dies with the "Unkown token" diagnostic naming
    the byte and leaves the cursor and [line] as they were.  Every byte
    above 127 is such a byte, and so is a closing brace. *)
Theorem lex_unknown_byte :
  (forall s, wf s -> unknown_byte (cur s) = true ->
     lex s = Exit s (unknown_token false (cur s)))
  /\ (forall c, 128 <= nat_of_ascii c -> unknown_byte c = true)
  /\ unknown_byte "}" = true.
Proof.
  split; [|split; [|reflexivity]].
  - intros s Hwf Hu.
    destruct (unknown_byte_elim _ Hu) as (Hsp & Hal & Hd & Hop & H1 & H2 & H3).
    rewrite lex_dispatch by assumption. rewrite Hal, Hd.
    rewrite lex_switch_op_kind, Hop, H1, H2, H3. reflexivity.
  - intros c H. apply Nat.leb_le in H. revert H.
    destruct c as [[] [] [] [] [] [] [] []]; intros H;
      try reflexivity; vm_compute in H; discriminate H.
Qed.

Lemma lex_unknown_byte_witness :
  let s := moved (init (source "x ! y")) 2 in
  wf s /\ unknown_byte (cur s) = true
  /\ lex s = Exit s (unknown_token false "!").
Proof.
  intros s.
  assert (Hwf : wf s) by (unfold wf; simpl; lia).
  assert (Hu : unknown_byte (cur s) = true) by reflexivity.
  split; [exact Hwf|]. split; [exact Hu|].
  exact (proj1 lex_unknown_byte s Hwf Hu).
Defined.

(** ** Beyond the claims: white space, re-scanning, the size of the output *)

(** X7: white space before a token is passed over without a token of its
    own: the call equals the call made after the white space, with [line]
    incremented once for each newline in it. *)
Theorem lex_skips_white_space :
  forall s ws tail,
    wf s -> rest s = ws ++ tail ->
    Forall (fun c => isspace c = true) ws -> isspace (hd NUL tail) = false ->
    lex s = lex (mkState (mem s) (List.length ws + source_buf s)
                         (Nat.iter (newlines ws) incr (line s)) (stdout s)).
Proof.
  intros s ws tail Hwf Hrest Hws Htail.
  pose proof (skip_space_spec s Hwf) as H. unfold wp in H.
  destruct (skip_space s) as [[] s1| | |] eqn:Hs; try contradiction.
  destruct H as (Ha & Hw1 & Hsp & Hall).
  rewrite (lex_after_space s s1 Hwf Hs). f_equal.
  unfold wf in Hw1. rewrite (adv_mem _ _ Ha) in Hw1.
  rewrite (cur_adv _ _ (adv_mem _ _ Ha)) in Hsp.
  assert (Hpos : source_buf s1 = source_buf s + List.length ws).
  { apply (stop_at (fun c => isspace c = true) (mem s) _ _ ws tail);
      auto using adv_le; congruence. }
  apply state_eq; auto using adv_mem, adv_stdout; [lia|].
  rewrite (adv_line _ _ Ha), Hpos.
  now rewrite (span_prefix _ _ ws tail).
Qed.

Lemma lex_skips_white_space_witness :
  let s := moved (init (source "a
	 b")) 1 in
  wf s /\ rest s = source "
	 " ++ source "b"
  /\ lex s = lex (mkState (mem s) 4 2 []).
Proof.
  intros s.
  assert (Hwf : wf s) by (unfold wf; simpl; lia).
  assert (Hrest : rest s = source "
	 " ++ source "b") by reflexivity.
  split; [exact Hwf|]. split; [exact Hrest|].
  refine (lex_skips_white_space s _ _ Hwf Hrest _ _).
  - repeat constructor.
  - reflexivity.
Defined.

Lemma text_length l : String.length (text l) = List.length l.
Proof. induction l; simpl; auto. Qed.

Lemma rest_init l : rest (init l) = l.
Proof. reflexivity. Qed.

Lemma op_kind_not_word c k : op_kind c = Some k -> is_word k = false.
Proof.
  unfold op_kind.
  repeat match goal with
         | |- context [if ?b then _ else _] =>
             destruct b; [intros H; injection H as <-; reflexivity|]
         end.
  discriminate.
Qed.

(** X8: the text of an identifier, keyword or number token that a call
    returns, wherever the call started, scanned again as a text of its own
    gives back the same token, text and kind, and is consumed to its
    end. *)
Theorem rescan_gives_same_token :
  forall s t s', wf s -> lex s = Ret t s' -> is_word (type t) = true ->
    let again := init (list_ascii_of_string (value t)) in
    lex again = Ret t (moved again (String.length (value t))).
Proof.
  intros s t s' Hwf Hl Hk. cbv zeta.
  assert (E : forall l, list_ascii_of_string (text l) = l)
    by (intros l; apply list_ascii_of_string_of_list_ascii).
  destruct (wp_ret_eq _ _ _ _ _ _ _ Hl (lex_part s Hwf))
    as (start & _ & _ & _ & Hlx).
  destruct Hlx as [c l Hc Hall Hstop | c l Hall Hstop Hr | | c k Hop | Hend];
    cbn [value type] in *; try discriminate.
  - rewrite E, text_length.
    assert (Hrun : ident_run (init (c :: l)) = c :: l).
    { unfold ident_run. rewrite rest_init. apply take_while_id.
      constructor; [now apply isalpha_identchar | assumption]. }
    rewrite (lex_ident (init (c :: l)) (wf_init _)) by exact Hc.
    now rewrite Hrun.
  - rewrite E, text_length.
    assert (Hrun : digit_run (init (c :: l)) = c :: l).
    { unfold digit_run. rewrite rest_init. now apply take_while_id. }
    rewrite (lex_number (init (c :: l)) (wf_init _))
      by (now inversion Hall).
    rewrite Hrun. apply Z.leb_le in Hr. now rewrite Hr.
  - rewrite (op_kind_not_word _ _ Hop) in Hk. discriminate.
Qed.

Lemma rescan_gives_same_token_witness :
  let s := init (source "x := {n} 0042;") in
  let s1 := moved s 4 in
  let t := make_token "0042" NUMBER in
  wf s1
  /\ lex s1 = Ret t (moved s 13)
  /\ is_word (type t) = true
  /\ lex (init (source "0042")) = Ret t (moved (init (source "0042")) 4).
Proof.
  intros s s1 t.
  assert (Hwf : wf s1) by (unfold wf; simpl; lia).
  assert (Hl : lex s1 = Ret t (moved s 13)) by reflexivity.
  assert (Hk : is_word (type t) = true) by reflexivity.
  split; [exact Hwf|]. split; [exact Hl|]. split; [exact Hk|].
  exact (rescan_gives_same_token s1 t _ Hwf Hl Hk).
Defined.

Lemma drive_count s toks s' :
  drive s toks s' -> wf s ->
  List.length toks + source_buf s <= source_buf s'.
Proof.
  induction 1 as [s | s t s1 toks s' Hl Ht Hd IH]; intros Hwf; simpl; [lia|].
  pose proof (wp_ret_eq _ _ _ _ _ _ _ Hl (lex_spec s Hwf)) as (_ & Hw & Hlt).
  specialize (Hlt Ht). specialize (IH Hw). simpl in IH. lia.
Qed.

(** X9: every round of the driver loop but the last consumes at least one
    byte and stays in the text: a call that returns a token of another kind
    than DOT has moved the cursor forward, and the rounds that printed
    [toks] have moved it by at least the number of these tokens; so a run
    prints at most one token more than the text has bytes. *)
Theorem tokens_bounded_by_text :
  (forall s t s',
     wf s -> lex s = Ret t s' -> type t <> DOT ->
     source_buf s < source_buf s' /\ source_buf s' <= List.length (mem s))
  /\ (forall s toks s',
        wf s -> drive s toks s' ->
        List.length toks + source_buf s <= source_buf s'
        /\ source_buf s' <= List.length (mem s))
  /\ (forall file,
        List.length (tokens_of (output (main file))) <= S (List.length file)).
Proof.
  split; [|split].
  - intros s t s' Hwf Hl Ht.
    pose proof (wp_ret_eq _ _ _ _ _ _ _ Hl (lex_spec s Hwf)) as (Ha & Hw & Hlt).
    unfold wf in Hw. rewrite (adv_mem _ _ Ha) in Hw. auto.
  - intros s toks s' Hwf Hd. split; [now apply drive_count|].
    destruct (drive_inv _ _ _ Hd Hwf) as (Hw1 & _).
    unfold wf in Hw1. now rewrite (drive_mem _ _ _ Hd Hwf) in Hw1.
  - intros file. pose proof (main_output file) as H.
    pose proof (wf_init file) as Hwf.
    destruct (main file) as [[] s'|s' msg| |]; try contradiction; simpl.
    + destruct H as (toks & s1 & tl & s2 & Hd & _ & _ & Ho & _).
      rewrite Ho, tokens_of_app, tokens_of_print_all. simpl.
      rewrite app_nil_r, length_app. simpl.
      pose proof (drive_count _ _ _ Hd Hwf) as Hc.
      destruct (drive_inv _ _ _ Hd Hwf) as (Hw1 & _).
      unfold wf in Hw1. rewrite (drive_mem _ _ _ Hd Hwf) in Hw1.
      simpl in Hw1. lia.
    + destruct H as (toks & s1 & Hd & _ & Ho).
      rewrite Ho, tokens_of_print_all.
      pose proof (drive_count _ _ _ Hd Hwf) as Hc.
      destruct (drive_inv _ _ _ Hd Hwf) as (Hw1 & _).
      unfold wf in Hw1. rewrite (drive_mem _ _ _ Hd Hwf) in Hw1.
      simpl in Hw1. lia.
Qed.

Lemma tokens_bounded_by_text_witness :
  let s := init (source "a+b") in
  let s1 := put (moved s 1) (PToken 1 (make_token "a" IDENT)) in
  let s2 := put (moved s1 1) (PToken 1 (make_token "b" PLUS)) in
  wf s
  /\ drive s [(1%N, make_token "a" IDENT); (1%N, make_token "b" PLUS)] s2
  /\ 2 + source_buf s <= source_buf s2
  /\ source_buf s2 <= 3.
Proof.
  intros s s1 s2.
  assert (Hwf : wf s) by apply wf_init.
  assert (Hd : drive s [(1%N, make_token "a" IDENT);
                        (1%N, make_token "b" PLUS)] s2).
  { apply (drive_cons s (make_token "a" IDENT) (moved s 1));
      [reflexivity | discriminate |].
    apply (drive_cons s1 (make_token "b" PLUS) (moved s1 1));
      [reflexivity | discriminate |].
    apply drive_nil. }
  split; [exact Hwf|]. split; [exact Hd|].
  exact (proj1 (proj2 tokens_bounded_by_text) s _ s2 Hwf Hd).
Defined.

(** X10: the names [stringify] gives to the kinds are pairwise distinct,
    and none of them is the name kept for an unknown kind. *)
Theorem stringify_names_distinct :
  (forall a b, stringify a = stringify b -> a = b)
  /\ (forall a, stringify a <> "UNKNOWN"%string).
Proof.
  split; [exact stringify_inj|]. intros a. destruct a; discriminate.
Qed.

(** ** Beyond the claims: allocation failures *)

(** The scanner of [Alloc] is compared with the scanner above pass by
    pass: as long as [malloc] returns a block the two do the same; when it
    returns NULL, [Alloc] dies on the spot, with "Malloc failed". *)

Lemma later_refl h : later h h.
Proof. now exists 0. Qed.

Lemma later_next h h' : later (fun k => h (S k)) h' -> later h h'.
Proof.
  intros (n & H). exists (S n). intros k. rewrite H. reflexivity.
Qed.

Lemma later_trans h1 h2 h3 : later h1 h2 -> later h2 h3 -> later h1 h3.
Proof.
  intros (n & H) (m & H'). exists (n + m). intros k.
  rewrite H', H. f_equal. lia.
Qed.

Lemma fails_later h h' : later h h' -> fails h' -> fails h.
Proof. intros (n & H) (k & Hk). exists (n + k). now rewrite <- H. Qed.

Lemma fails_next h : fails (fun k => h (S k)) -> fails h.
Proof. intros (k & Hk). now exists (S k). Qed.

Lemma fails_now h : h 0 = false -> fails h.
Proof. intros H. now exists 0. Qed.

Lemma alloc_died_trans s s1 s2 msg :
  adv s s1 -> blank (span (mem s) (source_buf s) (source_buf s1)) ->
  alloc_died s1 s2 msg -> alloc_died s s2 msg.
Proof.
  intros Ha Hb (Hm & Ha' & Hw & start & Hle1 & Hle2 & Hb' & Hf).
  rewrite (adv_mem _ _ Ha) in Hb', Hf. pose proof (adv_le _ _ Ha).
  split; [assumption|]. split; [eapply adv_trans; eassumption|].
  split; [assumption|].
  exists start. split; [lia|]. split; [assumption|]. split; [|assumption].
  rewrite (span_split _ _ (source_buf s1)) by lia. now apply blank_app.
Qed.

Lemma alloc_died_here s s' :
  adv s s' -> wf s' -> no_memory (mem s) (source_buf s) (source_buf s') ->
  alloc_died s s' malloc_failed.
Proof.
  intros Ha Hw H. split; [reflexivity|]. split; [assumption|].
  split; [assumption|]. exists (source_buf s).
  split; [lia|]. split; [apply Ha|]. split; [|assumption].
  rewrite span_nil. constructor.
Qed.

(** The copy of a run of bytes: a block or the end. *)
Lemma get_token_refines h startp s :
  wf s -> startp <= source_buf s ->
  Alloc.get_token startp (source_buf s) h s =
  if h 0 then Ret (cstr (span (mem s) startp (source_buf s)),
                   fun k => h (S k)) s
  else Exit s malloc_failed.
Proof.
  intros Hwf Hle. unfold Alloc.get_token, Alloc.bind, Alloc.malloc.
  destruct (h 0); simpl; [|reflexivity].
  unfold Alloc.lift. now rewrite get_token_wf.
Qed.

Lemma ident_refines h s :
  wf s -> isalpha (cur s) || Ascii.eqb (cur s) "_" = true ->
  refines h (alloc_died s) (Alloc.ident h s) (ident s).
Proof.
  intros Hwf Hal.
  pose proof (isalpha_identchar _ Hal) as Hid.
  pose proof (ident_loop_spec (fuel s) s Hwf (fuel_enough s)) as H.
  unfold wp in H. unfold Alloc.ident, ident.
  unfold Alloc.bind at 1. unfold bind at 1. unfold Alloc.lift at 1.
  unfold get_source_buf at 1 3.
  unfold Alloc.bind at 1. unfold bind at 1. unfold Alloc.lift at 1.
  destruct (ident_loop (fuel s) s) as [[] s'| | |]; try contradiction.
  destruct H as (Ha & Hw & Hn & Hl & Hall).
  unfold Alloc.bind at 1. unfold bind at 1. unfold Alloc.lift at 1.
  unfold get_source_buf.
  unfold Alloc.bind. unfold bind.
  rewrite get_token_refines, get_token_wf by (auto using adv_le).
  destruct (h 0) eqn:Hh; simpl.
  - split; [reflexivity|]. apply later_next, later_refl.
  - right. split; [now apply fails_now|].
    apply alloc_died_here; auto.
    assert (Hlt : source_buf s < source_buf s').
    { pose proof (adv_le _ _ Ha).
      destruct (Nat.eq_dec (source_buf s) (source_buf s')) as [E|E]; [|lia].
      rewrite (cur_same s s') in Hn by (auto using adv_mem). congruence. }
    unfold wf in Hw. rewrite (adv_mem _ _ Ha) in Hw.
    rewrite (cur_adv _ _ (adv_mem _ _ Ha)) in Hn.
    now apply no_memory_ident.
Qed.

Lemma number_refines h s :
  wf s -> isdigit (cur s) = true ->
  refines h (alloc_died s) (Alloc.number h s) (number s).
Proof.
  intros Hwf Hdg.
  pose proof (number_loop_spec (fuel s) s Hwf (fuel_enough s)) as H.
  unfold wp in H. unfold Alloc.number, number.
  unfold Alloc.bind at 1. unfold bind at 1. unfold Alloc.lift at 1.
  unfold get_source_buf at 1 3.
  unfold Alloc.bind at 1. unfold bind at 1. unfold Alloc.lift at 1.
  destruct (number_loop (fuel s) s) as [[] s'| | |]; try contradiction.
  destruct H as (Ha & Hw & Hn & Hl & Hall).
  unfold Alloc.bind at 1. unfold bind at 1. unfold Alloc.lift at 1.
  unfold get_source_buf.
  unfold Alloc.bind at 1. unfold bind at 1.
  rewrite get_token_refines, get_token_wf by (auto using adv_le).
  destruct (h 0) eqn:Hh.
  - unfold Alloc.bind, bind, Alloc.die, Alloc.lift, Alloc.ret, die, ret.
    destruct (negb _); simpl; auto.
    split; [reflexivity|]. apply later_next, later_refl.
  - right. split; [now apply fails_now|].
    apply alloc_died_here; auto.
    assert (Hlt : source_buf s < source_buf s').
    { pose proof (adv_le _ _ Ha).
      destruct (Nat.eq_dec (source_buf s) (source_buf s')) as [E|E]; [|lia].
      rewrite (cur_same s s') in Hn by (auto using adv_mem). congruence. }
    unfold wf in Hw. rewrite (adv_mem _ _ Ha) in Hw.
    rewrite (cur_adv _ _ (adv_mem _ _ Ha)) in Hn.
    now apply no_memory_number.
Qed.

Lemma refines_trans T h (o : outcome (T * heap)) (o' : outcome T) s s1 :
  adv s s1 -> blank (span (mem s) (source_buf s) (source_buf s1)) ->
  refines h (alloc_died s1) o o' -> refines h (alloc_died s) o o'.
Proof.
  intros Ha Hb. unfold refines.
  destruct o as [[a h'] s'|s' msg| |]; auto.
  intros [H | (Hf & H)]; [now left | right].
  split; [assumption|]. eapply alloc_died_trans; eassumption.
Qed.

Lemma refines_next T h D (o : outcome (T * heap)) (o' : outcome T) :
  refines (fun k => h (S k)) D o o' -> refines h D o o'.
Proof.
  unfold refines. destruct o as [[a h'] s'|s' msg| |]; auto.
  - intros (H & Hl). split; [assumption | now apply later_next].
  - intros [H | (Hf & H)]; [now left | right].
    split; [now apply fails_next | assumption].
Qed.

Lemma lex_body_refines (again_a : Alloc.A token) (again : M token) h s :
  wf s ->
  (forall h1 s1, wf s1 -> adv s s1 -> source_buf s < source_buf s1 ->
                 refines h1 (alloc_died s1) (again_a h1 s1) (again s1)) ->
  refines h (alloc_died s) (Alloc.lex_body again_a h s) (lex_body again s).
Proof.
  intros Hwf Hagain.
  pose proof (skip_space_spec s Hwf) as H. unfold wp in H.
  unfold Alloc.lex_body, lex_body.
  unfold Alloc.bind at 1. unfold bind at 1. unfold Alloc.lift at 1.
  destruct (skip_space s) as [[] s1| | |]; try contradiction.
  destruct H as (Ha1 & Hw1 & Hsp1 & Hall1).
  pose proof (blank_spaces _ Hall1) as Hb1.
  unfold Alloc.bind at 1. unfold bind at 1. unfold Alloc.lift at 1.
  rewrite deref_wf by assumption.
  apply (refines_trans _ _ _ _ s s1); [assumption | assumption |].
  destruct (isalpha (cur s1) || Ascii.eqb (cur s1) "_") eqn:Hal.
  { now apply ident_refines. }
  destruct (isdigit (cur s1)) eqn:Hdg.
  { now apply number_refines. }
  unfold Alloc.bind at 1. unfold Alloc.malloc at 1.
  destruct (h 0) eqn:Hh.
  2:{ right. split; [now apply fails_now|].
      apply alloc_died_here; [apply adv_refl | assumption |].
      now apply no_memory_value. }
  apply refines_next.
  unfold Alloc.bind at 1. cbn [negb Alloc.ret].
  pose proof (wp_and _ _ _ _ _ _ _ (lex_switch_spec s1 Hw1)
                (lex_switch_part s1 Hw1 Hsp1 Hal Hdg)) as Hs.
  unfold wp in Hs.
  unfold Alloc.bind at 1. unfold bind at 1. unfold Alloc.lift at 1.
  destruct (lex_switch (cur s1) s1) as [e s2|s2 msg| |]; try contradiction.
  - destruct Hs as ((Ha & Hw & He) & Hp). destruct e as [k | t |].
    + unfold Alloc.bind, bind, Alloc.lift, Alloc.ret, ret.
      rewrite deref_wf by assumption.
      split; [reflexivity | apply later_refl].
    + unfold Alloc.ret, ret. split; [reflexivity | apply later_refl].
    + simpl in Hp. pose proof (adv_le _ _ Ha1).
      apply (refines_trans _ _ _ _ s1 s2); [assumption | assumption |].
      apply Hagain; [assumption | eapply adv_trans; eassumption | lia].
  - now left.
Qed.

Lemma lex_loop_refines n h s :
  wf s -> refines h (alloc_died s) (Alloc.lex_loop n h s) (lex_loop n s).
Proof.
  revert h s. induction n as [|n IH]; intros h s Hwf; [reflexivity|].
  cbn [Alloc.lex_loop lex_loop]. apply lex_body_refines; [assumption|].
  intros h1 s1 Hw1 _ _. now apply IH.
Qed.

Lemma lex_refines h s :
  wf s -> refines h (alloc_died s) (Alloc.lex h s) (lex s).
Proof. intros H. now apply lex_loop_refines. Qed.

Lemma alloc_stopped_cons s t s1 s' msg :
  lex s = Ret t s1 -> type t <> DOT ->
  alloc_stopped (put s1 (PToken (line s1) t)) s' msg ->
  alloc_stopped s s' msg.
Proof.
  intros Hl Ht (toks & s2 & Hd & H).
  exists ((line s1, t) :: toks), s2. split; [|assumption].
  econstructor; eassumption.
Qed.

Lemma parse_loop_refines n t h s :
  wf s ->
  refines h (alloc_stopped s) (Alloc.parse_loop n t h s) (parse_loop n t s).
Proof.
  revert t h s. induction n as [|n IH]; intros t h s Hwf; [reflexivity|].
  cbn [Alloc.parse_loop parse_loop].
  destruct (is_DOT (type t)) eqn:Ht.
  { split; [reflexivity | apply later_refl]. }
  pose proof (lex_refines h s Hwf) as Hr. unfold refines in Hr.
  unfold Alloc.bind at 1. unfold bind at 1.
  destruct (Alloc.lex h s) as [[t1 h1] s1|s1 msg|s1|s1].
  - destruct Hr as (Hl & Hlater). rewrite Hl.
    pose proof (wp_ret_eq _ _ _ _ _ _ _ Hl (lex_spec s Hwf)) as (Ha & Hw & _).
    unfold Alloc.bind at 1. unfold bind at 1. unfold Alloc.lift at 1.
    unfold get_line at 1 2.
    unfold Alloc.bind at 1. unfold bind at 1. unfold Alloc.lift at 1.
    unfold print at 1 2. fold (put s1 (PToken (line s1) t1)).
    assert (Hw' : wf (put s1 (PToken (line s1) t1))) by exact Hw.
    specialize (IH t1 h1 _ Hw').
    destruct (is_DOT (type t1)) eqn:Ht1.
    + destruct n as [|n]; [reflexivity|].
      cbn [Alloc.parse_loop parse_loop]. rewrite Ht1.
      split; [reflexivity | assumption].
    + apply is_DOT_false in Ht1. unfold refines in *.
      destruct (Alloc.parse_loop n t1 h1 _) as [[[] h2] s2|s2 msg| |];
        auto.
      * destruct IH as (E & Hl2). split; [assumption|].
        eapply later_trans; eassumption.
      * destruct IH as [E | (Hf & Hd)]; [now left | right].
        split; [eapply fails_later; eassumption|].
        eapply alloc_stopped_cons; eassumption.
  - destruct Hr as [Hl | (Hf & Hd)].
    + left. now rewrite Hl.
    + right. split; [assumption|].
      exists [], s. split; [constructor | assumption].
  - now rewrite Hr.
  - now rewrite Hr.
Qed.

(** A run in which allocations can fail, against the run in which none
    does. *)
Lemma main_refines h file :
  match Alloc.main h file with
  | Ret _ s' => main file = Ret tt s'
  | Exit s' msg =>
      main file = Exit s' msg
      \/ (fails h /\ alloc_stopped (init file) s' msg)
  | Fault _ | Timeout _ => False
  end.
Proof.
  pose proof (parse_loop_refines (fuel (init file)) (make_token "" IDENT) h
                (init file) (wf_init file)) as H.
  pose proof (main_output file) as Hm.
  unfold Alloc.main, Alloc.exec, Alloc.parse. unfold main, parse in *.
  unfold refines in H.
  destruct (Alloc.parse_loop _ _ h (init file)) as [[[] h'] s'|s' msg|s'|s'].
  - apply H.
  - exact H.
  - now rewrite H in Hm.
  - now rewrite H in Hm.
Qed.

Lemma main_no_failure h file :
  (forall k, h k = true) -> Alloc.main h file = main file.
Proof.
  intros Hall. pose proof (main_refines h file) as H.
  destruct (Alloc.main h file) as [[] s'|s' msg| |]; try contradiction.
  - now rewrite H.
  - destruct H as [H | ((k & Hk) & _)]; [now rewrite H|].
    rewrite Hall in Hk. discriminate.
Qed.



(** X18: the scanner with allocation failures against the scanner
    without: a call that returns, returns the same token in the same
    state; a call that dies with another diagnostic than "Malloc failed"
    dies in the same state with the same diagnostic; when every block is
    granted the two calls have the same outcome; and a call always either
    returns or dies. *)
Theorem alloc_lex_refines_lex :
  forall h s, wf s ->
    (forall t h' s', Alloc.lex h s = Ret (t, h') s' -> lex s = Ret t s')
    /\ (forall s' msg,
          Alloc.lex h s = Exit s' msg -> msg <> malloc_failed ->
          lex s = Exit s' msg)
    /\ ((forall k, h k = true) -> Alloc.exec Alloc.lex h s = lex s)
    /\ exit_status (Alloc.lex h s) <> None.
Proof.
  intros h s Hwf. pose proof (lex_refines h s Hwf) as H.
  pose proof (lex_spec s Hwf) as Hs. unfold wp in Hs.
  unfold Alloc.exec. unfold refines in H.
  destruct (Alloc.lex h s) as [[t h'] s'|s' msg|s'|s'].
  - destruct H as (H & _).
    split; [intros ? ? ? E; now inversion E; subst|].
    split; [discriminate|]. split; [now rewrite H | discriminate].
  - split; [discriminate|]. split; [|split; [|discriminate]].
    + intros ? ? E Hm. inversion E; subst.
      destruct H as [H | (_ & Hd & _)]; [assumption | contradiction].
    + intros Hall. destruct H as [H | ((k & Hk) & _)]; [now rewrite H|].
      rewrite Hall in Hk. discriminate.
  - now rewrite H in Hs.
  - now rewrite H in Hs.
Qed.

Lemma alloc_lex_refines_lex_witness :
  let h : heap := fun k => negb (k =? 1) in
  let s := init (source "a b") in
  wf s
  /\ Alloc.lex h s = Ret (make_token "a" IDENT, fun k => h (S k)) (moved s 1)
  /\ lex s = Ret (make_token "a" IDENT) (moved s 1).
Proof.
  intros h s.
  assert (Hwf : wf s) by apply wf_init.
  assert (Hl : Alloc.lex h s
               = Ret (make_token "a" IDENT, fun k => h (S k)) (moved s 1))
    by reflexivity.
  split; [exact Hwf|]. split; [exact Hl|].
  exact (proj1 (alloc_lex_refines_lex h s Hwf) _ _ _ Hl).
Defined.

(** X19: the same for whole runs of the driver loop: a run that ends
    normally has the state and the output of the run in which no allocation
    fails, a run that dies with another diagnostic than "Malloc failed"
    dies as that run does, with every block granted the two runs are the
    same, and a run always ends with status 0 or 1. *)
Theorem alloc_run_refines_run :
  forall h file,
    (forall s', Alloc.main h file = Ret tt s' -> main file = Ret tt s')
    /\ (forall s' msg,
          Alloc.main h file = Exit s' msg -> msg <> malloc_failed ->
          main file = Exit s' msg)
    /\ ((forall k, h k = true) -> Alloc.main h file = main file)
    /\ exit_status (Alloc.main h file) <> None.
Proof.
  intros h file. pose proof (main_refines h file) as H.
  split; [|split; [|split]].
  - intros s' E. now rewrite E in H.
  - intros s' msg E Hm. rewrite E in H.
    destruct H as [H | (_ & toks & s1 & _ & Hd & _)];
      [assumption | contradiction].
  - apply main_no_failure.
  - destruct (Alloc.main h file); try contradiction; discriminate.
Qed.

Lemma loop_run (p : ascii -> bool) (loop : M unit) s :
  wf s ->
  wp loop s
     (fun _ s' => adv s s' /\ wf s' /\ p (cur s') = false
                  /\ line s' = line s
                  /\ Forall (fun c => p c = true)
                            (span (mem s) (source_buf s) (source_buf s')))
     (fun _ _ => False) ->
  loop s = Ret tt (moved s (List.length (take_while p (rest s)))).
Proof.
  intros Hwf H. unfold wp in H.
  destruct (loop s) as [[] s'| | |]; try contradiction.
  destruct H as (Ha & Hw & Hstop & Hl & Hall).
  unfold wf in Hw. rewrite (adv_mem _ _ Ha) in Hw.
  rewrite (cur_adv _ _ (adv_mem _ _ Ha)) in Hstop.
  destruct (span_take_while p (mem s) (source_buf s) (source_buf s'))
    as (_ & Hpos); auto using adv_le.
  f_equal. apply state_eq; auto using adv_mem, adv_stdout.
  unfold rest. lia.
Qed.

(** X20: a refused block is fatal where it is asked for: when the answer
    to the next call of [malloc] is NULL, a call of the scanner on a byte
    that is not white space dies with "Malloc failed", after the whole run
    of an identifier or number and on the spot for any other byte, the
    terminating NUL included. *)
Theorem refused_block_is_fatal :
  forall h s, wf s -> isspace (cur s) = false -> h 0 = false ->
    Alloc.lex h s =
    Exit (moved s (if isalpha (cur s) || Ascii.eqb (cur s) "_"
                   then List.length (ident_run s)
                   else if isdigit (cur s) then List.length (digit_run s)
                   else 0))
         malloc_failed.
Proof.
  intros h s Hwf Hsp Hh.
  unfold Alloc.lex, fuel. cbn [plus Alloc.lex_loop]. unfold Alloc.lex_body.
  unfold Alloc.bind at 1. unfold Alloc.lift at 1.
  rewrite skip_space_none by assumption.
  unfold Alloc.bind at 1. unfold Alloc.lift at 1.
  rewrite deref_wf by assumption.
  destruct (isalpha (cur s) || Ascii.eqb (cur s) "_").
  { unfold Alloc.ident.
    unfold Alloc.bind at 1. unfold Alloc.lift at 1. unfold get_source_buf at 1.
    unfold Alloc.bind at 1. unfold Alloc.lift at 1.
    rewrite (loop_run identchar _ s Hwf
               (ident_loop_spec (fuel s) s Hwf (fuel_enough s))).
    unfold Alloc.bind at 1. unfold Alloc.lift at 1. unfold get_source_buf at 1.
    unfold Alloc.bind at 1.
    unfold Alloc.get_token, Alloc.bind, Alloc.malloc. rewrite Hh.
    reflexivity. }
  destruct (isdigit (cur s)).
  { unfold Alloc.number.
    unfold Alloc.bind at 1. unfold Alloc.lift at 1. unfold get_source_buf at 1.
    unfold Alloc.bind at 1. unfold Alloc.lift at 1.
    rewrite (loop_run isdigit _ s Hwf
               (number_loop_spec (fuel s) s Hwf (fuel_enough s))).
    unfold Alloc.bind at 1. unfold Alloc.lift at 1. unfold get_source_buf at 1.
    unfold Alloc.bind at 1.
    unfold Alloc.get_token, Alloc.bind, Alloc.malloc. rewrite Hh.
    reflexivity. }
  unfold Alloc.bind, Alloc.malloc. rewrite Hh. simpl.
  now destruct s.
Qed.

Lemma refused_block_is_fatal_witness :
  let h : heap := fun _ => false in
  let s := init (source "ab+") in
  wf s /\ isspace (cur s) = false /\ h 0 = false
  /\ Alloc.lex h s = Exit (moved s 2) malloc_failed.
Proof.
  intros h s.
  assert (Hwf : wf s) by (unfold wf; simpl; lia).
  assert (Hsp : isspace (cur s) = false) by reflexivity.
  assert (Hh : h 0 = false) by reflexivity.
  split; [exact Hwf|]. split; [exact Hsp|]. split; [exact Hh|].
  exact (refused_block_is_fatal h s Hwf Hsp Hh).
Defined.

(** ** Beyond the claims: reading the file and the program *)

Lemma strrchr_tail s c r :
  strrchr s c = Some r -> exists pre, s = (pre ++ r)%string.
Proof.
  revert r. induction s as [|a s IH]; intros r H; simpl in H.
  - destruct (Ascii.eqb c NUL); [|discriminate].
    injection H as <-. now exists EmptyString.
  - destruct (strrchr s c) as [r0|].
    + injection H as <-. destruct (IH r0 eq_refl) as (pre & ->).
      now exists (String a pre).
    + destruct (Ascii.eqb a c); [|discriminate].
      injection H as <-. now exists EmptyString.
Qed.

Lemma strrchr_pl0 base : strrchr (base ++ ".pl0") "." = Some ".pl0"%string.
Proof. induction base as [|a base IH]; simpl; [reflexivity | now rewrite IH]. Qed.

Lemma lnot_strcmp_iff a b : lnot (strcmp a b) = true <-> a = b.
Proof. rewrite strcmp_eqb. apply String.eqb_eq. Qed.

Lemma suffix_ok_iff file : suffix_ok file = true <-> ends_in_pl0 file.
Proof.
  unfold suffix_ok, ends_in_pl0. split.
  - destruct (strrchr file ".") as [dotp|] eqn:E; [|discriminate].
    intros H. apply lnot_strcmp_iff in H. subst dotp.
    now apply strrchr_tail in E.
  - intros (base & ->). rewrite strrchr_pl0. reflexivity.
Qed.

Lemma readfile_cases sys file s :
  readfile sys file s =
  if suffix_ok file then
    if lnot (sys_open sys file) then Exit s (cannot_open file)
    else
      match sys_fstat sys (sys_open sys file) with
      | None => Exit s "Unable to get file size"
      | Some st_size =>
          if sys_malloc sys 0 then
            match sys_read sys (sys_open sys file) st_size with
            | Some bytes =>
                if (N.of_nat (List.length bytes) =? st_size)%N
                then Ret tt (mkState bytes 0 (line s) (stdout s))
                else Exit s "Unable to read file"
            | None => Exit s "Unable to read file"
            end
          else Exit s "Unable to malloc buffer for file content"
      end
  else Exit s bad_suffix.
Proof.
  unfold readfile, suffix_ok, bind.
  destruct (strrchr file ".") as [dotp|]; [|reflexivity].
  destruct (lnot (strcmp dotp ".pl0")); [|reflexivity]. simpl.
  destruct (lnot (sys_open sys file)); [reflexivity|]. simpl.
  destruct (sys_fstat sys (sys_open sys file)) as [size|]; [|reflexivity].
  destruct (sys_malloc sys 0); [|reflexivity]. simpl.
  destruct (sys_read sys (sys_open sys file) size) as [bytes|]; [|reflexivity].
  destruct (N.of_nat (List.length bytes) =? size)%N; reflexivity.
Qed.

(** X11: [readfile] rejects a name with "File must end in '.pl0'", before
    it asks anything of the system, exactly when the name does not end in
    [.pl0]; the name [.pl0] alone is accepted by this test. *)
Theorem readfile_checks_suffix :
  (forall sys file s,
     readfile sys file s = Exit s bad_suffix <-> ~ ends_in_pl0 file)
  /\ ends_in_pl0 ".pl0".
Proof.
  split; [|now exists EmptyString].
  intros sys file s. rewrite readfile_cases, <- suffix_ok_iff.
  destruct (suffix_ok file).
  - split; [|congruence]. intros H. exfalso.
    destruct (lnot (sys_open sys file)); [discriminate H|].
    destruct (sys_fstat sys (sys_open sys file)) as [size|];
      [|discriminate H].
    destruct (sys_malloc sys 0); [|discriminate H].
    destruct (sys_read sys (sys_open sys file) size) as [bytes|];
      [|discriminate H].
    destruct (N.of_nat (List.length bytes) =? size)%N; discriminate H.
  - split; [congruence | reflexivity].
Qed.

(** X12: once the name has passed, [readfile] reports "Unable to open
    file" exactly when [open] returned the descriptor 0; the -1 of a failed
    [open] passes the test, and the failure is reported by the next step,
    as "Unable to get file size", when [fstat] refuses that descriptor. *)
Theorem readfile_open_test :
  forall sys file s, ends_in_pl0 file ->
    (readfile sys file s = Exit s (cannot_open file)
     <-> sys_open sys file = 0%Z)
    /\ (sys_open sys file = (-1)%Z -> sys_fstat sys (-1)%Z = None ->
        readfile sys file s = Exit s "Unable to get file size").
Proof.
  intros sys file s Hok. apply suffix_ok_iff in Hok.
  rewrite readfile_cases, Hok. split.
  - unfold lnot. destruct (Z.eqb_spec (sys_open sys file) 0) as [E|E].
    + split; auto.
    + split; [|contradiction]. intros H. exfalso.
      destruct (sys_fstat sys (sys_open sys file)) as [size|];
        [|discriminate H].
      destruct (sys_malloc sys 0); [|discriminate H].
      destruct (sys_read sys (sys_open sys file) size) as [bytes|];
        [|discriminate H].
      destruct (N.of_nat (List.length bytes) =? size)%N; discriminate H.
  - intros -> ->. reflexivity.
Qed.

Lemma readfile_open_test_witness :
  let sys := mkSystem (fun _ => (-1)%Z) (fun _ => None) (fun _ _ => None)
                      (fun _ => true) in
  ends_in_pl0 "a.pl0"
  /\ readfile sys "a.pl0" start = Exit start "Unable to get file size".
Proof.
  intros sys.
  assert (Hok : ends_in_pl0 "a.pl0") by (now exists "a"%string).
  split; [exact Hok|].
  exact (proj2 (readfile_open_test sys "a.pl0" start Hok) eq_refl eq_refl).
Defined.

(** X13: when the name ends in [.pl0] and the system opens the file (on a
    descriptor other than 0), tells its size, grants the buffer and delivers
    that many bytes, [readfile] leaves the scanner at the start of a buffer
    with exactly those bytes, on line 1, and the program is the driver loop
    run on them with the answers of [malloc] that are left; when every
    block is granted, it is the run in which no allocation fails. *)
Theorem program_scans_file_content :
  forall sys prog file content,
    ends_in_pl0 file ->
    sys_open sys file <> 0%Z ->
    sys_fstat sys (sys_open sys file)
    = Some (N.of_nat (List.length content)) ->
    sys_malloc sys 0 = true ->
    sys_read sys (sys_open sys file) (N.of_nat (List.length content))
    = Some content ->
    readfile sys file start = Ret tt (init content)
    /\ Pl0c.main sys [prog; file]
       = Ran (Alloc.main (scanner_heap sys) content)
    /\ ((forall k, sys_malloc sys k = true) ->
        Pl0c.main sys [prog; file] = Ran (main content)).
Proof.
  intros sys prog file content Hok Hfd Hst Hmem Hrd.
  apply suffix_ok_iff in Hok.
  assert (E : readfile sys file start = Ret tt (init content)).
  { rewrite readfile_cases, Hok, Hst, Hmem, Hrd, N.eqb_refl.
    unfold lnot. destruct (Z.eqb_spec (sys_open sys file) 0); [contradiction|].
    reflexivity. }
  assert (E' : Pl0c.main sys [prog; file]
               = Ran (Alloc.main (scanner_heap sys) content)).
  { unfold Pl0c.main. simpl. unfold bind. now rewrite E. }
  split; [exact E|]. split; [exact E'|].
  intros Hall. rewrite E'. f_equal. apply main_no_failure.
  intros k. apply Hall.
Qed.

Lemma program_scans_file_content_witness :
  let content := source "x := 5." in
  let sys := mkSystem (fun _ => 3%Z) (fun _ => Some 7%N)
                      (fun _ _ => Some content) (fun _ => true) in
  ends_in_pl0 "t.pl0"
  /\ sys_malloc sys 0 = true
  /\ Pl0c.main sys ["pl0c"; "t.pl0"]%string = Ran (main content).
Proof.
  intros content sys.
  assert (Hok : ends_in_pl0 "t.pl0") by (now exists "t"%string).
  split; [exact Hok|]. split; [reflexivity|].
  refine (proj2 (proj2 (program_scans_file_content sys "pl0c" "t.pl0" content
                          Hok _ eq_refl eq_refl eq_refl)) _).
  - discriminate.
  - reflexivity.
Defined.

Lemma print_all_no_done toks out : print_all toks <> out ++ [PDone].
Proof.
  intros H.
  assert (Hin : In PDone (print_all toks))
    by (rewrite H; apply in_or_app; right; now left).
  unfold print_all in Hin. apply in_map_iff in Hin.
  destruct Hin as (x & Hx & _). discriminate.
Qed.

Lemma main_status file :
  (exit_status (main file) = Some 0%Z \/ exit_status (main file) = Some 1%Z)
  /\ (exit_status (main file) = Some 0%Z
      <-> exists out, output (main file) = out ++ [PDone]).
Proof.
  pose proof (main_output file) as H.
  destruct (main file) as [[] s'|s' msg| |]; try contradiction; simpl.
  - destruct H as (toks & s1 & tl & s2 & _ & _ & _ & Ho & _).
    split; [now left|]. split; [|reflexivity]. intros _. eauto.
  - destruct H as (toks & s1 & _ & _ & Ho).
    split; [now right|]. split; [discriminate|].
    intros (out & H). rewrite Ho in H. now apply print_all_no_done in H.
Qed.

Lemma alloc_main_status h file :
  (exit_status (Alloc.main h file) = Some 0%Z
   \/ exit_status (Alloc.main h file) = Some 1%Z)
  /\ (exit_status (Alloc.main h file) = Some 0%Z
      <-> exists out, output (Alloc.main h file) = out ++ [PDone]).
Proof.
  pose proof (main_refines h file) as H.
  destruct (Alloc.main h file) as [[] s'|s' msg| |] eqn:E; try contradiction.
  - rewrite <- H. apply main_status.
  - destruct H as [H | (_ & toks & s1 & Hd & Hdied)].
    + rewrite <- H. apply main_status.
    + simpl. split; [now right|]. split; [discriminate|].
      intros (out & Ho). exfalso.
      destruct Hdied as (_ & Ha & _).
      destruct (drive_inv _ _ _ Hd (wf_init file)) as (_ & _ & Hs1 & _).
      rewrite (adv_stdout _ _ Ha), Hs1 in Ho. simpl in Ho.
      now apply print_all_no_done in Ho.
Qed.

(** X14: the program always ends, with status 0 or 1; the status is 0
    exactly when the last thing it printed is the closing [done], after
    the tokens.  Without exactly one argument it prints nothing and ends
    with the usage message. *)
Theorem program_status :
  forall sys argv,
    (status (Pl0c.main sys argv) = Some 0%Z
     \/ status (Pl0c.main sys argv) = Some 1%Z)
    /\ (status (Pl0c.main sys argv) = Some 0%Z
        <-> exists out, run_output (Pl0c.main sys argv) = out ++ [PDone])
    /\ (List.length argv <> 2 -> Pl0c.main sys argv = Usage).
Proof.
  intros sys argv. unfold Pl0c.main.
  destruct (Nat.eqb_spec (List.length argv) 2) as [E|E]; simpl.
  - assert (Hfail : forall msg,
              (Some 1%Z = Some 0%Z \/ Some 1%Z = Some 1%Z)
              /\ (Some 1%Z = Some 0%Z
                  <-> exists out, stdout start = out ++ [PDone])
              /\ (List.length argv <> 2 ->
                  Ran (Exit start msg) = Usage)).
    { intros msg. split; [now right|]. split; [|contradiction].
      split; [discriminate|]. intros (out & H). simpl in H.
      now destruct out. }
    unfold bind. rewrite readfile_cases.
    destruct (suffix_ok _); [|apply Hfail].
    destruct (lnot _); [apply Hfail|].
    destruct (sys_fstat _ _) as [size|]; [|apply Hfail].
    destruct (sys_malloc sys 0); [|apply Hfail].
    destruct (sys_read _ _ _) as [bytes|]; [|apply Hfail].
    destruct (N.of_nat (List.length bytes) =? size)%N; [|apply Hfail].
    change (Alloc.exec Alloc.parse (scanner_heap sys)
              (mkState bytes 0 (line start) (stdout start)))
      with (Alloc.main (scanner_heap sys) bytes).
    destruct (alloc_main_status (scanner_heap sys) bytes) as (H1 & H2).
    split; [exact H1|]. split; [exact H2 | contradiction].
  - split; [now right|]. split; [|reflexivity].
    split; [discriminate|]. intros (out & H). now destruct out.
Qed.

Lemma program_status_witness :
  let sys := mkSystem (fun _ => 3%Z) (fun _ => Some 0%N)
                      (fun _ _ => Some []) (fun _ => true) in
  List.length ["pl0c"%string] <> 2 /\ Pl0c.main sys ["pl0c"%string] = Usage.
Proof.
  intros sys.
  assert (H : List.length ["pl0c"%string] <> 2) by discriminate.
  split; [exact H|].
  exact (proj2 (proj2 (program_status sys ["pl0c"%string])) H).
Defined.

(** ** Beyond the claims: a run as a tokenization of the text *)

Lemma firstn_span (m : list ascii) i j :
  i <= j -> firstn j m = firstn i m ++ span m i j.
Proof.
  intros H. rewrite <- !span_from_0. apply span_split; lia.
Qed.

Lemma line_ok_progress s s' :
  progress s s' -> nowrap s -> line_ok s -> line_ok s' /\ nowrap s'.
Proof.
  intros Hp Hnw Hl. destruct (progress_nowrap _ _ Hp Hnw) as (Hline & Hnw').
  split; [|assumption]. unfold line_ok in *.
  rewrite Hline, Hl, (pr_mem _ _ Hp).
  rewrite (firstn_span (mem s) (source_buf s) (source_buf s'))
    by apply (pr_le _ _ Hp).
  rewrite newlines_app. lia.
Qed.

Lemma scanned_snoc m i toks j start k ln t :
  scanned m i toks j ->
  j <= start -> start <= k ->
  blank (span m j start) ->
  lexeme (nth k m NUL) (span m start k) t ->
  ln = (1 + N.of_nat (newlines (firstn start m)))%N ->
  scanned m i (toks ++ [(ln, t)]) k.
Proof.
  induction 1 as [i | i st j' ln' t' toks k' H1 H2 Hb Hlx Hln _ IH];
    intros Hj Hk Hb' Hlx' Hln'; simpl.
  - eapply scanned_cons; eauto. constructor.
  - eapply scanned_cons; eauto.
Qed.

(** One call seen from the text: where its token starts and its line. *)
Lemma lex_scanned s t s' :
  wf s -> nowrap s -> line_ok s -> lex s = Ret t s' ->
  exists start,
    source_buf s <= start /\ start <= source_buf s'
    /\ blank (span (mem s) (source_buf s) start)
    /\ lexeme (nth (source_buf s') (mem s) NUL)
              (span (mem s) start (source_buf s')) t
    /\ line s' = (1 + N.of_nat (newlines (firstn start (mem s))))%N
    /\ line_ok s' /\ nowrap s' /\ wf s' /\ mem s' = mem s.
Proof.
  intros Hwf Hnw Hl Hlex.
  destruct (wp_ret_eq _ _ _ _ _ _ _ Hlex (lex_part s Hwf))
    as (start & H1 & H2 & Hb & Hlx).
  pose proof (wp_ret_eq _ _ _ _ _ _ _ Hlex (lex_spec s Hwf)) as (Ha & Hw & _).
  destruct (line_ok_progress _ _ (adv_progress _ _ Ha) Hnw Hl) as (Hl' & Hnw').
  rewrite (cur_adv _ _ (adv_mem _ _ Ha)) in Hlx.
  exists start. repeat (split; [assumption|]).
  split; [|auto using adv_mem].
  unfold line_ok in Hl'. rewrite Hl', (adv_mem _ _ Ha).
  rewrite (firstn_span (mem s) start (source_buf s')) by assumption.
  now rewrite newlines_app, (lexeme_no_newline _ _ _ Hlx), Nat.add_0_r.
Qed.

Lemma drive_scanned s toks s' :
  drive s toks s' -> wf s -> nowrap s -> line_ok s ->
  scanned (mem s) (source_buf s) toks (source_buf s')
  /\ line_ok s' /\ nowrap s' /\ wf s' /\ mem s' = mem s.
Proof.
  induction 1 as [s | s t s1 toks s' Hl Ht Hd IH]; intros Hwf Hnw Hlo.
  - split; [constructor | auto].
  - destruct (lex_scanned _ _ _ Hwf Hnw Hlo Hl)
      as (start & H1 & H2 & Hb & Hlx & Hln & Hlo1 & Hnw1 & Hw1 & Hm1).
    destruct (IH Hw1 Hnw1 Hlo1) as (Hsc & Hlo' & Hnw' & Hw' & Hm').
    simpl in Hsc, Hm'. rewrite Hm1 in Hsc.
    split; [|repeat split; auto; congruence].
    eapply scanned_cons; eauto.
Qed.

Lemma line_ok_init file : line_ok (init file).
Proof. reflexivity. Qed.

(** X15: a run on a text of less than 2^64 - 1 bytes that ends normally has
    printed a tokenization of the text up to the cursor: every byte before
    the cursor belongs to white space, to a closed comment or to the lexeme
    of exactly one printed token, in the order of the text, and each token
    is printed with the number of the line on which its first byte
    stands. *)
Theorem run_prints_a_tokenization :
  forall file s',
    (N.of_nat (List.length file) + 1 < size_max)%N ->
    main file = Ret tt s' ->
    scanned file 0 (tokens_of (stdout s')) (source_buf s').
Proof.
  intros file s' Hsize Hmain.
  pose proof (main_output file) as H. rewrite Hmain in H.
  destruct H as (toks & s1 & tl & s2 & Hd & Hl & _ & Ho & _ & Hp & _).
  destruct (drive_scanned _ _ _ Hd (wf_init file) (nowrap_init _ Hsize)
              (line_ok_init file)) as (Hsc & Hlo1 & Hnw1 & Hw1 & Hm1).
  destruct (lex_scanned _ _ _ Hw1 Hnw1 Hlo1 Hl)
    as (start & H1 & H2 & Hb & Hlx & Hln & _).
  simpl in Hsc, Hm1. rewrite Hm1 in *.
  rewrite Ho, tokens_of_app, tokens_of_print_all. simpl.
  rewrite app_nil_r, Hp.
  eapply scanned_snoc; eauto.
Qed.

Lemma run_prints_a_tokenization_witness :
  let file := source "a
{.} b." in
  let s' := mkState file 8 2
              [PToken 1 (make_token "a" IDENT);
               PToken 2 (make_token "b" IDENT);
               PToken 2 (make_token "" DOT); PDone] in
  (N.of_nat (List.length file) + 1 < size_max)%N
  /\ main file = Ret tt s'
  /\ scanned file 0 (tokens_of (stdout s')) (source_buf s').
Proof.
  intros file s'.
  assert (Hsize : (N.of_nat (List.length file) + 1 < size_max)%N)
    by reflexivity.
  assert (Hmain : main file = Ret tt s') by reflexivity.
  split; [exact Hsize|]. split; [exact Hmain|].
  exact (run_prints_a_tokenization file s' Hsize Hmain).
Defined.




(** ** Beyond the claims: numbers that are always accepted *)

Lemma digit_val_le_9 c : isdigit c = true -> (0 <= digit_val c <= 9)%Z.
Proof.
  intros H. split; [now apply digit_val_nonneg|].
  unfold isdigit, between, digit_val in *.
  apply andb_true_iff in H. destruct H as [_ H].
  apply Nat.leb_le in H. lia.
Qed.

Lemma decimal_from_bound l acc :
  Forall (fun c => isdigit c = true) l -> (0 <= acc)%Z ->
  (fold_left (fun a c => (10 * a + digit_val c)%Z) l acc
   < (acc + 1) * 10 ^ Z.of_nat (List.length l))%Z.
Proof.
  intros H. revert acc.
  induction H as [|c l Hc _ IH]; intros acc Ha.
  - simpl. lia.
  - cbn [fold_left List.length]. rewrite Nat2Z.inj_succ, Z.pow_succ_r by lia.
    pose proof (digit_val_le_9 c Hc) as Hd.
    specialize (IH (10 * acc + digit_val c)%Z ltac:(lia)).
    eapply Z.lt_le_trans; [exact IH|].
    assert (0 < 10 ^ Z.of_nat (List.length l))%Z by (apply Z.pow_pos_nonneg; lia).
    nia.
Qed.

Lemma decimal_zeros n l :
  decimal (repeat "0"%char n ++ l) = decimal l.
Proof.
  unfold decimal. rewrite fold_left_app.
  replace (fold_left _ (repeat "0"%char n) 0%Z) with 0%Z; [reflexivity|].
  induction n as [|n IH]; [reflexivity|]. simpl. exact IH.
Qed.

(** X17: a digit run made of any number of zeros followed by at most 18
    digits is never rejected: the scanner returns it whole as a NUMBER
    token. *)
Theorem short_numbers_accepted :
  forall s n l,
    wf s -> isdigit (cur s) = true ->
    digit_run s = repeat "0"%char n ++ l -> List.length l <= 18 ->
    lex s = Ret (make_token (text (digit_run s)) NUMBER)
                (moved s (List.length (digit_run s))).
Proof.
  intros s n l Hwf Hc Hrun Hlen.
  rewrite (lex_number s Hwf Hc).
  assert (Hl : Forall (fun c => isdigit c = true) l).
  { pose proof (take_while_all isdigit (rest s)) as H.
    fold (digit_run s) in H. rewrite Hrun in H.
    now apply Forall_app in H. }
  pose proof (decimal_from_bound l 0%Z Hl (Z.le_refl 0)) as Hb.
  fold (decimal l) in Hb.
  assert (Hpow : (10 ^ Z.of_nat (List.length l) <= 10 ^ 18)%Z)
    by (apply Z.pow_le_mono_r; lia).
  rewrite Hrun at 1. rewrite decimal_zeros.
  destruct (Z.leb_spec (decimal l) LONG_MAX) as [|Hgt]; [reflexivity|].
  exfalso. unfold LONG_MAX in Hgt.
  assert (10 ^ 18 < 2 ^ 63 - 1)%Z by reflexivity. lia.
Qed.

Lemma short_numbers_accepted_witness :
  let s := init (source "000000000000000000000999999999999999999;") in
  wf s /\ isdigit (cur s) = true
  /\ digit_run s = repeat "0"%char 21 ++ source "999999999999999999"
  /\ lex s = Ret (make_token "000000000000000000000999999999999999999"
                             NUMBER) (moved s 39).
Proof.
  intros s.
  assert (Hwf : wf s) by apply wf_init.
  assert (Hc : isdigit (cur s) = true) by reflexivity.
  assert (Hrun : digit_run s
                 = repeat "0"%char 21 ++ source "999999999999999999")
    by reflexivity.
  split; [exact Hwf|]. split; [exact Hc|]. split; [exact Hrun|].
  refine (short_numbers_accepted s 21 _ Hwf Hc Hrun _).
  simpl. lia.
Defined.
